(** * train_llm.py: resumable training loop, stage timers, leader-first execution

    A shallow embedding of [10-finetuning-llama-405b/train_llm.py]:

    - [LocalTimer]: the per-stage timer class;
    - the training loop of [main] (lines 227-324), as a computation in a
      small state-and-exception monad that also records what the run does;
    - the resume attempt of [main] (lines 162-193) over a model of the
      experiment directory;
    - [rank0_first], as a transition system of processes meeting at barriers.

    Python integers are [Z]; floating point numbers (losses, wall-clock
    readings) are idealised as rationals [Q]; rounding is not modelled.  Calls
    into external collaborators (data loader, model, optimizer, process
    group) are answered by an environment of oracles keyed by the position of
    the call, so that a call can succeed or raise. *)

From Stdlib Require Import ZArith QArith List Bool Lia.
From Stdlib Require String.
From Stdlib Require Import SpecFloat.
Import ListNotations.
Local Open Scope Z_scope.

(** ** Python basics *)

Inductive exn : Type :=
| ZeroDivisionError
| TypeError
| FileNotFoundError
| CheckpointException
| ExternalError (code : nat).

Inductive result (A : Type) : Type :=
| Ok (a : A)
| Raise (e : exn).
Arguments Ok {A} a.
Arguments Raise {A} e.

(** [range(lo, hi)]: empty when [hi <= lo]. *)
Definition range (lo hi : Z) : list Z :=
  map (fun k => lo + Z.of_nat k) (seq 0 (Z.to_nat (hi - lo))).

(** [a % b] on Python integers: the sign follows the divisor, and a zero
    divisor raises. *)
Definition py_mod (a b : Z) : result Z :=
  if b =? 0 then Raise ZeroDivisionError else Ok (a mod b).

(** [sum(xs)]: left to right, starting from [0]. *)
Definition py_sum (xs : list Q) : Q := fold_left Qplus xs 0%Q.

(** ** LocalTimer (lines 390-416)

    [time.time()] is a reading of the wall clock: [time_at n] is the value of
    the [n]-th reading, and every method threads the number of readings made
    so far.  [self.synchronize()] only blocks and is not modelled. *)

Module LocalTimer.

Record t : Type := mk {
  measurements : list Q;
  start_time : option Q
}.

(** [__init__] *)
Definition init : t := mk [] None.

(** [__enter__] *)
Definition enter (time_at : nat -> Q) (clk : nat) (self : t) : t * nat :=
  (mk (measurements self) (Some (time_at clk)), S clk).

(** [__exit__(type, value, traceback)]: [traceback] is [None] exactly when
    the body of the [with] block finished normally.  Subtracting a
    [start_time] of [None] is a [TypeError]. *)
Definition exit (time_at : nat -> Q) (traceback : option exn) (clk : nat)
    (self : t) : result t * nat :=
  match traceback with
  | None =>
      let end_time := time_at clk in
      match start_time self with
      | Some s => (Ok (mk (measurements self ++ [(end_time - s)%Q]) None), S clk)
      | None => (Raise TypeError, S clk)
      end
  | Some _ => (Ok (mk (measurements self) None), clk)
  end.

(** [avg_elapsed_ms] in exact arithmetic: [1000 * (sum(m) / len(m))]; the
    division is by the integer [len(m)] and raises when it is zero.  The
    loop model uses this reading; [LocalTimer64.avg_elapsed_ms] below is the
    evaluation in double precision. *)
Definition avg_elapsed_ms (self : t) : result Q :=
  match length (measurements self) with
  | O => Raise ZeroDivisionError
  | S _ as n => Ok (1000 * (py_sum (measurements self) / inject_Z (Z.of_nat n)))%Q
  end.

(** [reset] *)
Definition reset (self : t) : t := mk [] None.

End LocalTimer.

(** The specification's reading of the timer query: the arithmetic mean of the
    samples, each converted to milliseconds. *)
Definition to_ms (seconds : Q) : Q := (seconds * 1000)%Q.

Definition arithmetic_mean (xs : list Q) : Q :=
  (fold_right Qplus 0 xs / inject_Z (Z.of_nat (length xs)))%Q.

Definition mean_ms (samples : list Q) : Q := arithmetic_mean (map to_ms samples).

(** ** The timer query in double precision

    The samples of a timer are Python floats, IEEE 754 binary64 numbers, and
    every operation on them rounds to the nearest float, ties to even.  The
    loop model above measures time in exact numbers; here the query is
    evaluated as the code evaluates it. *)

Module Float64.

Definition f64 : Type := spec_float.

(** [float(n)] of an integer. *)
Definition of_int (n : Z) : f64 := binary_normalize 53 1024 n 0 false.

Definition add : f64 -> f64 -> f64 := SFadd 53 1024.
Definition div : f64 -> f64 -> f64 := SFdiv 53 1024.
Definition mul : f64 -> f64 -> f64 := SFmul 53 1024.

(** The number a float stands for, when it is finite. *)
Definition value (x : f64) : option Q :=
  match x with
  | S754_zero _ => Some 0%Q
  | S754_finite s m e =>
      Some ((if s then -1 else 1) * inject_Z (Zpos m) * Qpower 2 e)%Q
  | S754_infinity _ | S754_nan => None
  end.

Fixpoint values (xs : list f64) : option (list Q) :=
  match xs with
  | [] => Some []
  | x :: xs' =>
      match value x, values xs' with
      | Some q, Some qs => Some (q :: qs)
      | _, _ => None
      end
  end.

(** The float [z] computed from [x] and [y] is the exact result [qop]. *)
Definition exact2 (qop : Q -> Q -> Q) (x y z : f64) : bool :=
  match value x, value y, value z with
  | Some a, Some b, Some c => Qeq_bool c (qop a b)
  | _, _, _ => false
  end.

Definition exact_int (x : f64) (n : Z) : bool :=
  match value x with
  | Some q => Qeq_bool q (inject_Z n)
  | None => false
  end.

(** No addition of the sum from [acc] on rounds. *)
Fixpoint sum_exact (acc : f64) (xs : list f64) : bool :=
  match xs with
  | [] => true
  | x :: xs' => exact2 Qplus acc x (add acc x) && sum_exact (add acc x) xs'
  end.

End Float64.

Module LocalTimer64.

Import Float64.

Record t : Type := mk {
  measurements : list f64;
  start_time : option f64
}.

(** [reset] *)
Definition reset (self : t) : t := mk [] None.

(** [avg_elapsed_ms] (lines 411-412), [1000 * (sum(m) / len(m))].  [sum]
    starts from the integer [0] and adds the samples from left to right
    (interpreters that compensate the rounding errors of the additions
    return the same where no addition rounds).  On an empty list the
    division is [0 / 0] on integers and raises; otherwise [len(m)] and
    [1000] are converted to floats, and a float division by a non-zero
    number and a float product return. *)
Definition avg_elapsed_ms (self : t) : result f64 :=
  let m := measurements self in
  match m with
  | [] => Raise ZeroDivisionError
  | _ :: _ =>
      Ok (mul (of_int 1000)
              (div (fold_left add m (of_int 0))
                   (of_int (Z.of_nat (length m)))))
  end.

(** None of the operations of [avg_elapsed_ms] on the samples [m] rounds:
    the additions of the sum, the conversion of the length, the division
    and the product are all exact. *)
Definition unrounded (m : list f64) : bool :=
  let total := fold_left add m (of_int 0) in
  let n := of_int (Z.of_nat (length m)) in
  sum_exact (of_int 0) m
  && exact_int n (Z.of_nat (length m))
  && exact2 Qdiv total n (div total n)
  && exact2 Qmult (of_int 1000) (div total n)
            (mul (of_int 1000) (div total n)).

End LocalTimer64.

(** ** Training state, configuration, environment *)

(** The dict [state] (lines 163-168), also the content of [state.json]. *)
Record TrainingState : Type := mkState {
  epoch : Z;
  global_step : Z;
  epoch_step : Z;
  running_loss : Q
}.

Definition zero_state : TrainingState := mkState 0 0 0 0.

(** The parts of the launch parameters and of the process group the loop
    reads. [len_dataloader] is [len(dataloader)], a length. *)
Record Config : Type := mkConfig {
  num_epochs : Z;
  log_freq : Z;
  ckpt_freq : Z;
  len_dataloader : nat;
  rank : nat
}.

(** The five timers of line 222, in the order of the dict. *)
Inductive stage : Type := Data | Forward | Backward | Update | Waiting.

Record Timers : Type := mkTimers {
  t_data : LocalTimer.t;
  t_forward : LocalTimer.t;
  t_backward : LocalTimer.t;
  t_update : LocalTimer.t;
  t_waiting : LocalTimer.t
}.

Definition get_timer (k : stage) (ts : Timers) : LocalTimer.t :=
  match k with
  | Data => t_data ts
  | Forward => t_forward ts
  | Backward => t_backward ts
  | Update => t_update ts
  | Waiting => t_waiting ts
  end.

Definition set_timer (k : stage) (v : LocalTimer.t) (ts : Timers) : Timers :=
  match k with
  | Data => mkTimers v (t_forward ts) (t_backward ts) (t_update ts) (t_waiting ts)
  | Forward => mkTimers (t_data ts) v (t_backward ts) (t_update ts) (t_waiting ts)
  | Backward => mkTimers (t_data ts) (t_forward ts) v (t_update ts) (t_waiting ts)
  | Update => mkTimers (t_data ts) (t_forward ts) (t_backward ts) v (t_waiting ts)
  | Waiting => mkTimers (t_data ts) (t_forward ts) (t_backward ts) (t_update ts) v
  end.

Definition map_timers (f : LocalTimer.t -> LocalTimer.t) (ts : Timers) : Timers :=
  mkTimers (f (t_data ts)) (f (t_forward ts)) (f (t_backward ts))
           (f (t_update ts)) (f (t_waiting ts)).

Definition fresh_timers : Timers :=
  mkTimers LocalTimer.init LocalTimer.init LocalTimer.init LocalTimer.init
           LocalTimer.init.

(** The external collaborators, as oracles.  A call made while the loop is in
    epoch [e] at batch index [i] is answered by the oracle at [(e, i)];
    [None] is a normal return, [Some x] raises [x]. *)
Record Env : Type := mkEnv {
  time_at : nat -> Q;                     (* time.time() *)
  fetch : Z -> Z -> option exn;           (* next(batches) and the transfer *)
  barrier : Z -> Z -> nat -> option exn;  (* the k-th dist.barrier() of a step *)
  forward : Z -> Z -> result Q;           (* the model call of line 251; its value
                                             is the loss, which line 280 is
                                             taken to read without failing *)
  backward : Z -> Z -> option exn;        (* zero_grad() and loss.backward() *)
  update : Z -> Z -> option exn           (* optimizer.step(), lr_scheduler.step() *)
}.

(** The record passed to the metrics reporter (lines 285-298); the learning
    rate and the memory figures, read from external objects, are left out. *)
Record LogInfo : Type := mkInfo {
  info_running_loss : Q;
  info_epoch : Z;
  info_epoch_progress : Q;
  info_num_batches_remaining : Z;
  info_time_total : Q;
  info_time_data : Q;
  info_time_forward : Q;
  info_time_backward : Q;
  info_time_update : Q;
  info_time_waiting : Q
}.

(** What a run does, in order.  Every event carries the value of [state] at
    that point. *)
Inductive event : Type :=
| EvEpochBegin (st : TrainingState)          (* line 228 *)
| EvFetch (st : TrainingState) (i_step : Z)  (* line 238 *)
| EvExec (st : TrainingState) (i_step : Z)   (* line 251: batch i_step is processed *)
| EvCounters (st : TrainingState)            (* after lines 278-280 *)
| EvLog (st : TrainingState) (info : LogInfo) (* line 299 *)
| EvCkpt (st : TrainingState) (leader : bool) (* lines 309-322: every rank saves
                                                its shards; the leader, rank 0,
                                                also dumps [st] to state.json *)
| EvEpochEnd (st : TrainingState).           (* after line 324 *)

Definition ev_state (ev : event) : TrainingState :=
  match ev with
  | EvEpochBegin st | EvFetch st _ | EvExec st _ | EvCounters st
  | EvLog st _ | EvCkpt st _ | EvEpochEnd st => st
  end.

(** ** The monad of the loop: mutable world, exceptions, recorded events *)

Record World : Type := mkWorld {
  state : TrainingState;
  timers : Timers;
  clock : nat            (* wall-clock readings made so far *)
}.

Definition init_world (st : TrainingState) : World := mkWorld st fresh_timers 0.

Record Out (A : Type) : Type := mkOut {
  res : result A;
  world : World;
  events : list event
}.
Arguments mkOut {A} res world events.
Arguments res {A} o.
Arguments world {A} o.
Arguments events {A} o.

Definition M (A : Type) : Type := World -> Out A.

Definition ret {A} (a : A) : M A := fun w => mkOut (Ok a) w [].

(** Mutations made before an exception are kept, as in Python. *)
Definition bind {A B} (c : M A) (k : A -> M B) : M B := fun w =>
  let o := c w in
  match res o with
  | Ok a => let o' := k a (world o) in
            mkOut (res o') (world o') (events o ++ events o')
  | Raise e => mkOut (Raise e) (world o) (events o)
  end.

Definition raise {A} (e : exn) : M A := fun w => mkOut (Raise e) w [].

Definition lift {A} (r : result A) : M A := fun w => mkOut r w [].

(** Run [c] and hand back how it ended (the [try] of a [with] statement). *)
Definition attempt {A} (c : M A) : M (result A) := fun w =>
  let o := c w in mkOut (Ok (res o)) (world o) (events o).

Definition get_state : M TrainingState := fun w => mkOut (Ok (state w)) w [].

Definition set_state (st : TrainingState) : M unit := fun w =>
  mkOut (Ok tt) (mkWorld st (timers w) (clock w)) [].

Definition emit (ev : TrainingState -> event) : M unit := fun w =>
  mkOut (Ok tt) w [ev (state w)].

(** An external call that returns nothing. *)
Definition ext (o : option exn) : M unit :=
  match o with None => ret tt | Some e => raise e end.

Declare Scope m_scope.
Delimit Scope m_scope with M.
Notation "x <- c1 ;; c2" := (bind c1 (fun x => c2))
  (at level 61, c1 at next level, right associativity) : m_scope.
Notation "c1 ;; c2" := (bind c1 (fun _ => c2))
  (at level 61, right associativity) : m_scope.
Local Open Scope m_scope.

Fixpoint for_each {A} (xs : list A) (body : A -> M unit) : M unit :=
  match xs with
  | [] => ret tt
  | x :: xs' => body x ;; for_each xs' body
  end.

(** ** The timers inside the world *)

Section Loop.

Variable cfg : Config.
Variable env : Env.

Definition timer_enter (k : stage) : M unit := fun w =>
  let '(t', clk') := LocalTimer.enter (time_at env) (clock w) (get_timer k (timers w)) in
  mkOut (Ok tt) (mkWorld (state w) (set_timer k t' (timers w)) clk') [].

(** The world on entry of the body of [with timers[k]]. *)
Definition entered (k : stage) (w : World) : World :=
  world (timer_enter k w).

Definition timer_exit (k : stage) (traceback : option exn) : M unit := fun w =>
  let '(r, clk') :=
    LocalTimer.exit (time_at env) traceback (clock w) (get_timer k (timers w)) in
  match r with
  | Ok t' => mkOut (Ok tt) (mkWorld (state w) (set_timer k t' (timers w)) clk') []
  | Raise e => mkOut (Raise e) (mkWorld (state w) (timers w) clk') []
  end.

(** [with timers[k]: body].  [__exit__] returns [None], so an exception of
    the body is raised again after it. *)
Definition with_timer {A} (k : stage) (body : M A) : M A :=
  timer_enter k ;;
  r <- attempt body ;;
  match r with
  | Ok a => timer_exit k None ;; ret a
  | Raise e => timer_exit k (Some e) ;; raise e
  end.

(** [t.avg_elapsed_ms()] on [timers[k]]. *)
Definition timer_avg (k : stage) : M Q := fun w =>
  mkOut (LocalTimer.avg_elapsed_ms (get_timer k (timers w))) w [].

(** Lines 305-306. *)
Definition reset_timers : M unit := fun w =>
  mkOut (Ok tt) (mkWorld (state w) (map_timers LocalTimer.reset (timers w)) (clock w)) [].

(** ** The loop body (lines 236-322) *)

(** Lines 278-280. *)
Definition advance (loss : Q) (st : TrainingState) : TrainingState :=
  mkState (epoch st) (global_step st + 1) (epoch_step st + 1)
          (running_loss st + loss)%Q.

(** Lines 283-306: the logging branch.  The averages are taken in the
    order of the dict, first for the total and then one by one.  The record
    is logged on every rank (line 299); sending it on to the metrics reporter
    on rank 0 is an external call that is taken to return. *)
Definition log_block (i_step : Z) : M unit :=
  st <- get_state ;;
  a_data <- timer_avg Data ;;
  a_forward <- timer_avg Forward ;;
  a_backward <- timer_avg Backward ;;
  a_update <- timer_avg Update ;;
  a_waiting <- timer_avg Waiting ;;
  b_data <- timer_avg Data ;;
  b_forward <- timer_avg Forward ;;
  b_backward <- timer_avg Backward ;;
  b_update <- timer_avg Update ;;
  b_waiting <- timer_avg Waiting ;;
  emit (fun st => EvLog st
    (mkInfo (running_loss st / inject_Z (log_freq cfg))%Q
            (epoch st)
            (inject_Z (epoch_step st) / inject_Z (Z.of_nat (len_dataloader cfg)))%Q
            (Z.of_nat (len_dataloader cfg) - i_step)
            (0 + a_data + a_forward + a_backward + a_update + a_waiting)%Q
            b_data b_forward b_backward b_update b_waiting)) ;;
  set_state (mkState (epoch st) (global_step st) (epoch_step st) 0) ;;
  reset_timers.

(** Lines 308-322: the checkpoint branch.  The barriers and the writes are
    external calls that are taken to return; the event records the state
    that the leader dumps. *)
Definition save_block : M unit :=
  emit (fun st => EvCkpt st (Nat.eqb (rank cfg) 0)).

(** Lines 245-322: what a step does once it is not skipped. *)
Definition run_stages (i_step : Z) : M Q :=
  st <- get_state ;;
  let e := epoch st in
  with_timer Waiting (ext (barrier env e i_step 0)) ;;
  loss <- with_timer Forward (emit (fun st => EvExec st i_step) ;;
                              lift (forward env e i_step)) ;;
  with_timer Waiting (ext (barrier env e i_step 1)) ;;
  with_timer Backward (ext (backward env e i_step)) ;;
  with_timer Waiting (ext (barrier env e i_step 2)) ;;
  with_timer Update (ext (update env e i_step)) ;;
  with_timer Waiting (ext (barrier env e i_step 3)) ;;
  ret loss.

Definition after_stages (i_step : Z) (loss : Q) : M unit :=
  st <- get_state ;;
  set_state (advance loss st) ;;
  emit EvCounters ;;
  st <- get_state ;;
  m <- lift (py_mod (global_step st) (log_freq cfg)) ;;
  (if m =? 0 then log_block i_step else ret tt) ;;
  st <- get_state ;;
  m <- lift (py_mod (global_step st) (ckpt_freq cfg)) ;;
  (if m =? 0 then save_block else ret tt).

(** Lines 237-239. *)
Definition data_stage (i_step : Z) : M unit :=
  st <- get_state ;;
  with_timer Data (emit (fun st => EvFetch st i_step) ;;
                   ext (fetch env (epoch st) i_step)).

(** One iteration of the inner [for] (lines 236-322); the early [ret] is
    the [continue] of line 243. *)
Definition step_body (i_step : Z) : M unit :=
  data_stage i_step ;;
  st <- get_state ;;
  if i_step <? epoch_step st then ret tt
  else
    loss <- run_stages i_step ;;
    after_stages i_step loss.

(** Line 324. *)
Definition end_epoch : M unit :=
  st <- get_state ;;
  set_state (mkState (epoch st) (global_step st) 0 (running_loss st)) ;;
  emit EvEpochEnd.

(** The inner loop, line 236. *)
Definition steps_from (lo : Z) : M unit :=
  for_each (range lo (Z.of_nat (len_dataloader cfg))) step_body.

(** One iteration of the outer [for] (lines 227-324): the loop variable is
    [state["epoch"]] itself. *)
Definition epoch_body (e : Z) : M unit :=
  st <- get_state ;;
  set_state (mkState e (global_step st) (epoch_step st) (running_loss st)) ;;
  emit EvEpochBegin ;;
  steps_from 0 ;;
  end_epoch.

(** Lines 227-324; the range is computed once, from the epoch the run
    starts with. *)
Definition train : M unit :=
  st <- get_state ;;
  for_each (range (epoch st) (num_epochs cfg)) epoch_body.

(** What is left of a run that stands before batch index [s] of epoch
    [e]: the iterations from [s] on, the end of the epoch, and the epochs
    after [e]. *)
Definition remaining (e s : Z) : M unit :=
  for_each (range s (Z.of_nat (len_dataloader cfg))) step_body ;;
  end_epoch ;;
  for_each (range (e + 1) (num_epochs cfg)) epoch_body.

End Loop.

(** ** The resume attempt (lines 162-193) *)

Definition Blob : Type := Z.

(** The experiment directory [exp_dir], as one rank sees it. *)
Record ExpDir : Type := mkDir {
  state_json : option TrainingState;         (* exp_dir / "state.json" *)
  lr_scheduler_pt : option Blob;             (* exp_dir / "lr_scheduler.pt" *)
  checkpoint : list (nat * (Blob * Blob))    (* exp_dir / "checkpoint": per rank,
                                                the model and optimizer shards
                                                that its index and its files
                                                hold *)
}.

(** What the resume attempt may overwrite. *)
Record Engine : Type := mkEngine {
  model_state : Blob;
  optimizer_state : Blob;
  lr_scheduler_state : Blob
}.

Fixpoint lookup_shard (r : nat) (shards : list (nat * (Blob * Blob)))
    : option (Blob * Blob) :=
  match shards with
  | [] => None
  | (r', s) :: rest => if Nat.eqb r r' then Some s else lookup_shard r rest
  end.

(** [torch.distributed.checkpoint.load] (external), the part of one rank:
    the rank reads its own shard, and the read fails when it is not
    there. *)
Definition dcp_load (dir : ExpDir) (r : nat) : result (Blob * Blob) :=
  match lookup_shard r (checkpoint dir) with
  | Some s => Ok s
  | None => Raise CheckpointException
  end.

(** [torch.load] (external) of a file that may be missing. *)
Definition torch_load (file : option Blob) : result Blob :=
  match file with
  | Some b => Ok b
  | None => Raise FileNotFoundError
  end.

(** Lines 163-192, on rank [r] taken on its own (a group of one process, or
    a group in which the reads of the other ranks succeed): the new
    [state], [resumed], and the engine after [set_state_dict] and
    [lr_scheduler.load_state_dict]. *)
Definition attempt_resume (r : nat) (dir : ExpDir) (eng : Engine)
    : result (TrainingState * bool * Engine) :=
  match state_json dir with
  | Some doc =>
      match dcp_load dir r with
      | Raise e => Raise e
      | Ok (m, o) =>
          match torch_load (lr_scheduler_pt dir) with
          | Raise e => Raise e
          | Ok s => Ok (doc, true, mkEngine m o s)
          end
      end
  | None => Ok (zero_state, false, eng)
  end.

Definition shard_present (dir : ExpDir) (r : nat) : bool :=
  match lookup_shard r (checkpoint dir) with Some _ => true | None => false end.

Definition is_some {A} (o : option A) : bool :=
  match o with Some _ => true | None => false end.

(** A checkpoint record for [world_size] ranks: all of its parts are there,
    none of them is, or something in between. *)
Definition record_complete (world_size : nat) (dir : ExpDir) : bool :=
  is_some (state_json dir) && is_some (lr_scheduler_pt dir)
  && forallb (shard_present dir) (seq 0 world_size).

Definition record_absent (dir : ExpDir) : bool :=
  negb (is_some (state_json dir)) && negb (is_some (lr_scheduler_pt dir))
  && match checkpoint dir with [] => true | _ => false end.

Definition record_partial (world_size : nat) (dir : ExpDir) : bool :=
  negb (record_complete world_size dir) && negb (record_absent dir).

(** [torch.distributed.checkpoint.load] in a group of [world_size]
    processes.  The call is collective: every rank reads its own shard, the
    outcomes are gathered, and the failure of any rank is raised on every
    rank. *)
Definition dcp_load_group (world_size : nat) (dir : ExpDir) (r : nat)
    : result (Blob * Blob) :=
  if forallb (shard_present dir) (seq 0 world_size) then dcp_load dir r
  else Raise CheckpointException.

(** Lines 163-192, on rank [r] of a group of [world_size] processes that
    see the same experiment directory. *)
Definition attempt_resume_group (world_size r : nat) (dir : ExpDir)
    (eng : Engine) : result (TrainingState * bool * Engine) :=
  match state_json dir with
  | Some doc =>
      match dcp_load_group world_size dir r with
      | Raise e => Raise e
      | Ok (m, o) =>
          match torch_load (lr_scheduler_pt dir) with
          | Raise e => Raise e
          | Ok s => Ok (doc, true, mkEngine m o s)
          end
      end
  | None => Ok (zero_state, false, eng)
  end.

(** ** rank0_first (lines 379-387)

    Every process of the group runs the same generator; [dist.barrier()]
    blocks a process until all processes of the group are blocked in a
    barrier, and then lets all of them go on.  A process that is blocked
    in a barrier may also leave it with an exception (a peer has died, a
    timeout): the exception leaves the generator and the [with] statement. *)

Module Rank0First.

Inductive pc : Type :=
| AtStart          (* line 381 *)
| Yield1           (* suspended at line 383: the body of the with block runs *)
| AtBarrier1       (* blocked in line 384 *)
| AfterBarrier1    (* line 385 *)
| Yield2           (* suspended at line 386: the body of the with block runs *)
| AtBarrier2       (* blocked in line 387 *)
| Left             (* past the with block *)
| Crashed          (* the body raised: the generator is never resumed *)
| BarrierFailed.   (* dist.barrier() raised in line 384 or 387 *)

Record proc : Type := mkProc {
  at_pc : pc;
  worked : bool    (* the body of the with block has run to its end *)
}.

(** A process on its own: the generator up to its next barrier. *)
Definition local_step (rank : nat) (p : proc) : option proc :=
  match at_pc p with
  | AtStart =>
      if Nat.eqb rank 0 then Some (mkProc Yield1 (worked p))
      else Some (mkProc AtBarrier1 (worked p))
  | Yield1 => Some (mkProc AtBarrier1 true)
  | AfterBarrier1 =>
      if Nat.ltb 0 rank then Some (mkProc Yield2 (worked p))
      else Some (mkProc AtBarrier2 (worked p))
  | Yield2 => Some (mkProc AtBarrier2 true)
  | AtBarrier1 | AtBarrier2 | Left | Crashed | BarrierFailed => None
  end.

Definition in_body (p : proc) : bool :=
  match at_pc p with Yield1 | Yield2 => true | _ => false end.

Definition blocked (p : proc) : bool :=
  match at_pc p with AtBarrier1 | AtBarrier2 => true | _ => false end.

Definition release (p : proc) : proc :=
  match at_pc p with
  | AtBarrier1 => mkProc AfterBarrier1 (worked p)
  | AtBarrier2 => mkProc Left (worked p)
  | _ => p
  end.

(** The processes of the group; the position in the list is the rank. *)
Definition config : Type := list proc.

Definition start (world_size : nat) : config :=
  repeat (mkProc AtStart false) world_size.

Fixpoint update (r : nat) (p : proc) (c : config) : config :=
  match c, r with
  | [], _ => []
  | _ :: c', O => p :: c'
  | q :: c', S r' => q :: update r' p c'
  end.

Inductive action : Type :=
| Local (r : nat)          (* process r moves on its own *)
| BodyRaises (r : nat)     (* the body of process r raises *)
| BarrierRaises (r : nat)  (* the barrier process r is blocked in raises *)
| BarrierOpens.            (* all processes are blocked in a barrier *)

Definition do_action (a : action) (c : config) : option config :=
  match a with
  | Local r =>
      match nth_error c r with
      | Some p =>
          match local_step r p with
          | Some p' => Some (update r p' c)
          | None => None
          end
      | None => None
      end
  | BodyRaises r =>
      match nth_error c r with
      | Some p =>
          if in_body p then Some (update r (mkProc Crashed (worked p)) c) else None
      | None => None
      end
  | BarrierRaises r =>
      match nth_error c r with
      | Some p =>
          if blocked p then Some (update r (mkProc BarrierFailed (worked p)) c)
          else None
      | None => None
      end
  | BarrierOpens =>
      match c with
      | [] => None
      | _ => if forallb blocked c then Some (map release c) else None
      end
  end.

Fixpoint run (schedule : list action) (c : config) : option config :=
  match schedule with
  | [] => Some c
  | a :: rest =>
      match do_action a c with
      | Some c' => run rest c'
      | None => None
      end
  end.

Definition reachable (world_size : nat) (c : config) : Prop :=
  exists schedule, run schedule (start world_size) = Some c.

(** A process has begun the unit of work. *)
Definition began (p : proc) : bool := in_body p || worked p.

(** The three phases of a group: up to the first barrier, between the two
    barriers, past the second.  Each says where a process of rank [r] can
    be, and whether it has done the work. *)
Definition phase1 (r : nat) (p : proc) : bool :=
  match at_pc p, worked p with
  | AtStart, false => true
  | AtBarrier1, w | BarrierFailed, w => if Nat.eqb r 0 then w else negb w
  | Yield1, false | Crashed, false => Nat.eqb r 0
  | _, _ => false
  end.

Definition phase2 (r : nat) (p : proc) : bool :=
  match at_pc p, worked p with
  | AfterBarrier1, w => if Nat.eqb r 0 then w else negb w
  | AtBarrier2, true | BarrierFailed, true => true
  | Yield2, false | Crashed, false => negb (Nat.eqb r 0)
  | _, _ => false
  end.

Definition phase3 (r : nat) (p : proc) : bool :=
  match at_pc p, worked p with
  | Left, true => true
  | _, _ => false
  end.

Definition everywhere (ph : nat -> proc -> bool) (c : config) : Prop :=
  forall r p, nth_error c r = Some p -> ph r p = true.

Definition inv (c : config) : Prop :=
  everywhere phase1 c \/ everywhere phase2 c \/ everywhere phase3 c.

End Rank0First.

(** ** Vocabulary of the properties *)

(** The bound on the counters that the loop keeps. *)
Definition counters_ok (cfg : Config) (st : TrainingState) : Prop :=
  0 <= epoch_step st <= Z.of_nat (len_dataloader cfg)
  /\ epoch_step st <= global_step st.


Definition is_epoch_end (ev : event) : bool :=
  match ev with EvEpochEnd _ => true | _ => false end.

(** Every external call returns normally. *)
Definition env_ok (env : Env) : Prop :=
  (forall e i, fetch env e i = None)
  /\ (forall e i k, barrier env e i k = None)
  /\ (forall e i, exists loss, forward env e i = Ok loss)
  /\ (forall e i, backward env e i = None)
  /\ (forall e i, update env e i = None).

Definition counters (st : TrainingState) : Z * Z * Z :=
  (epoch st, epoch_step st, global_step st).

(** The states at which a checkpoint was saved. *)
Fixpoint ckpts (tr : list event) : list TrainingState :=
  match tr with
  | [] => []
  | EvCkpt st _ :: tr' => st :: ckpts tr'
  | _ :: tr' => ckpts tr'
  end.

(** The (epoch, batch index) pairs handed to the model, in order. *)
Fixpoint processed (tr : list event) : list (Z * Z) :=
  match tr with
  | [] => []
  | EvExec st i :: tr' => (epoch st, i) :: processed tr'
  | _ :: tr' => processed tr'
  end.

(** The batch indices fetched from the data loader, in order. *)
Fixpoint fetched (tr : list event) : list (Z * Z) :=
  match tr with
  | [] => []
  | EvFetch st i :: tr' => (epoch st, i) :: fetched tr'
  | _ :: tr' => fetched tr'
  end.

(** The counters after each optimizer update, in order. *)
Fixpoint trajectory (tr : list event) : list (Z * Z * Z) :=
  match tr with
  | [] => []
  | EvCounters st :: tr' => counters st :: trajectory tr'
  | _ :: tr' => trajectory tr'
  end.

(** The world after a [with timers[k]] block whose body left the world alone:
    [timed] when the body returned, [aborted] when it raised. *)
Definition timed (env : Env) (k : stage) (w : World) : World :=
  mkWorld (state w)
    (set_timer k
       (LocalTimer.mk
          (LocalTimer.measurements (get_timer k (timers w))
           ++ [(time_at env (S (clock w)) - time_at env (clock w))%Q]) None)
       (timers w))
    (S (S (clock w))).

Definition aborted (k : stage) (w : World) : World :=
  mkWorld (state w)
    (set_timer k
       (LocalTimer.mk (LocalTimer.measurements (get_timer k (timers w))) None)
       (timers w))
    (S (clock w)).

(** Every timer holds at least one sample. *)
Definition all_sampled (ts : Timers) : Prop :=
  forall k, LocalTimer.measurements (get_timer k ts) <> [].

(** How the compute stages of a step end, as far as the oracles decide:
    the loss, or the first exception. *)
Definition stages_result (env : Env) (e i : Z) : result Q :=
  match barrier env e i 0 with Some x => Raise x | None =>
  match forward env e i with Raise x => Raise x | Ok loss =>
  match barrier env e i 1 with Some x => Raise x | None =>
  match backward env e i with Some x => Raise x | None =>
  match barrier env e i 2 with Some x => Raise x | None =>
  match update env e i with Some x => Raise x | None =>
  match barrier env e i 3 with Some x => Raise x | None =>
  Ok loss end end end end end end end.

(** The value of [avg_elapsed_ms] when it has one. *)
Definition avg_ms (t : LocalTimer.t) : Q :=
  (1000 * (py_sum (LocalTimer.measurements t)
           / inject_Z (Z.of_nat (length (LocalTimer.measurements t)))))%Q.

(** The record logged at batch index [i] from state [st] and timers [ts]. *)
Definition report (cfg : Config) (i : Z) (st : TrainingState) (ts : Timers)
    : LogInfo :=
  mkInfo (running_loss st / inject_Z (log_freq cfg))%Q
         (epoch st)
         (inject_Z (epoch_step st) / inject_Z (Z.of_nat (len_dataloader cfg)))%Q
         (Z.of_nat (len_dataloader cfg) - i)
         (0 + avg_ms (t_data ts) + avg_ms (t_forward ts) + avg_ms (t_backward ts)
          + avg_ms (t_update ts) + avg_ms (t_waiting ts))%Q
         (avg_ms (t_data ts)) (avg_ms (t_forward ts)) (avg_ms (t_backward ts))
         (avg_ms (t_update ts)) (avg_ms (t_waiting ts)).

(** The world after the logging branch. *)
Definition logged (w : World) : World :=
  mkWorld (mkState (epoch (state w)) (global_step (state w))
                   (epoch_step (state w)) 0)
          (map_timers LocalTimer.reset (timers w)) (clock w).

Definition with_state (st : TrainingState) (w : World) : World :=
  mkWorld st (timers w) (clock w).

(** [o], after the events [evs]. *)
Definition prepend {A} (evs : list event) (o : Out A) : Out A :=
  mkOut (res o) (world o) (evs ++ events o).

(** The events of the compute stages: the batch reaches the model once the
    first barrier is passed. *)
Definition stage_events (env : Env) (st : TrainingState) (i : Z) : list event :=
  match barrier env (epoch st) i 0 with
  | Some _ => []
  | None => [EvExec st i]
  end.

(** From [w] to [w'] every timer kept its samples and may have gained some. *)
Definition grows (w w' : World) : Prop :=
  forall k, exists extra,
    LocalTimer.measurements (get_timer k (timers w'))
    = LocalTimer.measurements (get_timer k (timers w)) ++ extra.

(** How [epoch_step] may differ between an event and the one before it:
    it is 0 at the end of an epoch, and otherwise it stays or grows by one. *)
Definition counter_move (prev : Z) (ev : event) : Prop :=
  if is_epoch_end ev then epoch_step (ev_state ev) = 0
  else epoch_step (ev_state ev) = prev \/ epoch_step (ev_state ev) = prev + 1.


Definition last_epoch_step (prev : Z) (tr : list event) : Z :=
  fold_left (fun _ ev => epoch_step (ev_state ev)) tr prev.


(** The samples the data timer gains over [n] consecutive skipped
    iterations that start with the clock at [clk]: each takes two readings. *)
Fixpoint skip_samples (env : Env) (clk : nat) (n : nat) : list Q :=
  match n with
  | O => []
  | S n' => (time_at env (S clk) - time_at env clk)%Q
            :: skip_samples env (S (S clk)) n'
  end.

(** The first record handed to the metrics reporter. *)
Fixpoint first_log (tr : list event) : option LogInfo :=
  match tr with
  | [] => None
  | EvLog _ info :: _ => Some info
  | _ :: tr' => first_log tr'
  end.

(** The data timer holds the samples [pre], and possibly more after them. *)
Definition data_prefix (pre : list Q) (w : World) : Prop :=
  exists rest,
    LocalTimer.measurements (get_timer Data (timers w)) = pre ++ rest.

(** The data average of the first log record of [tr], if there is one, is
    taken over [pre] followed by further samples. *)
Definition log_includes (pre : list Q) (tr : list event) : Prop :=
  forall info, first_log tr = Some info ->
    exists rest,
      info_time_data info = avg_ms (LocalTimer.mk (pre ++ rest) None)
      /\ LocalTimer.avg_elapsed_ms (LocalTimer.mk (pre ++ rest) None)
         = Ok (info_time_data info).

Definition carries (pre : list Q) {A} (c : M A) : Prop :=
  forall w, data_prefix pre w ->
    log_includes pre (events (c w))
    /\ (first_log (events (c w)) = None -> data_prefix pre (world (c w))).

(** An event without what differs between two runs that agree on the
    counters: the accumulated loss and the timings. *)
Definition erase_state (st : TrainingState) : TrainingState :=
  mkState (epoch st) (global_step st) (epoch_step st) 0.

Definition erase_info (info : LogInfo) : LogInfo :=
  mkInfo 0 (info_epoch info) (info_epoch_progress info)
         (info_num_batches_remaining info) 0 0 0 0 0 0.

Definition erase (ev : event) : event :=
  match ev with
  | EvEpochBegin st => EvEpochBegin (erase_state st)
  | EvFetch st i => EvFetch (erase_state st) i
  | EvExec st i => EvExec (erase_state st) i
  | EvCounters st => EvCounters (erase_state st)
  | EvLog st info => EvLog (erase_state st) (erase_info info)
  | EvCkpt st b => EvCkpt (erase_state st) b
  | EvEpochEnd st => EvEpochEnd (erase_state st)
  end.

(** Two outcomes that end alike, did the same up to [erase], and agree on
    the counters. *)
Definition alike {A} (o1 o2 : Out A) : Prop :=
  res o1 = res o2
  /\ map erase (events o1) = map erase (events o2)
  /\ counters (state (world o1)) = counters (state (world o2)).

(** A computation whose outcome depends on the world through the counters
    only, up to [erase]. *)
Definition insensitive {A} (c : M A) : Prop :=
  forall w1 w2, counters (state w1) = counters (state w2) ->
    alike (c w1) (c w2).

(** The world [w] stands before batch index [s] of epoch [e], inside the
    run, with every batch of the epoch below [s] fetched without error. *)
Definition at_position (cfg : Config) (env : Env) (e s : Z) (w : World) : Prop :=
  epoch (state w) = e /\ epoch_step (state w) = s
  /\ 0 <= s <= Z.of_nat (len_dataloader cfg)
  /\ e < num_epochs cfg
  /\ forall j, 0 <= j < s -> fetch env e j = None.

(** The batches of the epochs [lo .. hi - 1], each epoch in full. *)
Definition whole_epochs (cfg : Config) (lo hi : Z) : list (Z * Z) :=
  concat (map (fun e => map (pair e) (range 0 (Z.of_nat (len_dataloader cfg))))
              (range lo hi)).

(** ** Data preparation (lines 327-376)

    The pure parts of [_load_and_preprocess_data]: the choice of the text
    column, the choice of the sequence length, and [group_texts].  A dict
    is a list of key-value pairs in insertion order. *)

Module DataPrep.

Import String.

Inductive py_error : Type :=
| IndexError          (* list index out of range *)
| KeyError            (* missing dict key *)
| DivisionByZero      (* integer division or modulo by zero *)
| RangeStepZero.      (* ValueError: range() arg 3 must not be zero *)

Inductive outcome (A : Type) : Type :=
| Done (a : A)
| Fails (e : py_error).
Arguments Done {A} a.
Arguments Fails {A} e.

Definition key_text : string := "text".
Definition key_input_ids : string := "input_ids".
Definition key_labels : string := "labels".

(** Line 333: ["text" if "text" in column_names else column_names[0]]. *)
Definition text_column_name (column_names : list string) : outcome string :=
  if existsb (String.eqb key_text) column_names then Done key_text
  else match column_names with
       | [] => Fails IndexError
       | c :: _ => Done c
       end.

(** Lines 347-349.  [args.seq_length] is [None] unless given; [x or y] takes
    [y] when [x] is [None] or [0]. *)
Definition choose_seq_length (arg : option Z)
    (model_max_length max_position_embeddings : Z) : Z :=
  let seq_length :=
    match arg with
    | Some v => if v =? 0 then model_max_length else v
    | None => model_max_length
    end in
  if seq_length >? max_position_embeddings
  then Z.min 1024 max_position_embeddings
  else seq_length.

(** [a // b] on Python integers: rounds down, and a zero divisor raises. *)
Definition py_floordiv (a b : Z) : outcome Z :=
  if b =? 0 then Fails DivisionByZero else Done (a / b).

(** [range(lo, hi, step)]. *)
Definition range_step (lo hi step : Z) : outcome (list Z) :=
  if step =? 0 then Fails RangeStepZero
  else
    let n := if 0 <? step then (hi - lo + step - 1) / step
             else (lo - hi - step - 1) / (- step) in
    Done (map (fun k => lo + step * Z.of_nat k) (seq 0 (Z.to_nat n))).

(** An index of a slice, brought into [0 .. len]. *)
Definition clamp_index (i len : Z) : Z :=
  if i <? 0 then Z.max (i + len) 0 else Z.min i len.

(** [t[a:b]]. *)
Definition py_slice {A} (a b : Z) (t : list A) : list A :=
  let len := Z.of_nat (List.length t) in
  let a' := clamp_index a len in
  let b' := clamp_index b len in
  firstn (Z.to_nat (b' - a')) (skipn (Z.to_nat a') t).

Definition dict (V : Type) : Type := list (string * V).

Fixpoint dict_get {V} (k : string) (d : dict V) : option V :=
  match d with
  | [] => None
  | (k', v) :: d' => if String.eqb k k' then Some v else dict_get k d'
  end.

(** [d[k] = v]: an existing key keeps its place, a new one goes last. *)
Fixpoint dict_set {V} (k : string) (v : V) (d : dict V) : dict V :=
  match d with
  | [] => [(k, v)]
  | (k', v') :: d' =>
      if String.eqb k k' then (k, v) :: d' else (k', v') :: dict_set k v d'
  end.

Definition keys {V} (d : dict V) : list string := map fst d.

(** Line 354: every column flattened, [list(chain( *examples[k]))]. *)
Definition concatenate (examples : dict (list (list Z))) : dict (list Z) :=
  map (fun kv => (fst kv, List.concat (snd kv))) examples.

(** Lines 355-359: the length that is cut into chunks. *)
Definition cut_length (total_length seq_length : Z) : outcome Z :=
  if total_length >? seq_length then
    match py_floordiv total_length seq_length with
    | Done q => Done (q * seq_length)
    | Fails e => Fails e
    end
  else Done total_length.

(** Line 362: [[t[i : i + seq_length] for i in range(0, total_length, seq_length)]]. *)
Definition chunks (seq_length : Z) (starts : list Z) (t : list Z) : list (list Z) :=
  map (fun i => py_slice i (i + seq_length) t) starts.

(** [group_texts] (lines 352-366). *)
Definition group_texts (seq_length : Z) (examples : dict (list (list Z)))
    : outcome (dict (list (list Z))) :=
  let concatenated_examples := concatenate examples in
  match concatenated_examples with
  | [] => Fails IndexError
  | (_, first) :: _ =>
      match cut_length (Z.of_nat (List.length first)) seq_length with
      | Fails e => Fails e
      | Done total_length =>
          match range_step 0 total_length seq_length with
          | Fails e => Fails e
          | Done starts =>
              let result :=
                map (fun kt => (fst kt, chunks seq_length starts (snd kt)))
                    concatenated_examples in
              match dict_get key_input_ids result with
              | None => Fails KeyError
              | Some ids => Done (dict_set key_labels ids result)
              end
          end
      end
  end.

(** The chunks of one flattened column, for a positive chunk length [s] and
    a first column of [L] tokens. *)
Definition chunk_count (L s : Z) : nat :=
  Z.to_nat (((if L >? s then (L / s) * s else L) + s - 1) / s).

Definition chunkify (L s : Z) (t : list Z) : list (list Z) :=
  map (fun k => firstn (Z.to_nat s) (skipn (Z.to_nat s * k) t))
      (seq 0 (chunk_count L s)).

(** Every column of the batch flattens to [len] tokens, as the columns of a
    tokenizer's output do. *)
Definition uniform (len : Z) (examples : dict (list (list Z))) : Prop :=
  forall k col, In (k, col) examples ->
    Z.of_nat (List.length (List.concat col)) = len.

End DataPrep.

(** ** rank0_first: progress *)

Module Rank0FirstRun.

Import Rank0First.

Definition is_raise (a : action) : bool :=
  match a with BodyRaises _ | BarrierRaises _ => true | _ => false end.

(** The process has left the [with] statement with an exception. *)
Definition crashed (p : proc) : bool :=
  match at_pc p with Crashed | BarrierFailed => true | _ => false end.

Definition has_left (p : proc) : bool :=
  match at_pc p with Left => true | _ => false end.

(** The moves a process that does not crash still has to make to get past
    the block, counted along the longer of the two paths. *)
Definition moves_left (p : proc) : nat :=
  match at_pc p with
  | AtStart => 6
  | Yield1 => 5
  | AtBarrier1 => 4
  | AfterBarrier1 => 3
  | Yield2 => 2
  | AtBarrier2 => 1
  | Left | Crashed | BarrierFailed => 0
  end.

Definition total_moves_left (c : config) : nat :=
  list_sum (map moves_left c).

End Rank0FirstRun.

(** ** Saving a checkpoint (lines 308-322)

    What the three writes of a save do to the experiment directory.  The
    sharded save (external) replaces the shard of the saving rank and leaves
    the shards of the other ranks alone; the two files of the leader are
    written after it, the scheduler first. *)







(** ** Vocabulary of the run invariants *)

(** A batch index that is fetched is not above [epoch_step]; one that is
    handed to the model is [epoch_step] itself. *)
Definition batch_ok (cfg : Config) (ev : event) : Prop :=
  match ev with
  | EvFetch st i =>
      0 <= i < Z.of_nat (len_dataloader cfg) /\ i <= epoch_step st
  | EvExec st i =>
      0 <= i < Z.of_nat (len_dataloader cfg) /\ i = epoch_step st
  | _ => True
  end.

(** What a log record shows. *)
Definition log_ok (cfg : Config) (ev : event) : Prop :=
  match ev with
  | EvLog st info =>
      log_freq cfg <> 0
      /\ global_step st mod log_freq cfg = 0
      /\ 1 <= epoch_step st <= Z.of_nat (len_dataloader cfg)
      /\ info_epoch info = epoch st
      /\ info_num_batches_remaining info
         = Z.of_nat (len_dataloader cfg) - epoch_step st + 1
  | _ => True
  end.

(** What a saved checkpoint shows. *)
Definition ckpt_ok (cfg : Config) (ev : event) : Prop :=
  match ev with
  | EvCkpt st leader =>
      log_freq cfg <> 0 /\ ckpt_freq cfg <> 0
      /\ global_step st mod ckpt_freq cfg = 0
      /\ 1 <= epoch_step st <= Z.of_nat (len_dataloader cfg)
      /\ leader = Nat.eqb (rank cfg) 0
  | _ => True
  end.

Definition event_ok (cfg : Config) (ev : event) : Prop :=
  batch_ok cfg ev /\ log_ok cfg ev /\ ckpt_ok cfg ev.

(** [c], started in a world where [P] holds, shows only events that satisfy
    [Ev], and it returns only in a world where [Q] holds. *)
Definition triple {A} (P : World -> Prop) (c : M A) (Ev : event -> Prop)
    (Q : World -> Prop) : Prop :=
  forall w, P w ->
    Forall Ev (events (c w))
    /\ (forall a, res (c w) = Ok a -> Q (world (c w))).

(** Iteration [i] of the inner loop starts with [epoch_step] between [i] and
    the number of batches. *)
Definition before_batch (cfg : Config) (i : Z) (w : World) : Prop :=
  i <= epoch_step (state w) <= Z.of_nat (len_dataloader cfg).

(** The number of times a trace shows the counters advanced (lines
    278-280). *)
Definition updates (tr : list event) : Z := Z.of_nat (length (trajectory tr)).

(** [global_step] is [g] when the trace begins, and it moves where the
    counters are advanced and nowhere else. *)
Fixpoint counted (g : Z) (tr : list event) : Prop :=
  match tr with
  | [] => True
  | EvCounters st :: tr' => global_step st = g + 1 /\ counted (g + 1) tr'
  | ev :: tr' => global_step (ev_state ev) = g /\ counted g tr'
  end.

Definition counts_updates {A} (c : M A) : Prop :=
  forall w,
    counted (global_step (state w)) (events (c w))
    /\ global_step (state (world (c w)))
       = global_step (state w) + updates (events (c w)).

(** A computation that does not get past an optimizer update: it shows
    at most one, saves no checkpoint, logs nothing when [log_freq] is 0, and
    when it shows an update it ends in a [ZeroDivisionError]. *)
Definition stops_at_update (cfg : Config) {A} (c : M A) : Prop :=
  forall w,
    (length (trajectory (events (c w))) <= 1)%nat
    /\ ckpts (events (c w)) = []
    /\ (log_freq cfg = 0 -> first_log (events (c w)) = None)
    /\ (trajectory (events (c w)) <> [] ->
        res (c w) = Raise ZeroDivisionError).

(** The update stage of batch [i] of epoch [e] (lines 268-271:
    [optimizer.step()], [lr_scheduler.step()], [optimizer.zero_grad()]) has
    run to its end once the batch has reached the model: every call between
    the first barrier and the last one returns. *)
Definition update_done (env : Env) (ei : Z * Z) : bool :=
  match forward env (fst ei) (snd ei), barrier env (fst ei) (snd ei) 1,
        backward env (fst ei) (snd ei), barrier env (fst ei) (snd ei) 2,
        update env (fst ei) (snd ei) with
  | Ok _, None, None, None, None => true
  | _, _, _, _, _ => false
  end.

(** The number of update stages that have run to their end in a run with
    the trace [tr]: a batch reaches the model exactly when the first barrier
    of its step has returned, and the oracles say how the step goes on. *)
Definition optimizer_updates (env : Env) (tr : list event) : nat :=
  length (filter (update_done env) (processed tr)).

(** How the number of completed update stages and the number of advances
    of the counters compare after a computation: they are equal when it
    returns, and otherwise the counters are at most one behind, which they
    are only when the barrier after an update has raised. *)
Definition lags_by_one (env : Env) {A} (c : M A) : Prop :=
  forall w,
    let o := c w in
    let n := optimizer_updates env (events o) in
    let u := length (trajectory (events o)) in
    (n = u \/ n = S u)
    /\ (forall a, res o = Ok a -> n = u)
    /\ (n = S u ->
        exists e i x,
          In (e, i) (processed (events o))
          /\ update_done env (e, i) = true
          /\ barrier env e i 3 = Some x /\ res o = Raise x).

(** The samples the compute stages of a step add to a timer. *)
Definition samples_per_step (k : stage) : nat :=
  match k with
  | Data => 0
  | Forward | Backward | Update => 1
  | Waiting => 4
  end.

(** ** Vocabulary of the epoch boundaries *)







(** * Properties *)

(** ** Timer *)

Lemma fold_left_Qplus_acc (xs : list Q) (a : Q) :
  (fold_left Qplus xs a == a + fold_right Qplus 0 xs)%Q.
Proof.
  revert a; induction xs as [|x xs IH]; intros a; simpl.
  - ring.
  - rewrite IH. ring.
Qed.

Lemma py_sum_fold_right (xs : list Q) :
  (py_sum xs == fold_right Qplus 0 xs)%Q.
Proof.
  unfold py_sum. rewrite fold_left_Qplus_acc. ring.
Qed.

Lemma sum_to_ms (xs : list Q) :
  (fold_right Qplus 0 (map to_ms xs) == 1000 * fold_right Qplus 0 xs)%Q.
Proof.
  induction xs as [|x xs IH]; simpl.
  - ring.
  - rewrite IH. unfold to_ms. ring.
Qed.

Lemma avg_elapsed_ms_nonempty (self : LocalTimer.t) :
  LocalTimer.measurements self <> [] ->
  exists a, LocalTimer.avg_elapsed_ms self = Ok a.
Proof.
  unfold LocalTimer.avg_elapsed_ms.
  destruct (LocalTimer.measurements self); [congruence|].
  intros _. simpl length. eexists. reflexivity.
Qed.

(** In exact arithmetic, with [n >= 1] samples in the list
    [avg_elapsed_ms] returns [1000 * (sum / n)], which is the arithmetic
    mean of the samples converted to milliseconds; with no sample the
    division raises; and [reset] leaves no sample. *)
Lemma avg_elapsed_ms_exact_mean (self : LocalTimer.t) :
  let ms := LocalTimer.measurements self in
  ((1 <= length ms)%nat ->
     exists a,
       LocalTimer.avg_elapsed_ms self = Ok a
       /\ a = (1000 * (py_sum ms / inject_Z (Z.of_nat (length ms))))%Q
       /\ (a == mean_ms ms)%Q)
  /\ (ms = [] -> LocalTimer.avg_elapsed_ms self = Raise ZeroDivisionError)
  /\ LocalTimer.avg_elapsed_ms (LocalTimer.reset self) = Raise ZeroDivisionError.
Proof.
  intros ms. repeat split.
  - intros Hn. unfold LocalTimer.avg_elapsed_ms. fold ms.
    destruct (length ms) as [|n] eqn:Hlen; [lia|].
    eexists. split; [reflexivity|]. split; [reflexivity|].
    unfold mean_ms, arithmetic_mean.
    rewrite length_map, Hlen, sum_to_ms, py_sum_fold_right.
    unfold Qdiv. ring.
  - intros Hnil. unfold LocalTimer.avg_elapsed_ms. fold ms. rewrite Hnil.
    reflexivity.
Qed.

(** *** In double precision *)

Module LocalTimer64Facts.

Import Float64 LocalTimer64.

Lemma exact2_true qop x y z :
  exact2 qop x y z = true ->
  exists a b c,
    value x = Some a /\ value y = Some b /\ value z = Some c
    /\ (c == qop a b)%Q.
Proof.
  unfold exact2.
  destruct (value x) as [a|], (value y) as [b|], (value z) as [c|];
    try discriminate.
  intros H. apply Qeq_bool_iff in H. now exists a, b, c.
Qed.

Lemma values_length xs vs : values xs = Some vs -> length vs = length xs.
Proof.
  revert vs. induction xs as [|x xs IH]; intros vs H; cbn in H.
  - now injection H as <-.
  - destruct (value x) as [q|]; [|discriminate].
    destruct (values xs) as [qs|]; [|discriminate].
    injection H as <-. cbn. now rewrite (IH qs eq_refl).
Qed.

(** A sum without rounding is the sum of the numbers. *)
Lemma sum_exact_value xs : forall acc qa,
  value acc = Some qa -> sum_exact acc xs = true ->
  exists vs total,
    values xs = Some vs
    /\ value (fold_left add xs acc) = Some total
    /\ (total == qa + fold_right Qplus 0 vs)%Q.
Proof.
  induction xs as [|x xs IH]; intros acc qa Hacc Hs; cbn in Hs |- *.
  - exists [], qa. split; [reflexivity|]. split; [exact Hacc|]. cbn. ring.
  - apply andb_prop in Hs as [Hx Hrest].
    apply exact2_true in Hx as (a & b & c & Ha & Hb & Hc & Heq).
    rewrite Hacc in Ha. injection Ha as <-.
    destruct (IH (add acc x) c Hc Hrest) as (vs & total & Hvs & Ht & Htot).
    exists (b :: vs), total. rewrite Hb, Hvs.
    split; [reflexivity|]. split; [exact Ht|].
    cbn [fold_right]. rewrite Htot, Heq. ring.
Qed.

(** C7, as stated, fails: on the samples 1.0, 0.0, 0.0 the query returns
    the float 333.3333333333333 (5864062014805333 * 2^-44), which is not
    the mean of 1000, 0 and 0 milliseconds: the quotient 1.0 / 3 and its
    product with 1000 are rounded. *)
Lemma avg_elapsed_ms_rounds :
  let m := [of_int 1; of_int 0; of_int 0] in
  let r := S754_finite false 5864062014805333 (-44) in
  avg_elapsed_ms (mk m None) = Ok r
  /\ exists vs q,
       values m = Some vs /\ Forall2 Qeq vs [1; 0; 0]%Q
       /\ value r = Some q
       /\ ~ (q == mean_ms vs)%Q /\ ~ (q == 1000 / 3)%Q.
Proof.
  intros m r. split; [vm_compute; reflexivity|].
  eexists _, _. split; [reflexivity|].
  split; [repeat constructor|].
  split; [reflexivity|].
  split; apply Qeq_bool_neq; vm_compute; reflexivity.
Qed.

(** C7, amended.  With [n >= 1] samples in the list, [avg_elapsed_ms]
    returns the float that the double-precision evaluation of
    [1000 * (sum / n)] gives; where none of its operations rounds, that
    float stands for exactly the arithmetic mean of the samples converted
    to milliseconds.  With no sample the division raises
    [ZeroDivisionError], so there is no result, and [reset] leaves no
    sample. *)
Theorem avg_elapsed_ms_is_mean (self : t) :
  let m := measurements self in
  ((1 <= length m)%nat ->
     exists r,
       avg_elapsed_ms self = Ok r
       /\ r = mul (of_int 1000)
                  (div (fold_left add m (of_int 0))
                       (of_int (Z.of_nat (length m))))
       /\ (unrounded m = true ->
           exists q vs,
             value r = Some q /\ values m = Some vs
             /\ (q == mean_ms vs)%Q))
  /\ (m = [] -> avg_elapsed_ms self = Raise ZeroDivisionError)
  /\ avg_elapsed_ms (reset self) = Raise ZeroDivisionError.
Proof.
  intros m. split; [|split].
  - intros Hn. unfold avg_elapsed_ms. fold m.
    destruct m as [|x m'] eqn:Hm; [cbn in Hn; lia|]. rewrite <- Hm.
    eexists. split; [reflexivity|]. split; [reflexivity|].
    unfold unrounded. intros Hu.
    apply andb_prop in Hu as [Hu Hmul]. apply andb_prop in Hu as [Hu Hdiv].
    apply andb_prop in Hu as [Hsum Hlen].
    destruct (sum_exact_value m (of_int 0) 0%Q eq_refl Hsum)
      as (vs & total & Hvs & Ht & Htot).
    apply exact2_true in Hdiv as (a & b & c & Ha & Hb & Hc & Hceq).
    apply exact2_true in Hmul as (k & c' & q & Hk & Hc' & Hq & Hqeq).
    rewrite Ht in Ha. injection Ha as <-.
    rewrite Hc in Hc'. injection Hc' as <-.
    unfold exact_int in Hlen. rewrite Hb in Hlen.
    apply Qeq_bool_iff in Hlen.
    assert (Hk1000 : (k == 1000)%Q).
    { vm_compute in Hk. injection Hk as <-. reflexivity. }
    exists q, vs. split; [exact Hq|]. split; [exact Hvs|].
    rewrite Hqeq, Hceq, Htot, Hlen, Hk1000.
    unfold mean_ms, arithmetic_mean.
    rewrite length_map, (values_length m vs Hvs), sum_to_ms.
    unfold Qdiv. ring.
  - intros Hnil. unfold avg_elapsed_ms. fold m. now rewrite Hnil.
  - reflexivity.
Qed.

End LocalTimer64Facts.

Lemma avg_elapsed_ms_is_mean_witness :
  let m := [Float64.div (Float64.of_int 3) (Float64.of_int 2);
            Float64.div (Float64.of_int 1) (Float64.of_int 2)] in
  exists r q,
    LocalTimer64.avg_elapsed_ms (LocalTimer64.mk m None) = Ok r
    /\ Float64.value r = Some q /\ (q == 1000)%Q.
Proof.
  intros m.
  destruct (LocalTimer64Facts.avg_elapsed_ms_is_mean (LocalTimer64.mk m None))
    as [H _].
  destruct (H ltac:(cbn; lia)) as (r & Hr & _ & Hmean).
  destruct (Hmean ltac:(vm_compute; reflexivity)) as (q & vs & Hq & Hvs & Heq).
  exists r, q. split; [exact Hr|]. split; [exact Hq|].
  rewrite Heq. vm_compute in Hvs. injection Hvs as <-. reflexivity.
Defined.

(** ** The monad *)

Lemma bind_ok {A B} (c : M A) (k : A -> M B) w a :
  res (c w) = Ok a ->
  bind c k w = mkOut (res (k a (world (c w)))) (world (k a (world (c w))))
                     (events (c w) ++ events (k a (world (c w)))).
Proof. intros H. unfold bind. rewrite H. reflexivity. Qed.

Lemma bind_raise {A B} (c : M A) (k : A -> M B) w e :
  res (c w) = Raise e ->
  bind c k w = mkOut (Raise e) (world (c w)) (events (c w)).
Proof. intros H. unfold bind. rewrite H. reflexivity. Qed.

Lemma out_eta {A} (o : Out A) : mkOut (res o) (world o) (events o) = o.
Proof. destruct o; reflexivity. Qed.

Lemma bind_ret {A B} (a : A) (k : A -> M B) w : bind (ret a) k w = k a w.
Proof. unfold bind, ret. cbn [res world events app]. apply out_eta. Qed.

Lemma bind_get_state {B} (k : TrainingState -> M B) w :
  bind get_state k w = k (state w) w.
Proof. unfold bind, get_state. cbn [res world events app]. apply out_eta. Qed.

Lemma bind_set_state {B} st (k : unit -> M B) w :
  bind (set_state st) k w = k tt (mkWorld st (timers w) (clock w)).
Proof. unfold bind, set_state. cbn [res world events app]. apply out_eta. Qed.

Lemma bind_emit {B} f (k : unit -> M B) w :
  bind (emit f) k w =
  mkOut (res (k tt w)) (world (k tt w)) (f (state w) :: events (k tt w)).
Proof. reflexivity. Qed.

Lemma bind_emit_prepend {B} f (k : unit -> M B) w :
  bind (emit f) k w = prepend [f (state w)] (k tt w).
Proof. reflexivity. Qed.

Lemma bind_out {A B} (c : M A) (k : A -> M B) w a w' evs :
  c w = mkOut (Ok a) w' evs -> bind c k w = prepend evs (k a w').
Proof. intros H. unfold bind. rewrite H. reflexivity. Qed.

Lemma bind_out_raise {A B} (c : M A) (k : A -> M B) w e w' evs :
  c w = mkOut (Raise e) w' evs -> bind c k w = mkOut (Raise e) w' evs.
Proof. intros H. unfold bind. rewrite H. reflexivity. Qed.

Lemma prepend_nil {A} (o : Out A) : prepend [] o = o.
Proof. unfold prepend. cbn [app]. apply out_eta. Qed.

Lemma prepend_prepend {A} evs1 evs2 (o : Out A) :
  prepend evs1 (prepend evs2 o) = prepend (evs1 ++ evs2) o.
Proof. unfold prepend. cbn [res world events]. now rewrite app_assoc. Qed.

Lemma bind_lift_ok {A B} (a : A) (k : A -> M B) w :
  bind (lift (Ok a)) k w = k a w.
Proof. unfold bind, lift. cbn [res world events app]. apply out_eta. Qed.

Lemma bind_lift_raise {A B} e (k : A -> M B) w :
  bind (lift (Raise e)) k w = mkOut (Raise e) w [].
Proof. reflexivity. Qed.

Lemma bind_assoc {A B C} (c : M A) (k : A -> M B) (h : B -> M C) w :
  bind (bind c k) h w = bind c (fun a => bind (k a) h) w.
Proof.
  unfold bind. destruct (res (c w)) as [a|e]; cbn [res world events].
  - destruct (res (k a (world (c w)))); cbn [res world events];
      rewrite ?app_assoc; reflexivity.
  - reflexivity.
Qed.

Lemma bind_ext {A B} (c : M A) (k k' : A -> M B) w :
  (forall a w', k a w' = k' a w') -> bind c k w = bind c k' w.
Proof.
  intros H. unfold bind. destruct (res (c w)); [|reflexivity].
  now rewrite H.
Qed.

Lemma for_each_app {A} (xs ys : list A) (body : A -> M unit) w :
  for_each (xs ++ ys) body w = bind (for_each xs body) (fun _ => for_each ys body) w.
Proof.
  revert w; induction xs as [|x xs IH]; intros w; cbn [for_each app].
  - now rewrite bind_ret.
  - rewrite bind_assoc. apply bind_ext. intros _ w'. apply IH.
Qed.

Section TimerRegion.

Variable env : Env.

Lemma entered_start_time k w :
  LocalTimer.start_time (get_timer k (timers (entered env k w)))
  = Some (time_at env (clock w)).
Proof. destruct k; reflexivity. Qed.

Lemma entered_measurements k k' w :
  LocalTimer.measurements (get_timer k' (timers (entered env k w)))
  = LocalTimer.measurements (get_timer k' (timers w)).
Proof. destruct k, k'; reflexivity. Qed.

Lemma entered_state k w : state (entered env k w) = state w.
Proof. reflexivity. Qed.

(** How a [with] block ends, from how its body ends. *)
Lemma with_timer_unfold {A} k (body : M A) w :
  with_timer env k body w =
  let ob := body (entered env k w) in
  match res ob with
  | Ok a =>
      let ox := timer_exit env k None (world ob) in
      mkOut (match res ox with Ok _ => Ok a | Raise e => Raise e end)
            (world ox) (events ob)
  | Raise e =>
      mkOut (Raise e) (world (timer_exit env k (Some e) (world ob))) (events ob)
  end.
Proof.
  unfold with_timer, bind, attempt, entered, timer_enter. simpl.
  destruct (res (body _)) as [a|e] eqn:Hb; simpl.
  - unfold timer_exit. simpl.
    destruct (LocalTimer.start_time _); simpl; rewrite ?app_nil_r; reflexivity.
  - rewrite ?app_nil_r. reflexivity.
Qed.

End TimerRegion.

Lemma get_set_timer_same k v ts : get_timer k (set_timer k v ts) = v.
Proof. destruct k; reflexivity. Qed.

Lemma get_set_timer_other k k' v ts :
  k <> k' -> get_timer k' (set_timer k v ts) = get_timer k' ts.
Proof. destruct k, k'; intros H; try reflexivity; congruence. Qed.

Section TimerExit.

Variable env : Env.

Lemma timer_exit_normal k w s :
  LocalTimer.start_time (get_timer k (timers w)) = Some s ->
  timer_exit env k None w =
  mkOut (Ok tt)
    (mkWorld (state w)
       (set_timer k
          (LocalTimer.mk
             (LocalTimer.measurements (get_timer k (timers w))
              ++ [(time_at env (clock w) - s)%Q]) None)
          (timers w))
       (S (clock w))) [].
Proof.
  intros Hs. unfold timer_exit, LocalTimer.exit. rewrite Hs. reflexivity.
Qed.

Lemma timer_exit_abnormal k w e :
  timer_exit env k (Some e) w =
  mkOut (Ok tt)
    (mkWorld (state w)
       (set_timer k
          (LocalTimer.mk (LocalTimer.measurements (get_timer k (timers w))) None)
          (timers w))
       (clock w)) [].
Proof. reflexivity. Qed.

(** C6.  A [with timers[k]] block whose body leaves the timers alone: when
    the body raises, the block raises the same exception and the list of
    measurements of the timer is as it was; when the body returns, the
    block returns its value and the list has grown by exactly one sample,
    the time between the two clock readings. *)
Theorem with_timer_samples {A} (k : stage) (body : M A) (w : World) :
  (forall w', timers (world (body w')) = timers w') ->
  let ob := body (entered env k w) in
  let o := with_timer env k body w in
  let before := LocalTimer.measurements (get_timer k (timers w)) in
  let after := LocalTimer.measurements (get_timer k (timers (world o))) in
  match res ob with
  | Raise e => res o = Raise e /\ after = before
  | Ok a =>
      res o = Ok a
      /\ after = before ++ [(time_at env (clock (world ob))
                             - time_at env (clock w))%Q]
  end.
Proof.
  intros Hframe. cbv zeta. rewrite with_timer_unfold. cbv zeta.
  pose proof (Hframe (entered env k w)) as Hts.
  destruct (body (entered env k w)) as [r wb evs].
  cbn [res world events] in *.
  destruct r as [a|e]; cbn [res world].
  - rewrite (timer_exit_normal k wb (time_at env (clock w))).
    + cbn [world res timers]. rewrite get_set_timer_same.
      cbn [LocalTimer.measurements]. rewrite Hts.
      rewrite entered_measurements. split; reflexivity.
    + rewrite Hts. apply entered_start_time.
  - rewrite timer_exit_abnormal. cbn [world res timers].
    rewrite get_set_timer_same. cbn [LocalTimer.measurements].
    rewrite Hts, entered_measurements. split; reflexivity.
Qed.

End TimerExit.

Lemma with_timer_samples_witness :
  let env := mkEnv (fun n => inject_Z (Z.of_nat n)) (fun _ _ => None)
                   (fun _ _ _ => None) (fun _ _ => Ok 1%Q) (fun _ _ => None)
                   (fun _ _ => None) in
  let w := init_world zero_state in
  LocalTimer.measurements
    (get_timer Forward (timers (world (with_timer env Forward
       (ext (Some (ExternalError 1))) w)))) = []
  /\ length (LocalTimer.measurements
       (get_timer Forward (timers (world (with_timer env Forward
          (ext None) w))))) = 1%nat.
Proof.
  intros env w. split.
  - pose proof (with_timer_samples env Forward (ext (Some (ExternalError 1))) w
                  (fun w' => eq_refl)) as H.
    simpl in H. exact (proj2 H).
  - pose proof (with_timer_samples env Forward (ext None) w
                  (fun w' => eq_refl)) as H.
    simpl in H. exact (f_equal (@length Q) (proj2 H)).
Defined.

(** ** Stages of a step *)

Section Stages.

Variable cfg : Config.
Variable env : Env.

(** A [with] block around a body that only reads the world. *)
Lemma with_timer_pure {A} k (body : M A) w (r : result A) evs :
  body (entered env k w) = mkOut r (entered env k w) evs ->
  with_timer env k body w =
  match r with
  | Ok a => mkOut (Ok a) (timed env k w) evs
  | Raise e => mkOut (Raise e) (aborted k w) evs
  end.
Proof.
  intros Hb. rewrite with_timer_unfold. cbv zeta. rewrite Hb.
  cbn [res world events]. destruct r as [a|e].
  - rewrite (timer_exit_normal env k _ (time_at env (clock w)))
      by apply entered_start_time.
    cbn [res world]. unfold timed. f_equal.
    destruct w as [st ts clk], k; reflexivity.
  - rewrite timer_exit_abnormal. cbn [world]. unfold aborted. f_equal.
    destruct w as [st ts clk], k; reflexivity.
Qed.

Lemma with_timer_ext k (o : option exn) w :
  with_timer env k (ext o) w =
  match o with
  | None => mkOut (Ok tt) (timed env k w) []
  | Some e => mkOut (Raise e) (aborted k w) []
  end.
Proof.
  destruct o as [e|].
  - apply (with_timer_pure k (ext (Some e)) w (Raise e) []). reflexivity.
  - apply (with_timer_pure k (ext None) w (Ok tt) []). reflexivity.
Qed.

Lemma data_stage_run i w :
  data_stage env i w =
  match fetch env (epoch (state w)) i with
  | None => mkOut (Ok tt) (timed env Data w) [EvFetch (state w) i]
  | Some e => mkOut (Raise e) (aborted Data w) [EvFetch (state w) i]
  end.
Proof.
  unfold data_stage. rewrite (bind_ok _ _ w (state w)) by reflexivity.
  cbn [get_state res world events app].
  rewrite (with_timer_pure Data _ w
             (match fetch env (epoch (state w)) i with
              | None => Ok tt | Some e => Raise e end)
             [EvFetch (state w) i]).
  - destruct (fetch env (epoch (state w)) i); rewrite out_eta; reflexivity.
  - unfold bind, emit, ext. cbn [res world events].
    destruct (fetch env (epoch (state w)) i); reflexivity.
Qed.

Lemma timed_state k w : state (timed env k w) = state w.
Proof. reflexivity. Qed.

Lemma aborted_state k w : state (aborted k w) = state w.
Proof. reflexivity. Qed.

Lemma timed_other k k' w :
  k <> k' -> get_timer k' (timers (timed env k w)) = get_timer k' (timers w).
Proof. intros H. unfold timed. cbn [timers]. now apply get_set_timer_other. Qed.

Lemma aborted_other k k' w :
  k <> k' -> get_timer k' (timers (aborted k w)) = get_timer k' (timers w).
Proof. intros H. unfold aborted. cbn [timers]. now apply get_set_timer_other. Qed.

Lemma timed_same k w :
  LocalTimer.measurements (get_timer k (timers (timed env k w)))
  = LocalTimer.measurements (get_timer k (timers w))
    ++ [(time_at env (S (clock w)) - time_at env (clock w))%Q].
Proof. unfold timed. cbn [timers]. now rewrite get_set_timer_same. Qed.

Lemma aborted_same k w :
  LocalTimer.measurements (get_timer k (timers (aborted k w)))
  = LocalTimer.measurements (get_timer k (timers w)).
Proof. unfold aborted. cbn [timers]. now rewrite get_set_timer_same. Qed.

(** What a skipped iteration is: the data stage and nothing else. *)
Lemma step_body_skipped i w :
  i < epoch_step (state w) ->
  step_body cfg env i w = data_stage env i w.
Proof.
  intros Hlt. unfold step_body. unfold bind at 1.
  rewrite data_stage_run.
  destruct (fetch env (epoch (state w)) i) as [e|]; cbn [res world events].
  - reflexivity.
  - rewrite bind_get_state, timed_state.
    apply Z.ltb_lt in Hlt. rewrite Hlt. cbn [ret res world events].
    rewrite app_nil_r. reflexivity.
Qed.

(** C5.  An iteration whose batch index is below [epoch_step] runs the data
    stage and nothing after it: the batch is fetched, no other stage event
    occurs, the whole of [state] (so [global_step], [epoch_step] and
    [running_loss]) is as before, and no timer but the data timer is
    touched.  The iteration ends normally unless the fetch itself raises. *)
Theorem skipped_step_frame (i : Z) (w : World) :
  i < epoch_step (state w) ->
  let o := step_body cfg env i w in
  state (world o) = state w
  /\ events o = [EvFetch (state w) i]
  /\ (forall k, k <> Data ->
        get_timer k (timers (world o)) = get_timer k (timers w))
  /\ res o = match fetch env (epoch (state w)) i with
             | None => Ok tt
             | Some e => Raise e
             end.
Proof.
  intros Hlt o. subst o. rewrite (step_body_skipped i w Hlt), data_stage_run.
  destruct (fetch env (epoch (state w)) i) as [e|]; cbn [res world events].
  - repeat split. intros k Hk. apply aborted_other. congruence.
  - repeat split. intros k Hk. apply timed_other. congruence.
Qed.

End Stages.

Lemma skipped_step_frame_witness :
  let env := mkEnv (fun n => inject_Z (Z.of_nat n)) (fun _ _ => None)
                   (fun _ _ _ => None) (fun _ _ => Ok 1%Q) (fun _ _ => None)
                   (fun _ _ => None) in
  let cfg := mkConfig 1 100 5 10 0 in
  let st := mkState 0 5 5 (7#2) in
  state (world (step_body cfg env 3 (init_world st))) = st.
Proof.
  intros env cfg st.
  exact (proj1 (skipped_step_frame cfg env 3 (init_world st) eq_refl)).
Defined.

(** ** The resume attempt *)

(** C8.  With no checkpoint record in the experiment directory, the resume
    attempt returns the zero state and [resumed = False], and the model,
    optimizer and scheduler are the ones passed in. *)
Theorem resume_without_record (r : nat) (dir : ExpDir) (eng : Engine) :
  record_absent dir = true ->
  attempt_resume r dir eng = Ok (zero_state, false, eng)
  /\ zero_state = mkState 0 0 0 0.
Proof.
  unfold record_absent, attempt_resume. intros H.
  destruct (state_json dir) as [doc|]; [discriminate|]. split; reflexivity.
Qed.

Lemma resume_without_record_witness :
  attempt_resume 3 (mkDir None None []) (mkEngine 5 6 7)
  = Ok (zero_state, false, mkEngine 5 6 7).
Proof.
  exact (proj1 (resume_without_record 3 (mkDir None None []) (mkEngine 5 6 7)
                  eq_refl)).
Defined.

(** C3, as stated, fails: with the shard of rank 0 written and nothing else
    (a save that stopped after the first shard), the record is partial for a
    group of two, and both ranks get the zero state back instead of an
    error, also when the load is taken as the collective call it is. *)
Lemma partial_record_accepted :
  let dir := mkDir None None [(0%nat, (11, 12))] in
  let eng := mkEngine 5 6 7 in
  record_partial 2 dir = true
  /\ attempt_resume 0 dir eng = Ok (zero_state, false, eng)
  /\ attempt_resume 1 dir eng = Ok (zero_state, false, eng)
  /\ attempt_resume_group 2 0 dir eng = Ok (zero_state, false, eng)
  /\ attempt_resume_group 2 1 dir eng = Ok (zero_state, false, eng).
Proof. repeat split. Qed.

(** Where every rank of the group finds its shard, or where there is no
    [state.json], the attempt in the group is the attempt of the rank on
    its own. *)
Lemma attempt_resume_group_alone (world_size r : nat) (dir : ExpDir)
    (eng : Engine) :
  state_json dir = None
  \/ forallb (shard_present dir) (seq 0 world_size) = true ->
  attempt_resume_group world_size r dir eng = attempt_resume r dir eng.
Proof.
  unfold attempt_resume_group, attempt_resume, dcp_load_group.
  intros [H|H]; rewrite H; reflexivity.
Qed.

Lemma shard_of_rank (world_size r : nat) (dir : ExpDir) :
  (r < world_size)%nat ->
  forallb (shard_present dir) (seq 0 world_size) = true ->
  exists m o, lookup_shard r (checkpoint dir) = Some (m, o).
Proof.
  intros Hr Hall. rewrite forallb_forall in Hall.
  assert (Hin : In r (seq 0 world_size)) by (apply in_seq; lia).
  specialize (Hall r Hin). unfold shard_present in Hall.
  destruct (lookup_shard r (checkpoint dir)) as [[m o]|]; [|discriminate].
  now exists m, o.
Qed.

(** C3, amended.  The gate is [state.json] alone.  With it, a record that
    misses any other part, the shards of any rank of the group or the
    scheduler file, makes the resume attempt raise on every rank, and a
    complete record is restored: the document of [state.json] with
    [resumed = True] and the engine loaded from the rank's shards and the
    scheduler file.  Without it the attempt returns the zero state and
    [resumed = False] and the run proceeds, whatever else is in the
    directory.  So a record that is present in part is fatal exactly when
    [state.json] is among the parts that are present. *)
Theorem resume_gate (world_size r : nat) (dir : ExpDir) (eng : Engine) :
  (r < world_size)%nat ->
  let attempt := attempt_resume_group world_size r dir eng in
  (state_json dir = None -> attempt = Ok (zero_state, false, eng))
  /\ (forall doc, state_json dir = Some doc ->
        record_complete world_size dir = false ->
        exists e, attempt = Raise e)
  /\ (forall doc, state_json dir = Some doc ->
        record_complete world_size dir = true ->
        exists m o s,
          lookup_shard r (checkpoint dir) = Some (m, o)
          /\ lr_scheduler_pt dir = Some s
          /\ attempt = Ok (doc, true, mkEngine m o s))
  /\ (record_partial world_size dir = true ->
      ((exists e, attempt = Raise e) <-> state_json dir <> None)).
Proof.
  intros Hr attempt. subst attempt.
  assert (Hmiss : forall doc, state_json dir = Some doc ->
            record_complete world_size dir = false ->
            exists e, attempt_resume_group world_size r dir eng = Raise e).
  { intros doc H Hc.
    unfold attempt_resume_group, dcp_load_group, dcp_load, torch_load.
    unfold record_complete in Hc. rewrite H in *. cbn [is_some andb] in Hc.
    destruct (forallb (shard_present dir) (seq 0 world_size)) eqn:Hall.
    - destruct (shard_of_rank world_size r dir Hr Hall) as (m & o & ->).
      destruct (lr_scheduler_pt dir); [discriminate|]. now eexists.
    - now eexists. }
  split; [|split; [exact Hmiss|split]].
  - intros H. unfold attempt_resume_group. now rewrite H.
  - intros doc H Hc.
    unfold attempt_resume_group, dcp_load_group, dcp_load, torch_load.
    unfold record_complete in Hc. rewrite H in *. cbn [is_some andb] in Hc.
    apply andb_prop in Hc as [Hl Hall]. rewrite Hall.
    destruct (shard_of_rank world_size r dir Hr Hall) as (m & o & Hs).
    destruct (lr_scheduler_pt dir) as [s|]; [|discriminate].
    exists m, o, s. rewrite Hs. auto.
  - intros Hp. unfold record_partial in Hp.
    apply andb_prop in Hp as [Hc _]. apply negb_true_iff in Hc.
    destruct (state_json dir) as [doc|] eqn:H.
    + split; [discriminate|]. intros _. exact (Hmiss doc eq_refl Hc).
    + split; [|congruence]. intros [e He].
      unfold attempt_resume_group in He. rewrite H in He. discriminate.
Qed.

Lemma resume_gate_witness :
  let st := mkState 0 5 5 (3#2) in
  let torn := mkDir (Some st) (Some 9) [(0%nat, (11, 12))] in
  let whole := mkDir (Some st) (Some 9) [(0%nat, (11, 12)); (1%nat, (13, 14))] in
  (exists e, attempt_resume_group 2 0 torn (mkEngine 5 6 7) = Raise e)
  /\ (exists e, attempt_resume_group 2 1 torn (mkEngine 5 6 7) = Raise e)
  /\ (exists m o s,
        attempt_resume_group 2 1 whole (mkEngine 5 6 7)
        = Ok (st, true, mkEngine m o s)).
Proof.
  intros st torn whole. split; [|split].
  - exact (proj1 (proj2 (resume_gate 2 0 torn (mkEngine 5 6 7) (le_S 1 1 (le_n 1))))
             st eq_refl eq_refl).
  - exact (proj1 (proj2 (resume_gate 2 1 torn (mkEngine 5 6 7) (le_n 2)))
             st eq_refl eq_refl).
  - destruct (proj1 (proj2 (proj2 (resume_gate 2 1 whole (mkEngine 5 6 7) (le_n 2))))
                st eq_refl eq_refl) as (m & o & s & _ & _ & H).
    exists m, o, s. exact H.
Defined.

(** ** rank0_first *)

Module Rank0FirstFacts.
Import Rank0First.

Lemma nth_error_update r p c r' q :
  nth_error (update r p c) r' = Some q ->
  (r' = r /\ q = p) \/ (r' <> r /\ nth_error c r' = Some q).
Proof.
  revert r r'. induction c as [|x c IH]; intros r r' H.
  - destruct r, r'; cbn in H; discriminate.
  - destruct r as [|r], r' as [|r']; cbn in H.
    + left. split; congruence.
    + right. split; [discriminate|exact H].
    + right. split; [discriminate|exact H].
    + destruct (IH _ _ H) as [[-> ->]|[Hne Hq]]; [left|right]; split;
        auto; congruence.
Qed.

Lemma nth_error_repeat {A} (x : A) n r y :
  nth_error (repeat x n) r = Some y -> y = x.
Proof.
  intros H. apply nth_error_In in H. now apply repeat_spec in H.
Qed.

Lemma nth_error_map_release c r q :
  nth_error (map release c) r = Some q ->
  exists p, nth_error c r = Some p /\ q = release p.
Proof.
  rewrite nth_error_map. destruct (nth_error c r) as [p|]; cbn; [|discriminate].
  intros [= <-]. now exists p.
Qed.

Lemma all_blocked c r p :
  forallb blocked c = true -> nth_error c r = Some p -> blocked p = true.
Proof.
  intros Hall Hp. rewrite forallb_forall in Hall.
  apply Hall. eapply nth_error_In; eauto.
Qed.

Ltac crush_proc :=
  match goal with
  | p : proc, r : nat |- _ =>
      destruct p as [[] []], r; cbn in *; try discriminate; auto
  end.

Lemma local_step_phase1 r p p' :
  phase1 r p = true -> local_step r p = Some p' -> phase1 r p' = true.
Proof.
  intros H1 H2. destruct p as [[] []], r; cbn in *; try discriminate;
    injection H2 as <-; reflexivity.
Qed.

Lemma local_step_phase2 r p p' :
  phase2 r p = true -> local_step r p = Some p' -> phase2 r p' = true.
Proof.
  intros H1 H2. destruct p as [[] []], r; cbn in *; try discriminate;
    injection H2 as <-; reflexivity.
Qed.

Lemma local_step_phase3 r p p' :
  phase3 r p = true -> local_step r p = Some p' -> phase3 r p' = true.
Proof. intros H1 H2. destruct p as [[] []]; cbn in *; discriminate. Qed.

Lemma raise_phase1 r p :
  phase1 r p = true -> in_body p = true ->
  phase1 r (mkProc Crashed (worked p)) = true.
Proof. intros H1 H2. crush_proc. Qed.

Lemma raise_phase2 r p :
  phase2 r p = true -> in_body p = true ->
  phase2 r (mkProc Crashed (worked p)) = true.
Proof. intros H1 H2. crush_proc. Qed.

Lemma raise_phase3 r p :
  phase3 r p = true -> in_body p = true -> False.
Proof. intros H1 H2. crush_proc. Qed.

Lemma barrier_raise_phase1 r p :
  phase1 r p = true -> blocked p = true ->
  phase1 r (mkProc BarrierFailed (worked p)) = true.
Proof. intros H1 H2. crush_proc. Qed.

Lemma barrier_raise_phase2 r p :
  phase2 r p = true -> blocked p = true ->
  phase2 r (mkProc BarrierFailed (worked p)) = true.
Proof. intros H1 H2. crush_proc. Qed.

Lemma release_phase1 r p :
  phase1 r p = true -> blocked p = true -> phase2 r (release p) = true.
Proof. intros H1 H2. crush_proc. Qed.

Lemma release_phase2 r p :
  phase2 r p = true -> blocked p = true -> phase3 r (release p) = true.
Proof. intros H1 H2. crush_proc. Qed.

Lemma release_phase3 r p :
  phase3 r p = true -> blocked p = true -> False.
Proof. intros H1 H2. crush_proc. Qed.

Lemma everywhere_update ph r p p' c :
  everywhere ph c -> nth_error c r = Some p ->
  (ph r p = true -> ph r p' = true) ->
  everywhere ph (update r p' c).
Proof.
  intros Hc Hp Hstep r' q Hq.
  destruct (nth_error_update _ _ _ _ _ Hq) as [[-> ->]|[_ Hq']].
  - apply Hstep. now apply Hc.
  - now apply Hc.
Qed.

Lemma inv_start n : inv (start n).
Proof.
  left. intros r p Hp. apply nth_error_repeat in Hp. now subst p.
Qed.

Lemma inv_do_action a c c' : inv c -> do_action a c = Some c' -> inv c'.
Proof.
  intros Hinv Ha. destruct a as [r|r|r|]; cbn in Ha.
  - destruct (nth_error c r) as [p|] eqn:Hp; [|discriminate].
    destruct (local_step r p) as [p'|] eqn:Hs; [|discriminate].
    injection Ha as <-.
    destruct Hinv as [H|[H|H]]; [left|right; left|right; right];
      (eapply everywhere_update; [exact H|exact Hp|]); intros Hph.
    + eapply local_step_phase1; eauto.
    + eapply local_step_phase2; eauto.
    + eapply local_step_phase3; eauto.
  - destruct (nth_error c r) as [p|] eqn:Hp; [|discriminate].
    destruct (in_body p) eqn:Hb; [|discriminate].
    injection Ha as <-.
    destruct Hinv as [H|[H|H]]; [left|right; left|right; right];
      (eapply everywhere_update; [exact H|exact Hp|]); intros Hph.
    + now apply raise_phase1.
    + now apply raise_phase2.
    + exfalso. eapply raise_phase3; eauto.
  - destruct (nth_error c r) as [p|] eqn:Hp; [|discriminate].
    destruct (blocked p) eqn:Hb; [|discriminate].
    injection Ha as <-.
    destruct Hinv as [H|[H|H]]; [left|right; left|right; right];
      (eapply everywhere_update; [exact H|exact Hp|]); intros Hph.
    + now apply barrier_raise_phase1.
    + now apply barrier_raise_phase2.
    + exfalso. eapply release_phase3; eauto.
  - destruct c as [|p0 c0] eqn:Hc; [discriminate|]. rewrite <- Hc in *.
    destruct (forallb blocked c) eqn:Hall; [|discriminate].
    injection Ha as <-.
    destruct Hinv as [H|[H|H]].
    + right; left. intros r q Hq.
      apply nth_error_map_release in Hq as [p [Hp ->]].
      apply release_phase1; [now apply H|eapply all_blocked; eauto].
    + right; right. intros r q Hq.
      apply nth_error_map_release in Hq as [p [Hp ->]].
      apply release_phase2; [now apply H|eapply all_blocked; eauto].
    + exfalso. apply (release_phase3 0%nat p0).
      * apply H. now rewrite Hc.
      * apply (all_blocked c 0%nat p0 Hall). now rewrite Hc.
Qed.

Lemma inv_run schedule : forall c c', inv c -> run schedule c = Some c' -> inv c'.
Proof.
  induction schedule as [|a rest IH]; intros c c' Hinv Hrun; cbn in Hrun.
  - now injection Hrun as <-.
  - destruct (do_action a c) as [c1|] eqn:Ha; [|discriminate].
    eapply IH; [|exact Hrun]. eapply inv_do_action; eauto.
Qed.

Lemma inv_reachable n c : reachable n c -> inv c.
Proof.
  intros [schedule Hrun]. eapply inv_run; [apply inv_start|exact Hrun].
Qed.

(** C9.  In every configuration the group can reach, whatever the number of
    processes and the interleaving: a process of rank above 0 that has
    begun the body of the [with] block finds the leader with the body
    done and no longer in it; and once any process is past the block,
    every process has run the body to its end. *)
Theorem leader_first (world_size : nat) (c : config) :
  reachable world_size c ->
  (forall r p, (0 < r)%nat -> nth_error c r = Some p -> began p = true ->
     exists p0, nth_error c 0 = Some p0
                /\ worked p0 = true /\ in_body p0 = false)
  /\ (forall r p, nth_error c r = Some p -> at_pc p = Left ->
        forall r' q, nth_error c r' = Some q -> worked q = true).
Proof.
  intros Hreach. apply inv_reachable in Hreach. split.
  - intros r p Hr Hp Hbegan.
    assert (exists p0, nth_error c 0 = Some p0) as [p0 Hp0].
    { destruct c as [|p0 c0]; [destruct r; discriminate|]. now exists p0. }
    exists p0. split; [exact Hp0|].
    destruct Hreach as [H|[H|H]];
      pose proof (H _ _ Hp) as Hph; pose proof (H _ _ Hp0) as Hph0;
      unfold began in Hbegan; clear - Hr Hph Hph0 Hbegan;
      destruct r; [lia| |lia| |lia|]; clear Hr;
      destruct p as [[] []], p0 as [[] []]; cbn in *;
      try discriminate; auto.
  - intros r p Hp Hleft r' q Hq.
    destruct Hreach as [H|[H|H]];
      pose proof (H _ _ Hp) as Hph; pose proof (H _ _ Hq) as Hphq;
      clear - Hleft Hph Hphq;
      destruct p as [[] []], q as [[] []], r, r'; cbn in *;
      try discriminate; auto.
Qed.

(** A group of three can get through the block. *)
Example three_processes_pass :
  run [Local 0; Local 1; Local 2; Local 0; BarrierOpens;
       Local 0; Local 2; Local 1; Local 1; Local 2; BarrierOpens]
      (start 3)
  = Some (repeat (mkProc Left true) 3).
Proof. reflexivity. Qed.

End Rank0FirstFacts.

Lemma leader_first_witness :
  let c := [Rank0First.mkProc Rank0First.AfterBarrier1 true;
            Rank0First.mkProc Rank0First.Yield2 false] in
  Rank0First.reachable 2 c
  /\ exists p0, nth_error c 0 = Some p0 /\ Rank0First.worked p0 = true
                /\ Rank0First.in_body p0 = false.
Proof.
  intros c.
  assert (Hreach : Rank0First.reachable 2 c).
  { exists [Rank0First.Local 0; Rank0First.Local 1; Rank0First.Local 0;
            Rank0First.BarrierOpens; Rank0First.Local 1].
    reflexivity. }
  split; [exact Hreach|].
  exact (proj1 (Rank0FirstFacts.leader_first 2 c Hreach) 1%nat
           (Rank0First.mkProc Rank0First.Yield2 false)
           (le_n 1) eq_refl eq_refl).
Defined.

(** ** Normal forms of the blocks of a step *)

Section Blocks.

Variable cfg : Config.
Variable env : Env.

Lemma avg_elapsed_ms_sampled t :
  LocalTimer.measurements t <> [] ->
  LocalTimer.avg_elapsed_ms t = Ok (avg_ms t).
Proof.
  unfold LocalTimer.avg_elapsed_ms, avg_ms.
  destruct (LocalTimer.measurements t); [congruence|reflexivity].
Qed.

Lemma bind_timer_avg {B} k (h : Q -> M B) w :
  LocalTimer.measurements (get_timer k (timers w)) <> [] ->
  bind (timer_avg k) h w = h (avg_ms (get_timer k (timers w))) w.
Proof.
  intros Hne. unfold bind, timer_avg. cbn [res world events app].
  rewrite (avg_elapsed_ms_sampled _ Hne). apply out_eta.
Qed.

(** The logging branch never divides by zero once every timer holds a
    sample. *)
Lemma log_block_run i w :
  all_sampled (timers w) ->
  log_block cfg i w =
  mkOut (Ok tt) (logged w) [EvLog (state w) (report cfg i (state w) (timers w))].
Proof.
  intros Hs. unfold log_block. rewrite bind_get_state.
  pose proof (Hs Data) as Hd. pose proof (Hs Forward) as Hf.
  pose proof (Hs Backward) as Hb. pose proof (Hs Update) as Hu.
  pose proof (Hs Waiting) as Hw.
  rewrite !bind_timer_avg by assumption.
  rewrite bind_emit, bind_set_state. reflexivity.
Qed.

Lemma save_block_run w :
  save_block cfg w = mkOut (Ok tt) w [EvCkpt (state w) (Nat.eqb (rank cfg) 0)].
Proof. reflexivity. Qed.

(** The part of a step after the timed stages, once every timer holds a
    sample. *)
Lemma after_stages_run i loss w :
  all_sampled (timers w) ->
  let st1 := advance loss (state w) in
  let w1 := with_state st1 w in
  after_stages cfg i loss w =
  prepend [EvCounters st1]
    (if log_freq cfg =? 0 then mkOut (Raise ZeroDivisionError) w1 []
     else
       let lg := global_step st1 mod log_freq cfg =? 0 in
       let w2 := if lg then logged w1 else w1 in
       prepend (if lg then [EvLog st1 (report cfg i st1 (timers w))] else [])
         (if ckpt_freq cfg =? 0 then mkOut (Raise ZeroDivisionError) w2 []
          else
            mkOut (Ok tt) w2
              (if global_step st1 mod ckpt_freq cfg =? 0
               then [EvCkpt (state w2) (Nat.eqb (rank cfg) 0)] else []))).
Proof.
  intros Hs st1 w1. unfold after_stages.
  rewrite bind_get_state, bind_set_state, bind_emit_prepend, bind_get_state.
  fold (with_state (advance loss (state w)) w). fold st1. fold w1.
  change (state w1) with st1. f_equal.
  unfold py_mod.
  destruct (log_freq cfg =? 0) eqn:Hlf.
  - rewrite bind_lift_raise. reflexivity.
  - rewrite bind_lift_ok. cbv zeta.
    destruct (global_step st1 mod log_freq cfg =? 0) eqn:Hlg.
    + rewrite (bind_out _ _ w1 tt (logged w1)
                 [EvLog st1 (report cfg i st1 (timers w))])
        by exact (log_block_run i w1 Hs).
      f_equal. rewrite bind_get_state.
      change (global_step (state (logged w1))) with (global_step st1).
      destruct (ckpt_freq cfg =? 0) eqn:Hcf.
      * rewrite bind_lift_raise. reflexivity.
      * rewrite bind_lift_ok.
        destruct (global_step st1 mod ckpt_freq cfg =? 0); reflexivity.
    + rewrite bind_ret, bind_get_state.
      change (global_step (state w1)) with (global_step st1).
      unfold prepend. cbn [app].
      destruct (ckpt_freq cfg =? 0) eqn:Hcf.
      * rewrite bind_lift_raise. reflexivity.
      * rewrite bind_lift_ok.
        destruct (global_step st1 mod ckpt_freq cfg =? 0); reflexivity.
Qed.

End Blocks.

Section StagesSummary.

Variable cfg : Config.
Variable env : Env.

Lemma grows_refl w : grows w w.
Proof. intros k. exists []. now rewrite app_nil_r. Qed.

Lemma grows_trans w1 w2 w3 : grows w1 w2 -> grows w2 w3 -> grows w1 w3.
Proof.
  intros H12 H23 k. destruct (H12 k) as [x Hx], (H23 k) as [y Hy].
  exists (x ++ y). now rewrite Hy, Hx, app_assoc.
Qed.

Lemma stage_eq_dec (k k' : stage) : {k = k'} + {k <> k'}.
Proof. decide equality. Qed.

Lemma grows_timed k w : grows w (timed env k w).
Proof.
  intros k'. destruct (stage_eq_dec k k') as [<-|Hne].
  - rewrite timed_same. now eexists.
  - rewrite timed_other by exact Hne. exists []. now rewrite app_nil_r.
Qed.

Lemma grows_aborted k w : grows w (aborted k w).
Proof.
  intros k'. exists []. rewrite app_nil_r.
  destruct (stage_eq_dec k k') as [<-|Hne].
  - now rewrite aborted_same.
  - now rewrite aborted_other.
Qed.

Lemma grows_sampled w w' k :
  grows w w' ->
  LocalTimer.measurements (get_timer k (timers w)) <> [] ->
  LocalTimer.measurements (get_timer k (timers w')) <> [].
Proof.
  intros Hg Hne. destruct (Hg k) as [x Hx]. rewrite Hx.
  destruct (LocalTimer.measurements (get_timer k (timers w)));
    [congruence|discriminate].
Qed.

Lemma timed_sampled k w :
  LocalTimer.measurements (get_timer k (timers (timed env k w))) <> [].
Proof.
  rewrite timed_same.
  destruct (LocalTimer.measurements (get_timer k (timers w))); discriminate.
Qed.

Lemma timed_data_other k w :
  k <> Data -> get_timer Data (timers (timed env k w)) = get_timer Data (timers w).
Proof. intros H. now apply timed_other. Qed.

Lemma aborted_data_other k w :
  k <> Data -> get_timer Data (timers (aborted k w)) = get_timer Data (timers w).
Proof. intros H. now apply aborted_other. Qed.

Lemma with_timer_emit_lift {A} k f (r : result A) w :
  with_timer env k (bind (emit f) (fun _ => lift r)) w =
  match r with
  | Ok a => mkOut (Ok a) (timed env k w) [f (state w)]
  | Raise x => mkOut (Raise x) (aborted k w) [f (state w)]
  end.
Proof.
  rewrite (with_timer_pure env k _ w r [f (state w)]).
  - reflexivity.
  - unfold bind, emit, lift. cbn [res world events].
    destruct r; reflexivity.
Qed.

Ltac stage_ok w' :=
  match goal with
  | |- context [bind (with_timer env ?k (ext None)) ?h ?w] =>
      rewrite (bind_out (with_timer env k (ext None)) h w tt (timed env k w) [])
        by (rewrite with_timer_ext; reflexivity);
      rewrite prepend_nil;
      set (w' := timed env k w)
  end.

Ltac stage_raise :=
  match goal with
  | |- context [bind (with_timer env ?k (ext (Some ?x))) ?h ?w] =>
      rewrite (bind_out_raise (with_timer env k (ext (Some x))) h w x
                 (aborted k w) [])
        by (rewrite with_timer_ext; reflexivity)
  end.

Ltac grow_steps :=
  repeat first
    [ apply grows_refl
    | match goal with
      | |- grows _ (timed _ _ _) => eapply grows_trans; [|apply grows_timed]
      | |- grows _ (aborted _ _) => eapply grows_trans; [|apply grows_aborted]
      | w' := _ |- grows _ ?w' => subst w'
      end ].

(** The timed compute stages of a step: how they end is decided by the
    oracles alone, [state] is not touched, no timer loses a sample, the data
    timer is left alone, and when they all return every other timer has
    gained a sample. *)
Lemma run_stages_summary i w :
  let o := run_stages env i w in
  res o = stages_result env (epoch (state w)) i
  /\ events o = stage_events env (state w) i
  /\ state (world o) = state w
  /\ grows w (world o)
  /\ get_timer Data (timers (world o)) = get_timer Data (timers w)
  /\ (forall loss, res o = Ok loss ->
        forall k, k <> Data ->
          LocalTimer.measurements (get_timer k (timers (world o))) <> []).
Proof.
  cbv zeta. unfold run_stages, stages_result, stage_events.
  rewrite bind_get_state. cbv zeta.
  set (e := epoch (state w)).
  destruct (barrier env e i 0) as [x|] eqn:H0.
  { stage_raise. cbn [res events world].
    repeat split; try discriminate; grow_steps. }
  stage_ok w1.
  destruct (forward env e i) as [loss|x] eqn:Hf.
  2:{ rewrite (bind_out_raise _ _ w1 x (aborted Forward w1) [EvExec (state w) i])
        by (rewrite with_timer_emit_lift; reflexivity).
      cbn [res events world].
      repeat split; try discriminate; grow_steps. }
  rewrite (bind_out _ _ w1 loss (timed env Forward w1) [EvExec (state w) i])
    by (rewrite with_timer_emit_lift; reflexivity).
  set (w2 := timed env Forward w1).
  destruct (barrier env e i 1) as [x|] eqn:H1.
  { stage_raise. cbn [prepend res events world app].
    repeat split; try discriminate; grow_steps. }
  stage_ok w3.
  destruct (backward env e i) as [x|] eqn:Hb.
  { stage_raise. cbn [prepend res events world app].
    repeat split; try discriminate; grow_steps. }
  stage_ok w4.
  destruct (barrier env e i 2) as [x|] eqn:H2.
  { stage_raise. cbn [prepend res events world app].
    repeat split; try discriminate; grow_steps. }
  stage_ok w5.
  destruct (update env e i) as [x|] eqn:Hu.
  { stage_raise. cbn [prepend res events world app].
    repeat split; try discriminate; grow_steps. }
  stage_ok w6.
  destruct (barrier env e i 3) as [x|] eqn:H3.
  { stage_raise. cbn [prepend res events world app].
    repeat split; try discriminate; grow_steps. }
  stage_ok w7.
  unfold ret. cbn [prepend res events world app].
  repeat split; try discriminate; grow_steps.
  intros loss' _ k Hk.
  destruct k; try congruence.
  - apply (grows_sampled w2); [subst w7 w6 w5 w4 w3; grow_steps|].
    apply timed_sampled.
  - apply (grows_sampled w4); [subst w7 w6 w5; grow_steps|].
    apply timed_sampled.
  - apply (grows_sampled w6); [subst w7; grow_steps|]. apply timed_sampled.
  - apply timed_sampled.
Qed.

End StagesSummary.

(** ** One iteration of the inner loop *)

Section Step.

Variable cfg : Config.
Variable env : Env.

Lemma step_body_fetch_fails i w x :
  fetch env (epoch (state w)) i = Some x ->
  step_body cfg env i w = mkOut (Raise x) (aborted Data w) [EvFetch (state w) i].
Proof.
  intros Hf. unfold step_body.
  apply bind_out_raise. now rewrite data_stage_run, Hf.
Qed.

Lemma step_body_not_skipped i w :
  epoch_step (state w) <= i ->
  fetch env (epoch (state w)) i = None ->
  step_body cfg env i w =
  prepend [EvFetch (state w) i]
    (bind (run_stages env i) (after_stages cfg i) (timed env Data w)).
Proof.
  intros Hge Hf. unfold step_body.
  rewrite (bind_out _ _ w tt (timed env Data w) [EvFetch (state w) i])
    by now rewrite data_stage_run, Hf.
  f_equal. rewrite bind_get_state, timed_state.
  destruct (i <? epoch_step (state w)) eqn:Hlt; [|reflexivity].
  apply Z.ltb_lt in Hlt. lia.
Qed.

Lemma step_body_stage_fails i w x :
  epoch_step (state w) <= i ->
  fetch env (epoch (state w)) i = None ->
  stages_result env (epoch (state w)) i = Raise x ->
  exists w1,
    state w1 = state w /\ grows w w1
    /\ step_body cfg env i w
       = mkOut (Raise x) w1 (EvFetch (state w) i :: stage_events env (state w) i).
Proof.
  intros Hge Hf Hs. rewrite (step_body_not_skipped i w Hge Hf).
  destruct (run_stages_summary env i (timed env Data w))
    as (Hres & Hev & Hst & Hgr & _).
  rewrite timed_state in *. rewrite Hs in Hres.
  exists (world (run_stages env i (timed env Data w))).
  split; [exact Hst|]. split.
  { eapply grows_trans; [apply grows_timed|exact Hgr]. }
  unfold bind. rewrite Hres. unfold prepend. cbn [res world events app].
  now rewrite Hev.
Qed.

Lemma stages_ok_events e st i loss :
  e = epoch st -> stages_result env e i = Ok loss ->
  stage_events env st i = [EvExec st i].
Proof.
  intros -> H. unfold stages_result in H. unfold stage_events.
  destruct (barrier env (epoch st) i 0); [discriminate|reflexivity].
Qed.

Lemma step_body_stages_ok i w loss :
  epoch_step (state w) <= i ->
  fetch env (epoch (state w)) i = None ->
  stages_result env (epoch (state w)) i = Ok loss ->
  exists w1,
    state w1 = state w /\ all_sampled (timers w1) /\ grows w w1
    /\ get_timer Data (timers w1) = get_timer Data (timers (timed env Data w))
    /\ step_body cfg env i w
       = prepend [EvFetch (state w) i; EvExec (state w) i]
           (after_stages cfg i loss w1).
Proof.
  intros Hge Hf Hs. rewrite (step_body_not_skipped i w Hge Hf).
  destruct (run_stages_summary env i (timed env Data w))
    as (Hres & Hev & Hst & Hgr & Hdata & Hsam).
  rewrite timed_state in *. rewrite Hs in Hres.
  rewrite (stages_ok_events _ _ _ _ eq_refl Hs) in Hev.
  exists (world (run_stages env i (timed env Data w))).
  split; [exact Hst|]. split.
  { intros k. destruct (stage_eq_dec k Data) as [->|Hk].
    - rewrite Hdata. apply timed_sampled.
    - now apply (Hsam loss). }
  split.
  { eapply grows_trans; [apply grows_timed|exact Hgr]. }
  split; [exact Hdata|].
  unfold bind. rewrite Hres. unfold prepend. cbn [res world events].
  rewrite Hev. reflexivity.
Qed.

End Step.

(** ** The counters along a run *)

Section Counters.

Variable cfg : Config.
Variable env : Env.


Lemma range_nil lo hi : hi <= lo -> range lo hi = [].
Proof.
  intros H. unfold range. replace (Z.to_nat (hi - lo)) with 0%nat by lia.
  reflexivity.
Qed.

Lemma range_cons lo hi : lo < hi -> range lo hi = lo :: range (lo + 1) hi.
Proof.
  intros H. unfold range.
  replace (Z.to_nat (hi - lo)) with (S (Z.to_nat (hi - (lo + 1)))) by lia.
  cbn [seq map]. f_equal; [lia|].
  rewrite <- seq_shift, map_map. apply map_ext. intros k. lia.
Qed.

Lemma range_split lo mid hi :
  lo <= mid <= hi -> range lo hi = range lo mid ++ range mid hi.
Proof.
  intros H. remember (Z.to_nat (mid - lo)) as n eqn:Hn.
  revert lo H Hn. induction n as [|n IH]; intros lo H Hn.
  - assert (lo = mid) as -> by lia.
    now rewrite (range_nil mid mid) by lia.
  - rewrite (range_cons lo hi), (range_cons lo mid) by lia.
    cbn [app]. f_equal. apply IH; lia.
Qed.

End Counters.

Section CountersInvariant.

Variable cfg : Config.
Variable env : Env.






Ltac counters :=
  unfold counters_ok, counter_move, last_epoch_step, advance, logged, with_state in *;
  cbn in *; repeat split; cbn; try lia; auto.









End CountersInvariant.



(** ** Projections of the events *)

Lemma ckpts_app t1 t2 : ckpts (t1 ++ t2) = ckpts t1 ++ ckpts t2.
Proof.
  induction t1 as [|ev t1 IH]; [reflexivity|].
  destruct ev; cbn; rewrite ?IH; reflexivity.
Qed.

Lemma processed_app t1 t2 : processed (t1 ++ t2) = processed t1 ++ processed t2.
Proof.
  induction t1 as [|ev t1 IH]; [reflexivity|].
  destruct ev; cbn; rewrite ?IH; reflexivity.
Qed.

Lemma fetched_app t1 t2 : fetched (t1 ++ t2) = fetched t1 ++ fetched t2.
Proof.
  induction t1 as [|ev t1 IH]; [reflexivity|].
  destruct ev; cbn; rewrite ?IH; reflexivity.
Qed.

Lemma trajectory_app t1 t2 :
  trajectory (t1 ++ t2) = trajectory t1 ++ trajectory t2.
Proof.
  induction t1 as [|ev t1 IH]; [reflexivity|].
  destruct ev; cbn; rewrite ?IH; reflexivity.
Qed.

Lemma events_bind_prefix {A B} (c : M A) (k : A -> M B) w :
  exists rest, events (bind c k w) = events (c w) ++ rest.
Proof.
  unfold bind. destruct (res (c w)); cbn [events].
  - now eexists.
  - exists []. now rewrite app_nil_r.
Qed.

(** ** The fast-forward over the batches below [epoch_step] *)

Section Skip.

Variable cfg : Config.
Variable env : Env.

Lemma skip_phase n : forall lo w,
  (forall i, lo <= i < lo + Z.of_nat n ->
     i < epoch_step (state w) /\ fetch env (epoch (state w)) i = None) ->
  exists w',
    for_each (range lo (lo + Z.of_nat n)) (step_body cfg env) w
    = mkOut (Ok tt) w' (map (EvFetch (state w)) (range lo (lo + Z.of_nat n)))
    /\ state w' = state w
    /\ (forall k, k <> Data ->
          get_timer k (timers w') = get_timer k (timers w))
    /\ LocalTimer.measurements (get_timer Data (timers w'))
       = LocalTimer.measurements (get_timer Data (timers w))
         ++ skip_samples env (clock w) n
    /\ clock w' = (clock w + 2 * n)%nat.
Proof.
  induction n as [|n IH]; intros lo w Hskip.
  - exists w. rewrite range_nil by lia. cbn.
    rewrite app_nil_r. repeat split; auto.
  - rewrite range_cons by lia. cbn [for_each map].
    destruct (Hskip lo ltac:(lia)) as [Hlt Hf].
    rewrite (bind_out _ _ w tt (timed env Data w) [EvFetch (state w) lo])
      by (rewrite (step_body_skipped cfg env lo w Hlt), data_stage_run, Hf;
          reflexivity).
    replace (lo + Z.of_nat (S n)) with (lo + 1 + Z.of_nat n) by lia.
    destruct (IH (lo + 1) (timed env Data w)) as (w' & Hrun & Hst & Hoth & Hms & Hclk).
    { intros i Hi. rewrite timed_state. apply Hskip. lia. }
    exists w'. rewrite Hrun. rewrite timed_state in *.
    split; [reflexivity|]. split; [exact Hst|]. split; [|split].
    + intros k Hk. rewrite (Hoth k Hk). apply timed_other. congruence.
    + rewrite Hms, timed_same. cbn [skip_samples clock timed].
      now rewrite <- app_assoc.
    + rewrite Hclk. cbn [clock timed]. lia.
Qed.

Lemma skip_samples_length clk n : length (skip_samples env clk n) = n.
Proof. revert clk; induction n; intros clk; cbn; auto. Qed.

End Skip.

(** ** Runs in which every external call returns *)

Section EnvOk.

Variable cfg : Config.
Variable env : Env.
Hypothesis Henv : env_ok env.
Hypothesis Hlog : log_freq cfg <> 0.
Hypothesis Hckpt : ckpt_freq cfg <> 0.

Lemma stages_result_env_ok e i : exists loss, stages_result env e i = Ok loss.
Proof.
  destruct Henv as (_ & Hb & Hf & Hbw & Hu).
  destruct (Hf e i) as [loss Hl]. exists loss.
  unfold stages_result. now rewrite !Hb, Hl, Hbw, Hu.
Qed.

Lemma step_body_env_ok i w :
  epoch_step (state w) <= i ->
  let st := state w in
  let o := step_body cfg env i w in
  let c1 := (epoch st, epoch_step st + 1, global_step st + 1) in
  res o = Ok tt
  /\ counters (state (world o)) = c1
  /\ map counters (ckpts (events o))
     = (if (global_step st + 1) mod ckpt_freq cfg =? 0 then [c1] else [])
  /\ processed (events o) = [(epoch st, i)]
  /\ fetched (events o) = [(epoch st, i)]
  /\ trajectory (events o) = [c1]
  /\ exists rest, events o = EvFetch st i :: EvExec st i :: rest.
Proof.
  intros Hge st o c1. subst o.
  assert (Hf : fetch env (epoch (state w)) i = None) by apply Henv.
  destruct (stages_result_env_ok (epoch (state w)) i) as [loss Hs].
  destruct (step_body_stages_ok cfg env i w loss Hge Hf Hs)
    as (w1 & Hst & Hsam & _ & _ & ->).
  rewrite (after_stages_run cfg i loss w1 Hsam). cbv zeta. rewrite Hst.
  fold st. unfold prepend.
  apply Z.eqb_neq in Hlog, Hckpt. rewrite Hlog, Hckpt.
  change (global_step (advance loss st)) with (global_step st + 1).
  destruct ((global_step st + 1) mod log_freq cfg =? 0);
    destruct ((global_step st + 1) mod ckpt_freq cfg =? 0);
    cbn; repeat split; eexists; reflexivity.
Qed.

(** The iterations from batch index [lo = epoch_step] to the end of the
    epoch: all are executed, in order, and a checkpoint is saved exactly
    after those that bring [global_step] to a multiple of [ckpt_freq]. *)
Lemma exec_phase n : forall lo w,
  lo + Z.of_nat n = Z.of_nat (len_dataloader cfg) ->
  epoch_step (state w) = lo ->
  let e := epoch (state w) in
  let d := global_step (state w) - lo in
  let after j := (e, j + 1, j + 1 + d) in
  let o := for_each (range lo (Z.of_nat (len_dataloader cfg))) (step_body cfg env) w in
  res o = Ok tt
  /\ counters (state (world o)) = (e, lo + Z.of_nat n, lo + Z.of_nat n + d)
  /\ map counters (ckpts (events o))
     = map after (filter (fun j => (j + 1 + d) mod ckpt_freq cfg =? 0)
                         (range lo (Z.of_nat (len_dataloader cfg))))
  /\ processed (events o) = map (pair e) (range lo (Z.of_nat (len_dataloader cfg)))
  /\ fetched (events o) = map (pair e) (range lo (Z.of_nat (len_dataloader cfg)))
  /\ trajectory (events o) = map after (range lo (Z.of_nat (len_dataloader cfg))).
Proof.
  induction n as [|n IH]; intros lo w Hn Hes; cbv zeta.
  - rewrite range_nil by lia. cbn. unfold counters.
    repeat split. rewrite Hes. repeat f_equal; lia.
  - rewrite range_cons by lia. cbn [for_each map filter].
    assert (Hge : epoch_step (state w) <= lo) by lia.
    destruct (step_body_env_ok lo w Hge)
      as (Hres & Hcnt & Hck & Hpr & Hfe & Htr & _).
    unfold bind. rewrite Hres. cbn [res world events].
    set (w1 := world (step_body cfg env lo w)) in *.
    unfold counters in Hcnt. injection Hcnt as He1 Hes1 Hgs1.
    assert (Hn1 : lo + 1 + Z.of_nat n = Z.of_nat (len_dataloader cfg)) by lia.
    assert (Hlo1 : epoch_step (state w1) = lo + 1) by lia.
    destruct (IH (lo + 1) w1 Hn1 Hlo1)
      as (Hres' & Hcnt' & Hck' & Hpr' & Hfe' & Htr').
    rewrite He1, Hgs1 in *.
    replace (global_step (state w) + 1 - (lo + 1))
      with (global_step (state w) - lo) in * by lia.
    rewrite ckpts_app, processed_app, fetched_app, trajectory_app, map_app.
    rewrite Hck, Hpr, Hfe, Htr, Hck', Hpr', Hfe', Htr', Hres', Hcnt'.
    rewrite Hes.
    replace (lo + 1 + (global_step (state w) - lo))
      with (global_step (state w) + 1) by lia.
    repeat split.
    + f_equal; [f_equal; lia | lia].
    + destruct ((global_step (state w) + 1) mod ckpt_freq cfg =? 0);
        cbn [map app]; [f_equal; f_equal; lia | reflexivity].
Qed.

End EnvOk.

Lemma events_bind_ok {A B} (c : M A) (k : A -> M B) w a :
  res (c w) = Ok a ->
  events (bind c k w) = events (c w) ++ events (k a (world (c w))).
Proof. intros H. unfold bind. now rewrite H. Qed.

Lemma state_eta (st : TrainingState) :
  mkState (epoch st) (global_step st) (epoch_step st) (running_loss st) = st.
Proof. destruct st; reflexivity. Qed.

(** ** The scenario: ten batches per epoch, a checkpoint every five steps *)

(** C2, as stated, fails: in the first epoch of the run from the zero state
    two checkpoints are saved, at [global_step] 5 and at [global_step] 10,
    not one. *)
Lemma two_checkpoints_in_first_epoch :
  let cfg := mkConfig 1 100 5 10 0 in
  let env := mkEnv (fun n => inject_Z (Z.of_nat n)) (fun _ _ => None)
                   (fun _ _ _ => None) (fun _ _ => Ok 1%Q) (fun _ _ => None)
                   (fun _ _ => None) in
  let saved := ckpts (events (epoch_body cfg env 0 (init_world zero_state))) in
  map global_step saved = [5; 10] /\ length saved <> 1%nat.
Proof. split; [vm_compute; reflexivity | vm_compute; discriminate]. Qed.

(** C2, amended.  With ten batches per epoch, a checkpoint every five steps,
    a non-zero logging interval and external calls that return, the first
    epoch of the run from the zero state saves exactly two checkpoints: one
    with [epoch_step = global_step = 5] and one, after the last batch, with
    [epoch_step = global_step = 10].  A run that starts from a state with
    the counters of the first one fetches the batches 0 to 4 without
    handing them to the model, and the first batch it hands to the model is
    batch 5. *)
Theorem checkpoint_scenario (n lf : Z) (r : nat) (env : Env) :
  1 <= n -> lf <> 0 -> env_ok env ->
  let cfg := mkConfig n lf 5 10 r in
  map counters (ckpts (events (epoch_body cfg env 0 (init_world zero_state))))
  = [(0, 5, 5); (0, 10, 10)]
  /\ forall st, counters st = (0, 5, 5) ->
       exists rest,
         events (train cfg env (init_world st))
         = EvEpochBegin st
           :: EvFetch st 0 :: EvFetch st 1 :: EvFetch st 2 :: EvFetch st 3
           :: EvFetch st 4
           :: EvFetch st 5 :: EvExec st 5 :: rest.
Proof.
  intros Hn Hlf Henv cfg.
  assert (Hck : ckpt_freq cfg <> 0) by (cbn; lia).
  split.
  - unfold epoch_body.
    rewrite bind_get_state, bind_set_state, bind_emit_prepend.
    cbn [init_world state timers clock zero_state epoch global_step epoch_step
         running_loss].
    set (w1 := mkWorld _ _ _).
    destruct (exec_phase cfg env Henv Hlf Hck 10 0 w1 eq_refl eq_refl)
      as (Hres & _ & Hsaved & _).
    unfold prepend. cbn [events app ckpts].
    unfold steps_from.
    rewrite (events_bind_ok _ _ w1 tt Hres), ckpts_app, map_app, Hsaved.
    reflexivity.
  - intros st Hst. unfold counters in Hst. injection Hst as He Hes Hgs.
    unfold train, init_world. rewrite bind_get_state. cbn [state].
    change (num_epochs cfg) with n.
    rewrite He, (range_cons 0 n) by lia. cbn [for_each].
    match goal with
    | |- context [events (bind ?c ?k ?w)] =>
        destruct (events_bind_prefix c k w) as [rest1 ->]
    end.
    unfold epoch_body.
    rewrite bind_get_state, bind_set_state, bind_emit_prepend.
    cbn [state timers clock].
    replace (mkState 0 (global_step st) (epoch_step st) (running_loss st))
      with st by (destruct st; cbn in *; congruence).
    set (w1 := mkWorld st fresh_timers 0).
    unfold prepend. cbn [events].
    match goal with
    | |- context [events (bind ?c ?k ?w)] =>
        destruct (events_bind_prefix c k w) as [rest2 ->]
    end.
    unfold steps_from. cbn [len_dataloader cfg].
    rewrite (range_split 0 5 (Z.of_nat 10)) by lia.
    rewrite for_each_app.
    destruct (skip_phase cfg env 5 0 w1) as (w2 & Hrun & Hst2 & _).
    { intros i Hi. cbn [w1 state]. split; [lia|apply Henv]. }
    change (0 + Z.of_nat 5) with 5 in Hrun.
    rewrite (bind_out _ _ w1 tt w2 _ Hrun).
    rewrite (range_cons 5 (Z.of_nat 10)) by lia. cbn [for_each].
    unfold prepend. cbn [events].
    match goal with
    | |- context [events (bind ?c ?k ?w)] =>
        destruct (events_bind_prefix c k w) as [rest3 ->]
    end.
    destruct (step_body_env_ok cfg env Henv Hlf Hck 5 w2)
      as (_ & _ & _ & _ & _ & _ & [rest4 Hrest4]).
    { rewrite Hst2. cbn [w1 state]. lia. }
    rewrite Hst2 in Hrest4. cbn [w1 state] in Hrest4.
    rewrite Hrest4. subst w1. cbn [state].
    change (range 0 5) with [0; 1; 2; 3; 4]. cbn [map].
    rewrite <- !app_assoc. cbn [app].
    exists (rest4 ++ rest3 ++ rest2 ++ rest1). reflexivity.
Qed.

Lemma checkpoint_scenario_witness :
  let env := mkEnv (fun n => inject_Z (Z.of_nat n)) (fun _ _ => None)
                   (fun _ _ _ => None) (fun _ _ => Ok 1%Q) (fun _ _ => None)
                   (fun _ _ => None) in
  env_ok env
  /\ map counters
       (ckpts (events (epoch_body (mkConfig 2 100 5 10 0) env 0
                         (init_world zero_state))))
     = [(0, 5, 5); (0, 10, 10)].
Proof.
  intros env.
  assert (Henv : env_ok env).
  { repeat split; intros; try reflexivity. now exists 1%Q. }
  split; [exact Henv|].
  assert (H1 : 1 <= 2) by lia.
  assert (H2 : 100 <> 0) by discriminate.
  exact (proj1 (checkpoint_scenario 2 100 0 env H1 H2 Henv)).
Defined.

(** ** The data timer across a resume *)

Section DataTimer.

Variable cfg : Config.
Variable env : Env.
Variable pre : list Q.

Lemma first_log_app t1 t2 :
  first_log (t1 ++ t2)
  = match first_log t1 with Some info => Some info | None => first_log t2 end.
Proof.
  induction t1 as [|ev t1 IH]; [reflexivity|].
  destruct ev; cbn; auto.
Qed.

Lemma data_prefix_grows w w' : grows w w' -> data_prefix pre w -> data_prefix pre w'.
Proof.
  intros Hg [rest Hrest]. destruct (Hg Data) as [extra Hx].
  exists (rest ++ extra). now rewrite Hx, Hrest, app_assoc.
Qed.

Lemma log_includes_none tr : first_log tr = None -> log_includes pre tr.
Proof. intros H info Hi. congruence. Qed.

Lemma carries_bind {A B} (c : M A) (k : A -> M B) :
  carries pre c -> (forall a, carries pre (k a)) -> carries pre (bind c k).
Proof.
  intros Hc Hk w Hw. destruct (Hc w Hw) as [Hinc Hnone].
  unfold bind. destruct (res (c w)) as [a|e]; cbn [res world events].
  - split.
    + intros info. rewrite first_log_app.
      destruct (first_log (events (c w))) as [info1|] eqn:H1.
      * intros [= <-]. now apply Hinc.
      * apply (Hk a (world (c w))). now apply Hnone.
    + rewrite first_log_app.
      destruct (first_log (events (c w))) as [info1|] eqn:H1; [discriminate|].
      apply (Hk a (world (c w))). now apply Hnone.
  - split; assumption.
Qed.

Lemma carries_for_each {A} (xs : list A) body :
  (forall x, carries pre (body x)) -> carries pre (for_each xs body).
Proof.
  intros Hbody. induction xs as [|x xs IH]; cbn [for_each].
  - intros w Hw. split; [now apply log_includes_none|auto].
  - apply carries_bind; auto.
Qed.

Lemma avg_ms_measurements t ms :
  LocalTimer.measurements t = ms -> avg_ms t = avg_ms (LocalTimer.mk ms None).
Proof. intros <-. reflexivity. Qed.

Lemma carries_step i : carries pre (step_body cfg env i).
Proof.
  intros w Hw.
  destruct (fetch env (epoch (state w)) i) as [x|] eqn:Hf.
  { rewrite (step_body_fetch_fails cfg env i w x Hf). cbn [events world].
    split; [now apply log_includes_none|].
    intros _. eapply data_prefix_grows; [apply grows_aborted|exact Hw]. }
  destruct (Z.lt_ge_cases i (epoch_step (state w))) as [Hlt|Hge].
  { rewrite (step_body_skipped cfg env i w Hlt), data_stage_run, Hf.
    cbn [events world].
    split; [now apply log_includes_none|].
    intros _. eapply data_prefix_grows; [apply grows_timed|exact Hw]. }
  destruct (stages_result env (epoch (state w)) i) as [loss|x] eqn:Hs.
  2:{ destruct (step_body_stage_fails cfg env i w x Hge Hf Hs)
        as (w1 & Hst & Hgr & ->).
      cbn [res world events].
      assert (Hnone : first_log (EvFetch (state w) i
                                 :: stage_events env (state w) i) = None).
      { unfold stage_events.
        destruct (barrier env (epoch (state w)) i 0); reflexivity. }
      split; [now apply log_includes_none|].
      intros _. eapply data_prefix_grows; eauto. }
  destruct (step_body_stages_ok cfg env i w loss Hge Hf Hs)
    as (w1 & Hst & Hsam & Hgr & _ & ->).
  pose proof (data_prefix_grows w w1 Hgr Hw) as Hw1.
  rewrite (after_stages_run cfg i loss w1 Hsam). cbv zeta.
  unfold prepend.
  destruct (log_freq cfg =? 0).
  { cbn [res world events app first_log].
    split; [now apply log_includes_none|]. intros _. exact Hw1. }
  destruct (global_step (advance loss (state w1)) mod log_freq cfg =? 0).
  - assert (Hinc : forall tail,
              log_includes pre
                ([EvFetch (state w) i; EvExec (state w) i]
                 ++ [EvCounters (advance loss (state w1))]
                 ++ [EvLog (advance loss (state w1))
                       (report cfg i (advance loss (state w1)) (timers w1))]
                 ++ tail)).
    { intros tail info. cbn [app first_log]. intros [= <-].
      destruct Hw1 as [rest Hrest]. exists rest.
      cbn [get_timer] in Hrest.
      cbn [report info_time_data]. split.
      - now apply avg_ms_measurements.
      - rewrite (avg_ms_measurements _ _ Hrest).
        apply avg_elapsed_ms_sampled. cbn [LocalTimer.measurements].
        rewrite <- Hrest. apply (Hsam Data). }
    destruct (ckpt_freq cfg =? 0); cbn [res world events];
      (split; [apply Hinc|cbn [app first_log]; discriminate]).
  - destruct (ckpt_freq cfg =? 0); cbn [res world events app];
      [|destruct (global_step (advance loss (state w1)) mod ckpt_freq cfg =? 0)];
      cbn [first_log app];
      (split; [now apply log_includes_none|intros _; exact Hw1]).
Qed.

Lemma carries_end_epoch : carries pre end_epoch.
Proof.
  intros w Hw. split; [now apply log_includes_none|]. intros _. exact Hw.
Qed.

Lemma carries_epoch e : carries pre (epoch_body cfg env e).
Proof.
  unfold epoch_body. intros w Hw.
  rewrite bind_get_state, bind_set_state, bind_emit_prepend.
  set (w1 := mkWorld _ (timers w) (clock w)).
  assert (Hw1 : data_prefix pre w1) by exact Hw.
  destruct (carries_bind (steps_from cfg env 0) (fun _ => end_epoch)
              (carries_for_each _ _ carries_step)
              (fun _ => carries_end_epoch) w1 Hw1) as [Hinc Hnone].
  unfold prepend. cbn [res world events app]. split.
  - intros info. cbn [first_log]. apply Hinc.
  - cbn [first_log]. exact Hnone.
Qed.

End DataTimer.

Lemma bind_cong_l {A B} (c c' : M A) (k : A -> M B) w :
  c w = c' w -> bind c k w = bind c' k w.
Proof. intros H. unfold bind. now rewrite H. Qed.

Lemma bind_prepend_out {A B} (c c' : M A) (k : A -> M B) evs w w' :
  c w = prepend evs (c' w') -> bind c k w = prepend evs (bind c' k w').
Proof.
  intros H. unfold bind. rewrite H. unfold prepend. cbn [res world events].
  destruct (res (c' w')); cbn [res world events]; [|reflexivity].
  now rewrite app_assoc.
Qed.

(** ** A run that starts inside an epoch *)

Section Resume.

Variable cfg : Config.
Variable env : Env.

(** What is left of a run at batch index [s] of epoch [e]: the remaining
    iterations of the epoch, its end, and the epochs after it. *)
Lemma epoch_body_unfold e w :
  epoch_body cfg env e w
  = prepend [EvEpochBegin (mkState e (global_step (state w))
                             (epoch_step (state w)) (running_loss (state w)))]
      (bind (steps_from cfg env 0) (fun _ => end_epoch)
         (with_state (mkState e (global_step (state w)) (epoch_step (state w))
                        (running_loss (state w))) w)).
Proof.
  unfold epoch_body.
  now rewrite bind_get_state, bind_set_state, bind_emit_prepend.
Qed.

Lemma with_state_same w : with_state (state w) w = w.
Proof. destruct w; reflexivity. Qed.

Lemma train_from_inside st :
  epoch st < num_epochs cfg ->
  0 <= epoch_step st <= Z.of_nat (len_dataloader cfg) ->
  train cfg env (init_world st)
  = prepend [EvEpochBegin st]
      (bind (for_each (range 0 (epoch_step st)) (step_body cfg env))
         (fun _ => remaining cfg env (epoch st) (epoch_step st))
         (init_world st)).
Proof.
  intros He Hs. unfold train. rewrite bind_get_state.
  cbn [init_world state]. rewrite range_cons by exact He. cbn [for_each].
  rewrite (bind_prepend_out (epoch_body cfg env (epoch st))
             (bind (steps_from cfg env 0) (fun _ => end_epoch)) _
             [EvEpochBegin st] (mkWorld st fresh_timers 0)
             (mkWorld st fresh_timers 0))
    by (rewrite epoch_body_unfold; cbn [state]; rewrite state_eta;
        reflexivity).
  f_equal. rewrite bind_assoc. unfold steps_from, remaining.
  rewrite (bind_cong_l _ (bind (for_each (range 0 (epoch_step st))
                                  (step_body cfg env))
                            (fun _ => for_each
                               (range (epoch_step st)
                                  (Z.of_nat (len_dataloader cfg)))
                               (step_body cfg env))))
    by (rewrite (range_split 0 (epoch_step st)) by lia; apply for_each_app).
  rewrite bind_assoc. reflexivity.
Qed.

End Resume.

Section SkippedSamples.

Variable cfg : Config.
Variable env : Env.

(** The fast-forward, whether or not a fetch raises: nothing is logged,
    and if it gets through, the data timer has gained one sample per
    skipped batch. *)
Lemma skip_phase_any n : forall lo w,
  (forall i, lo <= i < lo + Z.of_nat n -> i < epoch_step (state w)) ->
  let o := for_each (range lo (lo + Z.of_nat n)) (step_body cfg env) w in
  first_log (events o) = None
  /\ ckpts (events o) = []
  /\ (res o = Ok tt ->
      state (world o) = state w
      /\ LocalTimer.measurements (get_timer Data (timers (world o)))
         = LocalTimer.measurements (get_timer Data (timers w))
           ++ skip_samples env (clock w) n
      /\ forall i, lo <= i < lo + Z.of_nat n ->
           fetch env (epoch (state w)) i = None).
Proof.
  induction n as [|n IH]; intros lo w Hskip; cbv zeta.
  - rewrite range_nil by lia. cbn. rewrite app_nil_r.
    repeat split; auto. intros i Hi. lia.
  - rewrite range_cons by lia. cbn [for_each].
    assert (Hlt : lo < epoch_step (state w)) by (apply Hskip; lia).
    destruct (fetch env (epoch (state w)) lo) as [x|] eqn:Hf.
    + rewrite (bind_out_raise _ _ w x (aborted Data w) [EvFetch (state w) lo])
        by now apply step_body_fetch_fails.
      cbn [res events]. repeat split; discriminate.
    + rewrite (bind_out _ _ w tt (timed env Data w) [EvFetch (state w) lo])
        by (rewrite (step_body_skipped cfg env lo w Hlt), data_stage_run, Hf;
            reflexivity).
      replace (lo + Z.of_nat (S n)) with (lo + 1 + Z.of_nat n) by lia.
      destruct (IH (lo + 1) (timed env Data w)) as (Hnone & Hnock & Hok).
      { intros i Hi. rewrite timed_state. apply Hskip. lia. }
      unfold prepend. cbn [res world events app first_log ckpts].
      split; [exact Hnone|]. split; [exact Hnock|].
      intros Hres. destruct (Hok Hres) as (Hst & Hms & Hfetch).
      rewrite Hst, Hms, timed_state, timed_same.
      cbn [skip_samples clock timed]. rewrite <- app_assoc.
      repeat split. intros i Hi.
      destruct (Z.eq_dec i lo) as [->|Hne]; [exact Hf|].
      rewrite timed_state in Hfetch. apply Hfetch. lia.
Qed.

Lemma carries_remaining pre e s : carries pre (remaining cfg env e s).
Proof.
  unfold remaining.
  apply carries_bind; [apply carries_for_each; intros i; apply carries_step|].
  intros _. apply carries_bind; [apply carries_end_epoch|].
  intros _. apply carries_for_each. intros e'. apply carries_epoch.
Qed.

(** C10.  A skipped iteration whose fetch returns ends normally, hands
    nothing to the model, and leaves the data timer with exactly one more
    sample, the time of its data stage.  In a run that starts from a state
    with [epoch_step = s], the first record that is logged reports a data
    average [avg_elapsed_ms] taken over a list that begins with the [s]
    samples of the skipped iterations. *)
Theorem skipped_steps_are_timed :
  (forall i w,
     i < epoch_step (state w) ->
     fetch env (epoch (state w)) i = None ->
     let o := step_body cfg env i w in
     res o = Ok tt
     /\ processed (events o) = []
     /\ LocalTimer.measurements (get_timer Data (timers (world o)))
        = LocalTimer.measurements (get_timer Data (timers w))
          ++ [(time_at env (S (clock w)) - time_at env (clock w))%Q])
  /\ (forall st info,
        0 <= epoch_step st <= Z.of_nat (len_dataloader cfg) ->
        first_log (events (train cfg env (init_world st))) = Some info ->
        let skipped := skip_samples env 0 (Z.to_nat (epoch_step st)) in
        length skipped = Z.to_nat (epoch_step st)
        /\ exists rest,
             LocalTimer.avg_elapsed_ms (LocalTimer.mk (skipped ++ rest) None)
             = Ok (info_time_data info)).
Proof.
  split.
  - intros i w Hlt Hf. cbv zeta.
    rewrite (step_body_skipped cfg env i w Hlt), data_stage_run, Hf.
    cbn [res world events processed]. repeat split.
  - intros st info Hs Hlog. cbv zeta.
    split; [apply skip_samples_length|].
    destruct (Z.lt_ge_cases (epoch st) (num_epochs cfg)) as [He|He].
    2:{ unfold train in Hlog. rewrite bind_get_state in Hlog.
        cbn [init_world state] in Hlog. rewrite range_nil in Hlog by lia.
        discriminate. }
    rewrite (train_from_inside cfg env st He Hs) in Hlog.
    unfold prepend in Hlog. cbn [events app first_log] in Hlog.
    destruct (skip_phase_any (Z.to_nat (epoch_step st)) 0 (init_world st))
      as (Hnone & _ & Hok).
    { intros i Hi. cbn [init_world state]. lia. }
    replace (0 + Z.of_nat (Z.to_nat (epoch_step st))) with (epoch_step st)
      in Hnone, Hok by lia.
    unfold bind in Hlog.
    destruct (res (for_each (range 0 (epoch_step st)) (step_body cfg env)
                     (init_world st))) as [[]|x] eqn:Hres;
      cbn [events] in Hlog; [|congruence].
    rewrite first_log_app, Hnone in Hlog.
    destruct (Hok eq_refl) as (_ & Hms & _).
    cbn [init_world timers clock] in Hms.
    destruct (carries_remaining
                (skip_samples env 0 (Z.to_nat (epoch_step st)))
                (epoch st) (epoch_step st)
                (world (for_each (range 0 (epoch_step st)) (step_body cfg env)
                          (init_world st)))) as [Hinc _].
    { exists []. rewrite Hms. now rewrite app_nil_r. }
    destruct (Hinc info Hlog) as [rest [_ Havg]]. now exists rest.
Qed.

End SkippedSamples.

Lemma skipped_steps_are_timed_witness :
  let env := mkEnv (fun n => inject_Z (Z.of_nat (n * n))) (fun _ _ => None)
                   (fun _ _ _ => None) (fun _ _ => Ok 1%Q) (fun _ _ => None)
                   (fun _ _ => None) in
  let cfg := mkConfig 1 3 5 4 0 in
  let st := mkState 0 2 2 (5#2) in
  exists info rest,
    first_log (events (train cfg env (init_world st))) = Some info
    /\ LocalTimer.avg_elapsed_ms (LocalTimer.mk ([1; 5] ++ rest)%Q None)
       = Ok (info_time_data info).
Proof.
  intros env cfg st.
  assert (Hs : 0 <= epoch_step st <= Z.of_nat (len_dataloader cfg))
    by (cbn; lia).
  destruct (first_log (events (train cfg env (init_world st))))
    as [info|] eqn:Hlog; [|vm_compute in Hlog; discriminate].
  destruct (proj2 (skipped_steps_are_timed cfg env) st info Hs Hlog)
    as [_ [rest Havg]].
  exists info, rest. split; [reflexivity|exact Havg].
Defined.

(** ** Runs that agree on the counters *)

Section Insensitive.

Variable cfg : Config.
Variable env : Env.

Lemma counters_inv st1 st2 :
  counters st1 = counters st2 ->
  epoch st1 = epoch st2 /\ epoch_step st1 = epoch_step st2
  /\ global_step st1 = global_step st2.
Proof. unfold counters. intros [= -> -> ->]. auto. Qed.

Lemma erase_state_eq st1 st2 :
  counters st1 = counters st2 -> erase_state st1 = erase_state st2.
Proof.
  intros H. apply counters_inv in H as (He & Hes & Hgs).
  unfold erase_state. now rewrite He, Hes, Hgs.
Qed.

Lemma insensitive_bind {A B} (c : M A) (k : A -> M B) :
  insensitive c -> (forall a, insensitive (k a)) -> insensitive (bind c k).
Proof.
  intros Hc Hk w1 w2 Hw. destruct (Hc w1 w2 Hw) as (Hres & Hev & Hcnt).
  unfold bind, alike. rewrite <- Hres.
  destruct (res (c w1)) as [a|e]; cbn [res world events].
  - destruct (Hk a _ _ Hcnt) as (Hres' & Hev' & Hcnt').
    rewrite !map_app, Hev, Hev'. auto.
  - auto.
Qed.

Lemma insensitive_for_each {A} (xs : list A) body :
  (forall x, insensitive (body x)) -> insensitive (for_each xs body).
Proof.
  intros Hbody. induction xs as [|x xs IH]; cbn [for_each].
  - intros w1 w2 Hw. repeat split; auto.
  - apply insensitive_bind; auto.
Qed.

Lemma alike_prepend {A} evs1 evs2 (o1 o2 : Out A) :
  map erase evs1 = map erase evs2 -> alike o1 o2 ->
  alike (prepend evs1 o1) (prepend evs2 o2).
Proof.
  intros Hevs (Hres & Hev & Hcnt). unfold prepend, alike.
  cbn [res world events]. rewrite !map_app, Hevs, Hev. auto.
Qed.

Lemma insensitive_after_stages i loss w1 w2 :
  counters (state w1) = counters (state w2) ->
  all_sampled (timers w1) -> all_sampled (timers w2) ->
  alike (after_stages cfg i loss w1) (after_stages cfg i loss w2).
Proof.
  intros Hw Hs1 Hs2.
  rewrite (after_stages_run cfg i loss w1 Hs1),
          (after_stages_run cfg i loss w2 Hs2).
  cbv zeta.
  apply counters_inv in Hw as (He & Hes & Hgs).
  assert (Hadv : erase_state (advance loss (state w1))
                 = erase_state (advance loss (state w2))).
  { unfold erase_state, advance. cbn. now rewrite He, Hes, Hgs. }
  assert (Hgs1 : global_step (advance loss (state w1))
                 = global_step (advance loss (state w2))).
  { cbn. now rewrite Hgs. }
  rewrite Hgs1.
  apply alike_prepend; [cbn [map erase]; now rewrite Hadv|].
  destruct (log_freq cfg =? 0).
  { unfold alike, counters. cbn. now rewrite He, Hes, Hgs. }
  destruct (global_step (advance loss (state w2)) mod log_freq cfg =? 0).
  - apply alike_prepend.
    { cbn [map erase]. rewrite Hadv. do 2 f_equal.
      unfold erase_info, report. cbn. now rewrite He, Hes. }
    destruct (ckpt_freq cfg =? 0);
      [|destruct (global_step (advance loss (state w2)) mod ckpt_freq cfg =? 0)];
      unfold alike, counters; cbn; unfold erase_state; cbn;
      rewrite ?He, ?Hes, ?Hgs; auto.
  - apply alike_prepend; [reflexivity|].
    destruct (ckpt_freq cfg =? 0);
      [|destruct (global_step (advance loss (state w2)) mod ckpt_freq cfg =? 0)];
      unfold alike, counters; cbn; unfold erase_state; cbn;
      rewrite ?He, ?Hes, ?Hgs; auto.
Qed.

Lemma insensitive_step i : insensitive (step_body cfg env i).
Proof.
  intros w1 w2 Hw.
  pose proof (erase_state_eq _ _ Hw) as Her.
  pose proof (counters_inv _ _ Hw) as (He & Hes & Hgs).
  destruct (fetch env (epoch (state w1)) i) as [x|] eqn:Hf.
  { rewrite (step_body_fetch_fails cfg env i w1 x Hf).
    rewrite He in Hf. rewrite (step_body_fetch_fails cfg env i w2 x Hf).
    unfold alike. cbn [res world events map erase aborted state].
    now rewrite Her. }
  destruct (Z.lt_ge_cases i (epoch_step (state w1))) as [Hlt|Hge].
  { rewrite (step_body_skipped cfg env i w1 Hlt), data_stage_run, Hf.
    rewrite He in Hf. rewrite Hes in Hlt.
    rewrite (step_body_skipped cfg env i w2 Hlt), data_stage_run, Hf.
    unfold alike. cbn [res world events map erase timed state].
    now rewrite Her. }
  destruct (stages_result env (epoch (state w1)) i) as [loss|x] eqn:Hs.
  2:{ destruct (step_body_stage_fails cfg env i w1 x Hge Hf Hs)
        as (w1' & Hst1 & _ & ->).
      rewrite He in Hf, Hs. rewrite Hes in Hge.
      destruct (step_body_stage_fails cfg env i w2 x Hge Hf Hs)
        as (w2' & Hst2 & _ & ->).
      unfold alike. cbn [res world events map erase].
      rewrite Hst1, Hst2, Her. unfold stage_events. rewrite He.
      destruct (barrier env (epoch (state w2)) i 0); cbn [map erase];
        now rewrite ?Her. }
  destruct (step_body_stages_ok cfg env i w1 loss Hge Hf Hs)
    as (w1' & Hst1 & Hsam1 & _ & _ & ->).
  rewrite He in Hf, Hs. rewrite Hes in Hge.
  destruct (step_body_stages_ok cfg env i w2 loss Hge Hf Hs)
    as (w2' & Hst2 & Hsam2 & _ & _ & ->).
  apply alike_prepend; [cbn [map erase]; now rewrite Her|].
  apply insensitive_after_stages; auto. now rewrite Hst1, Hst2.
Qed.

Lemma insensitive_end_epoch : insensitive end_epoch.
Proof.
  intros w1 w2 Hw. apply counters_inv in Hw as (He & Hes & Hgs).
  unfold alike, end_epoch, counters, erase_state, bind, get_state, set_state, emit.
  cbn. now rewrite He, Hgs.
Qed.

Lemma insensitive_epoch e : insensitive (epoch_body cfg env e).
Proof.
  intros w1 w2 Hw. rewrite !epoch_body_unfold.
  apply counters_inv in Hw as (He & Hes & Hgs).
  apply alike_prepend.
  { cbn [map erase]. unfold erase_state. cbn. now rewrite Hes, Hgs. }
  apply (insensitive_bind (steps_from cfg env 0) (fun _ => end_epoch)).
  - apply insensitive_for_each. intros i. apply insensitive_step.
  - intros _. apply insensitive_end_epoch.
  - unfold counters. cbn. now rewrite Hes, Hgs.
Qed.

Lemma insensitive_remaining e s : insensitive (remaining cfg env e s).
Proof.
  unfold remaining.
  apply insensitive_bind;
    [apply insensitive_for_each; intros i; apply insensitive_step|].
  intros _. apply insensitive_bind; [apply insensitive_end_epoch|].
  intros _. apply insensitive_for_each. intros e'. apply insensitive_epoch.
Qed.

End Insensitive.

(** ** Cutting a run at a checkpoint *)

Lemma app_split {A} (l1 l2 pre post : list A) (x : A) :
  l1 ++ l2 = pre ++ x :: post ->
  (exists mid, l1 = pre ++ x :: mid /\ post = mid ++ l2)
  \/ (exists pre', pre = l1 ++ pre' /\ l2 = pre' ++ x :: post).
Proof.
  revert pre. induction l1 as [|a l1 IH]; intros pre H.
  - right. exists pre. auto.
  - destruct pre as [|p pre]; cbn in H; injection H as -> H.
    + left. exists l1. auto.
    + destruct (IH pre H) as [[mid [-> ->]]|[pre' [-> ->]]].
      * left. exists mid. auto.
      * right. exists pre'. auto.
Qed.

Lemma no_ckpt_split l pre st b mid :
  ckpts l = [] -> l = pre ++ EvCkpt st b :: mid -> False.
Proof.
  intros Hn ->. rewrite ckpts_app in Hn. cbn in Hn.
  destruct (ckpts pre); discriminate.
Qed.

Lemma last_ckpt_split l s c pre st b mid :
  ckpts l = [] -> l ++ [EvCkpt s c] = pre ++ EvCkpt st b :: mid ->
  mid = [] /\ st = s.
Proof.
  intros Hn H. apply app_split in H as [[mid' [H _]]|[pre' [_ H]]].
  - exfalso. eapply no_ckpt_split; eauto.
  - destruct pre' as [|p pre']; cbn in H.
    + injection H as <- <- <-. auto.
    + injection H as _ H. destruct pre'; discriminate.
Qed.

Section Cut.

Variable cfg : Config.
Variable env : Env.

(** A checkpoint is the last thing an iteration does, and it is the state
    the iteration ends with. *)
Lemma step_ckpt_last i w pre st b mid :
  events (step_body cfg env i w) = pre ++ EvCkpt st b :: mid ->
  mid = [] /\ res (step_body cfg env i w) = Ok tt
  /\ state (world (step_body cfg env i w)) = st.
Proof.
  destruct (fetch env (epoch (state w)) i) as [x|] eqn:Hf.
  { rewrite (step_body_fetch_fails cfg env i w x Hf). cbn [events].
    intros H. exfalso. eapply no_ckpt_split; [|exact H]. reflexivity. }
  destruct (Z.lt_ge_cases i (epoch_step (state w))) as [Hlt|Hge].
  { rewrite (step_body_skipped cfg env i w Hlt), data_stage_run, Hf.
    cbn [events].
    intros H. exfalso. eapply no_ckpt_split; [|exact H]. reflexivity. }
  destruct (stages_result env (epoch (state w)) i) as [loss|x] eqn:Hs.
  2:{ destruct (step_body_stage_fails cfg env i w x Hge Hf Hs)
        as (w1 & _ & _ & ->).
      cbn [events]. intros H. exfalso. eapply no_ckpt_split; [|exact H].
      unfold stage_events.
      destruct (barrier env (epoch (state w)) i 0); reflexivity. }
  destruct (step_body_stages_ok cfg env i w loss Hge Hf Hs)
    as (w1 & Hst & Hsam & _ & _ & ->).
  rewrite (after_stages_run cfg i loss w1 Hsam). cbv zeta.
  unfold prepend.
  destruct (log_freq cfg =? 0).
  { cbn [res world events app]. intros H. exfalso.
    eapply no_ckpt_split; [|exact H]. reflexivity. }
  destruct (global_step (advance loss (state w1)) mod log_freq cfg =? 0);
    (destruct (ckpt_freq cfg =? 0);
     [cbn [res world events app]; intros H; exfalso;
      eapply no_ckpt_split; [|exact H]; reflexivity|]);
    (destruct (global_step (advance loss (state w1)) mod ckpt_freq cfg =? 0);
     [|cbn [res world events app]; intros H; exfalso;
       eapply no_ckpt_split; [|exact H]; reflexivity]);
    cbn [res world events app]; intros H.
  - apply (last_ckpt_split
             [EvFetch (state w) i; EvExec (state w) i;
              EvCounters (advance loss (state w1));
              EvLog (advance loss (state w1))
                (report cfg i (advance loss (state w1)) (timers w1))])
      in H as [-> ->]; [auto|reflexivity].
  - apply (last_ckpt_split
             [EvFetch (state w) i; EvExec (state w) i;
              EvCounters (advance loss (state w1))])
      in H as [-> ->]; [auto|reflexivity].
Qed.

(** An iteration that is not skipped and ends normally has fetched its
    batch and moved [epoch_step] on by one. *)
Lemma step_exec_ok i w :
  epoch_step (state w) <= i ->
  res (step_body cfg env i w) = Ok tt ->
  fetch env (epoch (state w)) i = None
  /\ epoch (state (world (step_body cfg env i w))) = epoch (state w)
  /\ epoch_step (state (world (step_body cfg env i w)))
     = epoch_step (state w) + 1.
Proof.
  intros Hge.
  destruct (fetch env (epoch (state w)) i) as [x|] eqn:Hf.
  { rewrite (step_body_fetch_fails cfg env i w x Hf). discriminate. }
  destruct (stages_result env (epoch (state w)) i) as [loss|x] eqn:Hs.
  2:{ destruct (step_body_stage_fails cfg env i w x Hge Hf Hs)
        as (w1 & _ & _ & ->). discriminate. }
  destruct (step_body_stages_ok cfg env i w loss Hge Hf Hs)
    as (w1 & Hst & Hsam & _ & _ & ->).
  rewrite (after_stages_run cfg i loss w1 Hsam). cbv zeta.
  unfold prepend. rewrite Hst.
  destruct (log_freq cfg =? 0); [discriminate|].
  destruct (global_step (advance loss (state w)) mod log_freq cfg =? 0);
    (destruct (ckpt_freq cfg =? 0); [discriminate|]);
    cbn; auto.
Qed.

Lemma remaining_step e s w :
  s < Z.of_nat (len_dataloader cfg) ->
  remaining cfg env e s w
  = bind (step_body cfg env s) (fun _ => remaining cfg env e (s + 1)) w.
Proof.
  intros Hs. unfold remaining. rewrite range_cons by exact Hs.
  cbn [for_each]. now rewrite bind_assoc.
Qed.

Lemma remaining_end e s w :
  Z.of_nat (len_dataloader cfg) <= s ->
  remaining cfg env e s w
  = bind end_epoch
      (fun _ => for_each (range (e + 1) (num_epochs cfg)) (epoch_body cfg env)) w.
Proof.
  intros Hs. unfold remaining. rewrite range_nil by exact Hs.
  cbn [for_each]. now rewrite bind_ret.
Qed.

Lemma next_epoch e w :
  e < num_epochs cfg ->
  let st' := mkState e (global_step (state w)) (epoch_step (state w))
               (running_loss (state w)) in
  for_each (range e (num_epochs cfg)) (epoch_body cfg env) w
  = prepend [EvEpochBegin st'] (remaining cfg env e 0 (with_state st' w)).
Proof.
  intros He st'. rewrite range_cons by exact He. cbn [for_each].
  rewrite (bind_prepend_out _ _ _ _ _ _ (epoch_body_unfold cfg env e w)).
  fold st'. f_equal. now rewrite bind_assoc.
Qed.

End Cut.

Section CutRemaining.

Variable cfg : Config.
Variable env : Env.

Lemma end_epoch_run w :
  let st' := mkState (epoch (state w)) (global_step (state w)) 0
               (running_loss (state w)) in
  end_epoch w = mkOut (Ok tt) (with_state st' w) [EvEpochEnd st'].
Proof. reflexivity. Qed.

(** What follows a checkpoint in a run is the rest of the run from the
    position and the state of the checkpoint. *)
Lemma remaining_split m : forall e,
  Z.to_nat (num_epochs cfg - e) = m ->
  forall n s, Z.to_nat (Z.of_nat (len_dataloader cfg) - s) = n ->
  forall w pre st b post,
    at_position cfg env e s w ->
    events (remaining cfg env e s w) = pre ++ EvCkpt st b :: post ->
    exists wc,
      state wc = st
      /\ at_position cfg env (epoch st) (epoch_step st) wc
      /\ post = events (remaining cfg env (epoch st) (epoch_step st) wc)
      /\ res (remaining cfg env e s w)
         = res (remaining cfg env (epoch st) (epoch_step st) wc).
Proof.
  induction m as [|m IHm]; intros e Hm.
  { intros n s _ w pre st b post (_ & _ & _ & He & _) _. lia. }
  induction n as [|n IHn]; intros s Hn w pre st b post Hpos Hev;
    destruct Hpos as (Hpe & Hps & Hs & He & Hfetch).
  - (* the epoch is over: its end, then the next epoch *)
    rewrite remaining_end in Hev |- * by lia.
    rewrite (bind_out _ _ w tt _ _ (end_epoch_run w)) in Hev |- *.
    set (w1 := with_state _ w) in *.
    unfold prepend in Hev. cbn [events app] in Hev.
    destruct pre as [|p pre]; cbn [app] in Hev; [discriminate|].
    injection Hev as _ Hev.
    destruct (Z.lt_ge_cases (e + 1) (num_epochs cfg)) as [Hnext|Hlast].
    2:{ rewrite range_nil in Hev by lia. cbn in Hev.
        destruct pre; discriminate. }
    rewrite (next_epoch cfg env (e + 1) w1 Hnext) in Hev |- *.
    cbv zeta in Hev |- *.
    set (w2 := with_state _ w1) in *.
    unfold prepend in Hev. cbn [events app] in Hev.
    destruct pre as [|p' pre]; cbn [app] in Hev; [discriminate|].
    injection Hev as _ Hev.
    assert (Hm' : Z.to_nat (num_epochs cfg - (e + 1)) = m) by lia.
    destruct (IHm (e + 1) Hm' _ 0 eq_refl w2 pre st b post) as (wc & Hwc).
    { subst w2 w1. unfold at_position. cbn.
      repeat split; try lia; try (intros j Hj; lia). }
    { exact Hev. }
    exists wc. unfold prepend. cbn [res]. exact Hwc.
  - (* an iteration, then what remains after it *)
    assert (Hlt : s < Z.of_nat (len_dataloader cfg)) by lia.
    rewrite (remaining_step cfg env e s w Hlt) in Hev |- *.
    unfold bind in Hev |- *.
    destruct (res (step_body cfg env s w)) as [[]|x] eqn:Hres;
      cbn [res world events] in Hev |- *.
    2:{ destruct (step_ckpt_last cfg env s w pre st b post Hev)
          as (_ & Hok & _). congruence. }
    destruct (step_exec_ok cfg env s w ltac:(lia) Hres) as (Hf & He1 & Hs1).
    set (w1 := world (step_body cfg env s w)) in *.
    assert (Hpos1 : at_position cfg env e (s + 1) w1).
    { unfold at_position. repeat split; try lia.
      intros j Hj. destruct (Z.eq_dec j s) as [->|Hne].
      - now rewrite <- Hpe.
      - apply Hfetch. lia. }
    apply app_split in Hev as [[mid [Hstep ->]]|[pre' [-> Hrest]]].
    + destruct (step_ckpt_last cfg env s w pre st b mid Hstep)
        as (-> & _ & Hst).
      fold w1 in Hst. exists w1. subst st.
      rewrite He1, Hs1, Hpe, Hps. cbn [app]. auto.
    + assert (Hn' : Z.to_nat (Z.of_nat (len_dataloader cfg) - (s + 1)) = n)
        by lia.
      exact (IHn (s + 1) Hn' w1 pre' st b post Hpos1 Hrest).
Qed.

End CutRemaining.

Lemma res_bind_ok {A B} (c : M A) (k : A -> M B) w a :
  res (c w) = Ok a -> res (bind c k w) = res (k a (world (c w))).
Proof. intros H. unfold bind. now rewrite H. Qed.

Section RemainingEnvOk.

Variable cfg : Config.
Variable env : Env.
Hypothesis Henv : env_ok env.
Hypothesis Hlog : log_freq cfg <> 0.
Hypothesis Hckpt : ckpt_freq cfg <> 0.

(** With external calls that return and intervals that are not zero, what
    remains of a run at batch index [s] of epoch [e] ends normally and
    hands to the model the batches [s ..] of epoch [e] and then every
    batch of every later epoch. *)
Lemma remaining_processed m : forall e s w,
  Z.to_nat (num_epochs cfg - (e + 1)) = m ->
  epoch (state w) = e -> epoch_step (state w) = s ->
  0 <= s <= Z.of_nat (len_dataloader cfg) ->
  res (remaining cfg env e s w) = Ok tt
  /\ processed (events (remaining cfg env e s w))
     = map (pair e) (range s (Z.of_nat (len_dataloader cfg)))
       ++ whole_epochs cfg (e + 1) (num_epochs cfg).
Proof.
  induction m as [|m IH]; intros e s w Hm He Hes Hs;
    unfold remaining;
    destruct (exec_phase cfg env Henv Hlog Hckpt
                (Z.to_nat (Z.of_nat (len_dataloader cfg) - s)) s w
                ltac:(lia) Hes) as (Hres & _ & _ & Hproc & _);
    rewrite He in Hproc;
    rewrite (res_bind_ok _ _ w tt Hres), (events_bind_ok _ _ w tt Hres),
      processed_app, Hproc;
    set (w1 := world (for_each _ _ w));
    rewrite (bind_out _ _ w1 tt _ _ (end_epoch_run w1));
    unfold prepend; cbn [res events app processed].
  - unfold whole_epochs. rewrite !range_nil by lia. cbn. auto.
  - assert (Hnext : e + 1 < num_epochs cfg) by lia.
    rewrite (next_epoch cfg env (e + 1) _ Hnext). cbv zeta.
    unfold prepend. cbn [res events app processed].
    destruct (IH (e + 1) 0
                (with_state
                   (mkState (e + 1)
                      (global_step (state (with_state
                         (mkState (epoch (state w1)) (global_step (state w1)) 0
                            (running_loss (state w1))) w1)))
                      (epoch_step (state (with_state
                         (mkState (epoch (state w1)) (global_step (state w1)) 0
                            (running_loss (state w1))) w1)))
                      (running_loss (state (with_state
                         (mkState (epoch (state w1)) (global_step (state w1)) 0
                            (running_loss (state w1))) w1))))
                   (with_state
                      (mkState (epoch (state w1)) (global_step (state w1)) 0
                         (running_loss (state w1))) w1)))
      as [Hres' Hproc']; try reflexivity; try lia.
    rewrite Hres', Hproc'. split; [reflexivity|].
    f_equal. unfold whole_epochs.
    rewrite (range_cons (e + 1) (num_epochs cfg)) by lia. reflexivity.
Qed.

End RemainingEnvOk.

(** ** Resuming from a checkpoint *)

Lemma counters_erase_state st : counters (erase_state st) = counters st.
Proof. reflexivity. Qed.

Lemma trajectory_erase tr : trajectory (map erase tr) = trajectory tr.
Proof.
  induction tr as [|ev tr IH]; [reflexivity|].
  destruct ev; cbn; rewrite ?IH; reflexivity.
Qed.

Lemma processed_erase tr : processed (map erase tr) = processed tr.
Proof.
  induction tr as [|ev tr IH]; [reflexivity|].
  destruct ev; cbn; rewrite ?IH; reflexivity.
Qed.

Lemma trajectory_fetches st l : trajectory (map (EvFetch st) l) = [].
Proof. induction l; cbn; auto. Qed.

Lemma processed_fetches st l : processed (map (EvFetch st) l) = [].
Proof. induction l; cbn; auto. Qed.

(** C4.  Take any run that starts from a state within the counter bounds
    (the zero state, or a restored one) and any checkpoint it saves, with
    state [st]; let [post] be what the run does after that checkpoint.  A run
    that starts from a state [st'] with the counters of [st] (the document
    the leader wrote) ends the same way, and what it does is: begin the
    epoch of [st], fetch the batches below [epoch_step st] without
    processing them, and then exactly [post], up to the accumulated loss and
    the timings.  So it hands the same batches to the model, in the same
    order, and its counters go through the same values. *)
Theorem resume_idempotence (cfg : Config) (env : Env)
    (st0 st st' : TrainingState) (b : bool) (pre post : list event) :
  counters_ok cfg st0 ->
  events (train cfg env (init_world st0)) = pre ++ EvCkpt st b :: post ->
  counters st' = counters st ->
  let o := train cfg env (init_world st0) in
  let o' := train cfg env (init_world st') in
  res o' = res o
  /\ map erase (events o')
     = EvEpochBegin (erase_state st)
       :: map (EvFetch (erase_state st)) (range 0 (epoch_step st))
       ++ map erase post
  /\ processed (events o') = processed post
  /\ trajectory (events o') = trajectory post
  /\ (env_ok env -> log_freq cfg <> 0 -> ckpt_freq cfg <> 0 ->
      processed (events o')
      = map (pair (epoch st))
            (range (epoch_step st) (Z.of_nat (len_dataloader cfg)))
        ++ whole_epochs cfg (epoch st + 1) (num_epochs cfg)).
Proof.
  intros Hok0 Hev Hcnt o o'.
  assert (Hmain :
    exists wc,
      state wc = st
      /\ at_position cfg env (epoch st) (epoch_step st) wc
      /\ post = events (remaining cfg env (epoch st) (epoch_step st) wc)
      /\ res o = res (remaining cfg env (epoch st) (epoch_step st) wc)).
  { subst o. destruct Hok0 as [Hs0 _].
    destruct (Z.lt_ge_cases (epoch st0) (num_epochs cfg)) as [He0|He0].
    2:{ unfold train in Hev. rewrite bind_get_state in Hev.
        cbn [init_world state] in Hev. rewrite range_nil in Hev by lia.
        destruct pre; discriminate. }
    rewrite (train_from_inside cfg env st0 He0 Hs0) in Hev |- *.
    unfold prepend in Hev |- *. cbn [res events app] in Hev |- *.
    destruct pre as [|p pre]; cbn [app] in Hev; [discriminate|].
    injection Hev as _ Hev.
    destruct (skip_phase_any cfg env (Z.to_nat (epoch_step st0)) 0
                (init_world st0)) as (_ & Hnock & Hskip).
    { intros i Hi. cbn [init_world state]. lia. }
    replace (0 + Z.of_nat (Z.to_nat (epoch_step st0))) with (epoch_step st0)
      in Hnock, Hskip by lia.
    unfold bind in Hev |- *.
    destruct (res (for_each (range 0 (epoch_step st0)) (step_body cfg env)
                     (init_world st0))) as [[]|x] eqn:Hres;
      cbn [res world events] in Hev |- *.
    2:{ exfalso. eapply no_ckpt_split; eauto. }
    destruct (Hskip eq_refl) as (Hst & _ & Hfetch).
    cbn [init_world state] in Hst, Hfetch.
    apply app_split in Hev as [[mid [Hin _]]|[pre' [_ Hrest]]].
    { exfalso. eapply no_ckpt_split; eauto. }
    eapply (remaining_split cfg env _ (epoch st0) eq_refl _ (epoch_step st0)
              eq_refl); [|exact Hrest].
    unfold at_position. rewrite Hst. repeat split; try lia.
    intros j Hj. apply Hfetch. lia. }
  destruct Hmain as (wc & Hwc & Hpos & Hpost & Hres).
  destruct Hpos as (_ & _ & Hs & He & Hfetch).
  pose proof (counters_inv _ _ Hcnt) as (He' & Hes' & _).
  assert (Hrun' :
    exists w2, state w2 = st'
      /\ o' = prepend (EvEpochBegin st'
                       :: map (EvFetch st') (range 0 (epoch_step st)))
                (remaining cfg env (epoch st) (epoch_step st) w2)).
  { subst o'. rewrite train_from_inside by (rewrite ?He', ?Hes'; lia).
    rewrite He', Hes'.
    destruct (skip_phase cfg env (Z.to_nat (epoch_step st)) 0 (init_world st'))
      as (w2 & Hskip & Hst2 & _).
    { intros i Hi. cbn [init_world state]. rewrite He', Hes'.
      split; [lia|apply Hfetch; lia]. }
    replace (0 + Z.of_nat (Z.to_nat (epoch_step st))) with (epoch_step st)
      in Hskip by lia.
    exists w2. split; [exact Hst2|].
    rewrite (bind_out _ _ _ tt w2 _ Hskip), prepend_prepend. reflexivity. }
  destruct Hrun' as (w2 & Hst2 & ->).
  destruct (insensitive_remaining cfg env (epoch st) (epoch_step st) w2 wc)
    as (Hr & Hevs & _).
  { now rewrite Hst2, Hwc. }
  assert (Herased :
    map erase (events (prepend (EvEpochBegin st'
                                :: map (EvFetch st') (range 0 (epoch_step st)))
                         (remaining cfg env (epoch st) (epoch_step st) w2)))
    = EvEpochBegin (erase_state st)
      :: map (EvFetch (erase_state st)) (range 0 (epoch_step st))
      ++ map erase post).
  { unfold prepend. cbn [events app map erase].
    rewrite map_app, map_map. cbn [erase].
    rewrite (erase_state_eq _ _ Hcnt), Hevs, Hpost. reflexivity. }
  split; [unfold prepend; cbn [res]; congruence|].
  split; [exact Herased|].
  split; [|split].
  - rewrite <- processed_erase, Herased. cbn [processed].
    now rewrite processed_app, processed_fetches, processed_erase.
  - rewrite <- trajectory_erase, Herased. cbn [trajectory].
    now rewrite trajectory_app, trajectory_fetches, trajectory_erase.
  - intros Henv Hlog Hckpt. unfold prepend. cbn [events app processed].
    rewrite processed_app, processed_fetches. cbn [app].
    apply (remaining_processed cfg env Henv Hlog Hckpt _ (epoch st)
             (epoch_step st) w2 eq_refl); rewrite ?Hst2; auto.
Qed.

Lemma resume_idempotence_witness :
  let env := mkEnv (fun n => inject_Z (Z.of_nat n)) (fun _ _ => None)
                   (fun _ _ _ => None) (fun _ _ => Ok 1%Q) (fun _ _ => None)
                   (fun _ _ => None) in
  let cfg := mkConfig 2 3 2 3 0 in
  let tr := events (train cfg env (init_world zero_state)) in
  let st := mkState 0 2 2 2 in
  tr = firstn 7 tr ++ EvCkpt st true :: skipn 8 tr
  /\ trajectory (events (train cfg env (init_world st)))
     = [(0, 3, 3); (1, 1, 4); (1, 2, 5); (1, 3, 6)]
  /\ processed (events (train cfg env (init_world st)))
     = [(0, 2); (1, 0); (1, 1); (1, 2)].
Proof.
  intros env cfg tr st.
  assert (Hok : counters_ok cfg zero_state) by (unfold counters_ok; cbn; lia).
  assert (Hcut : tr = firstn 7 tr ++ EvCkpt st true :: skipn 8 tr)
    by (vm_compute; reflexivity).
  split; [exact Hcut|].
  destruct (resume_idempotence cfg env zero_state st st true
              (firstn 7 tr) (skipn 8 tr) Hok Hcut eq_refl)
    as (_ & _ & Hproc & Htraj & _).
  split.
  - rewrite Htraj. vm_compute. reflexivity.
  - rewrite Hproc. vm_compute. reflexivity.
Defined.

(** ** Data preparation *)

Module DataPrepFacts.
Import DataPrep.

Lemma firstn_add_skipn {A} (a b : nat) (t : list A) :
  firstn (a + b) t = firstn a t ++ firstn b (skipn a t).
Proof.
  revert t. induction a as [|a IH]; intros t; cbn.
  - reflexivity.
  - destruct t as [|x t]; cbn.
    + now rewrite firstn_nil.
    + now rewrite IH.
Qed.

Lemma skipn_add {A} (a b : nat) (t : list A) :
  skipn (a + b) t = skipn b (skipn a t).
Proof.
  revert t. induction a as [|a IH]; intros t; cbn.
  - reflexivity.
  - destruct t as [|x t]; cbn; [now rewrite skipn_nil|apply IH].
Qed.

(** A slice with bounds [0 <= a <= a + n]. *)
Lemma py_slice_nonneg {A} (a n : Z) (t : list A) :
  0 <= a -> 0 <= n ->
  py_slice a (a + n) t = firstn (Z.to_nat n) (skipn (Z.to_nat a) t).
Proof.
  intros Ha Hn. unfold py_slice, clamp_index.
  destruct (a <? 0) eqn:E1; [apply Z.ltb_lt in E1; lia|].
  destruct (a + n <? 0) eqn:E2; [apply Z.ltb_lt in E2; lia|].
  set (len := Z.of_nat (length t)).
  destruct (Z.le_gt_cases len a) as [Hout|Hin].
  - rewrite (skipn_all2 t (n := Z.to_nat (Z.min a len))) by (subst len; lia).
    rewrite (skipn_all2 t (n := Z.to_nat a)) by (subst len; lia).
    now rewrite !firstn_nil.
  - replace (Z.min a len) with a by lia.
    destruct (Z.le_gt_cases (a + n) len) as [Hfit|Hover].
    + replace (Z.min (a + n) len - a) with n by lia. reflexivity.
    + replace (Z.min (a + n) len - a) with (len - a) by lia.
      rewrite !firstn_all2; try reflexivity;
        rewrite length_skipn; subst len; lia.
Qed.

(** The start indices of the chunks, for a positive chunk length. *)
Lemma range_step_pos (total s : Z) :
  0 < s -> 0 <= total ->
  range_step 0 total s
  = Done (map (fun k => s * Z.of_nat k)
              (seq 0 (Z.to_nat ((total + s - 1) / s)))).
Proof.
  intros Hs Ht. unfold range_step.
  destruct (s =? 0) eqn:E; [apply Z.eqb_eq in E; lia|].
  destruct (0 <? s) eqn:E1; [|apply Z.ltb_ge in E1; lia].
  now rewrite Z.sub_0_r.
Qed.

Lemma chunks_starts (s : Z) (n : nat) (t : list Z) :
  0 < s ->
  chunks s (map (fun k => s * Z.of_nat k) (seq 0 n)) t
  = map (fun k => firstn (Z.to_nat s) (skipn (Z.to_nat s * k) t)) (seq 0 n).
Proof.
  intros Hs. unfold chunks. rewrite map_map. apply map_ext. intros k.
  rewrite py_slice_nonneg by lia. f_equal. f_equal. lia.
Qed.

Lemma concat_chunks_nat (s n : nat) : forall t : list Z,
  concat (map (fun k => firstn s (skipn (s * k) t)) (seq 0 n))
  = firstn (s * n) t.
Proof.
  induction n as [|n IH]; intros t.
  - now rewrite Nat.mul_0_r.
  - cbn [seq map concat]. rewrite Nat.mul_0_r. cbn [skipn].
    rewrite <- seq_shift, map_map.
    rewrite (map_ext _ (fun k => firstn s (skipn (s * k) (skipn s t)))).
    + rewrite IH, Nat.mul_succ_r, Nat.add_comm. symmetry.
      apply firstn_add_skipn.
    + intros k. rewrite Nat.mul_succ_r, Nat.add_comm. now rewrite skipn_add.
Qed.

Lemma chunk_lengths_nat (s n : nat) (t : list Z) :
  (s * n <= length t)%nat ->
  Forall (fun c => length c = s)
         (map (fun k => firstn s (skipn (s * k) t)) (seq 0 n)).
Proof.
  intros Hfit. apply Forall_forall. intros c Hc.
  apply in_map_iff in Hc as [k [<- Hk]]. apply in_seq in Hk.
  rewrite length_firstn, length_skipn. nia.
Qed.

(** [cut_length] for a positive chunk length. *)
Lemma cut_length_pos (L s : Z) :
  0 < s -> 0 <= L ->
  exists total,
    cut_length L s = Done total
    /\ total = (if L >? s then (L / s) * s else L)
    /\ 0 <= total <= L /\ L - total < s
    /\ (s <= L -> total = (L / s) * s).
Proof.
  intros Hs HL. unfold cut_length, py_floordiv.
  destruct (s =? 0) eqn:E; [apply Z.eqb_eq in E; lia|].
  pose proof (Z.div_mod L s ltac:(lia)) as Hdm.
  pose proof (Z.mod_pos_bound L s Hs) as Hmod.
  destruct (L >? s) eqn:E1.
  - apply Z.gtb_lt in E1. eexists. split; [reflexivity|].
    split; [reflexivity|]. repeat split; try nia.
  - assert (L <= s) by (rewrite Z.gtb_ltb in E1; apply Z.ltb_ge in E1; lia).
    eexists. split; [reflexivity|]. split; [reflexivity|].
    repeat split; try lia.
    intros Hle. assert (L = s) as -> by lia.
    rewrite Z.div_same by lia. lia.
Qed.

Lemma dict_get_map {V W} (f : V -> W) k (d : dict V) :
  dict_get k (map (fun kv => (fst kv, f (snd kv))) d)
  = option_map f (dict_get k d).
Proof.
  induction d as [|[k' v] d IH]; cbn; [reflexivity|].
  destruct (String.eqb k k'); [reflexivity|exact IH].
Qed.

(** Reading back after a write: the written key gives the new value, every
    other key what it gave before. *)
Lemma dict_get_set {V} k k0 (v : V) (d : dict V) :
  dict_get k (dict_set k0 v d)
  = if String.eqb k k0 then Some v else dict_get k d.
Proof.
  induction d as [|[k' v'] d IH]; cbn.
  - destruct (String.eqb k k0); reflexivity.
  - destruct (String.eqb k0 k') eqn:E0; cbn.
    + apply String.eqb_eq in E0. subst k'.
      destruct (String.eqb k k0); reflexivity.
    + destruct (String.eqb k k') eqn:E1.
      * apply String.eqb_eq in E1. subst k'.
        rewrite String.eqb_sym in E0. now rewrite E0.
      * exact IH.
Qed.

Lemma dict_get_In {V} k (v : V) (d : dict V) :
  dict_get k d = Some v -> In (k, v) d.
Proof.
  induction d as [|[k' v'] d IH]; cbn; [discriminate|].
  destruct (String.eqb k k') eqn:E.
  - apply String.eqb_eq in E. subst k'. intros [= ->]. now left.
  - intros H. right. now apply IH.
Qed.

Lemma In_dict_set {V} k (v : V) k0 v0 (d : dict V) :
  In (k, v) (dict_set k0 v0 d) -> (k, v) = (k0, v0) \/ In (k, v) d.
Proof.
  induction d as [|[k' v'] d IH]; cbn.
  - intros [H|[]]. now left.
  - destruct (String.eqb k0 k'); cbn.
    + intros [H|H]; [now left|right; now right].
    + intros [H|H]; [right; now left|].
      destruct (IH H) as [H'|H']; [now left|right; now right].
Qed.

Lemma keys_dict_set {V} k (v : V) (d : dict V) :
  keys (dict_set k v d)
  = if existsb (String.eqb k) (keys d) then keys d else keys d ++ [k].
Proof.
  unfold keys. induction d as [|[k' v'] d IH]; cbn; [reflexivity|].
  destruct (String.eqb k k') eqn:E; cbn.
  - apply String.eqb_eq in E. now subst k'.
  - rewrite IH. destruct (existsb (String.eqb k) (map fst d)); reflexivity.
Qed.

Lemma keys_concatenate ex : keys (concatenate ex) = keys ex.
Proof. unfold keys, concatenate. rewrite map_map. now apply map_ext. Qed.

Lemma dict_get_concatenate k ex :
  dict_get k (concatenate ex) = option_map (@concat Z) (dict_get k ex).
Proof. unfold concatenate. apply (dict_get_map (@concat Z)). Qed.

Lemma group_texts_pos (s : Z) ex k0 first rest :
  0 < s ->
  concatenate ex = (k0, first) :: rest ->
  let L := Z.of_nat (length first) in
  let R := map (fun kt => (fst kt, chunkify L s (snd kt))) (concatenate ex) in
  group_texts s ex
  = match dict_get key_input_ids R with
    | None => Fails KeyError
    | Some ids => Done (dict_set key_labels ids R)
    end.
Proof.
  intros Hs Hc L R. unfold group_texts. rewrite Hc. fold L.
  destruct (cut_length_pos L s Hs ltac:(lia)) as (total & -> & Htot & Hb & _ & _).
  rewrite range_step_pos by lia.
  rewrite <- Hc. subst R. unfold chunkify, chunk_count. rewrite <- Htot.
  rewrite (map_ext _ (fun kt => (fst kt,
             map (fun k => firstn (Z.to_nat s) (skipn (Z.to_nat s * k) (snd kt)))
                 (seq 0 (Z.to_nat ((total + s - 1) / s))))))
    by (intros kt; now rewrite chunks_starts).
  reflexivity.
Qed.

Lemma chunk_count_full (L s : Z) :
  0 < s -> s <= L -> chunk_count L s = Z.to_nat (L / s).
Proof.
  intros Hs HL. unfold chunk_count. f_equal.
  pose proof (Z.div_pos L s ltac:(lia) Hs) as Hq.
  assert (Htot : (if L >? s then L / s * s else L) = L / s * s).
  { destruct (L >? s) eqn:E; [reflexivity|].
    assert (L = s) as -> by (rewrite Z.gtb_ltb in E; apply Z.ltb_ge in E; lia).
    rewrite Z.div_same by lia. lia. }
  rewrite Htot. symmetry.
  apply (Z.div_unique_pos _ s (L / s) (s - 1)); lia.
Qed.

Lemma chunk_count_short (L s : Z) :
  0 < L -> L < s -> chunk_count L s = 1%nat.
Proof.
  intros HL Hs. unfold chunk_count.
  destruct (L >? s) eqn:E; [apply Z.gtb_lt in E; lia|].
  replace ((L + s - 1) / s) with 1; [reflexivity|].
  apply (Z.div_unique_pos _ s 1 (L - 1)); lia.
Qed.

Lemma chunk_count_empty (s : Z) : 0 < s -> chunk_count 0 s = 0%nat.
Proof.
  intros Hs. unfold chunk_count.
  destruct (0 >? s) eqn:E; [apply Z.gtb_lt in E; lia|].
  replace ((0 + s - 1) / s) with 0; [reflexivity|].
  apply (Z.div_unique_pos _ s 0 (s - 1)); lia.
Qed.

(** The chunks of a column of [L] tokens, put end to end, are the column up
    to the cut length. *)
Lemma concat_chunkify (L s : Z) (t : list Z) :
  0 < s -> Z.of_nat (length t) = L ->
  concat (chunkify L s t)
  = firstn (Z.to_nat (if L >? s then (L / s) * s else L)) t.
Proof.
  intros Hs Hlen. unfold chunkify. rewrite concat_chunks_nat.
  destruct (Z.le_gt_cases s L) as [Hfull|Hshort].
  - rewrite chunk_count_full by lia.
    pose proof (Z.div_pos L s ltac:(lia) Hs) as Hq.
    destruct (L >? s) eqn:E.
    + f_equal. nia.
    + assert (L = s) as -> by (rewrite Z.gtb_ltb in E; apply Z.ltb_ge in E; lia).
      rewrite Z.div_same by lia. f_equal. lia.
  - destruct (L >? s) eqn:E; [apply Z.gtb_lt in E; lia|].
    destruct (Z.eq_dec L 0) as [->|Hne].
    + rewrite chunk_count_empty by lia. now rewrite Nat.mul_0_r.
    + rewrite chunk_count_short by lia.
      rewrite !firstn_all2 by lia. reflexivity.
Qed.

(** X1.  With a positive chunk length [s] and columns of [L >= s] tokens,
    every column of the result, [labels] included, consists of [L // s]
    chunks of exactly [s] tokens. *)
Theorem group_texts_chunk_sizes (s L : Z) ex res :
  0 < s <= L -> uniform L ex ->
  group_texts s ex = Done res ->
  forall k cs, In (k, cs) res ->
    Forall (fun c => Z.of_nat (length c) = s) cs
    /\ Z.of_nat (length cs) = L / s.
Proof.
  intros [Hs HL] Huni Hrun.
  destruct (concatenate ex) as [|[k0 first] rest] eqn:Hc.
  { unfold group_texts in Hrun. rewrite Hc in Hrun. discriminate. }
  assert (Hfirst : Z.of_nat (length first) = L).
  { destruct ex as [|[k1 col1] ex']; [discriminate|].
    cbn in Hc. injection Hc as _ <- _. apply (Huni k1). now left. }
  rewrite (group_texts_pos s ex k0 first rest Hs Hc) in Hrun.
  cbv zeta in Hrun. rewrite Hfirst in Hrun.
  set (R := map _ (concatenate ex)) in Hrun.
  assert (HR : forall k cs, In (k, cs) R ->
            Forall (fun c => Z.of_nat (length c) = s) cs
            /\ Z.of_nat (length cs) = L / s).
  { intros k cs Hin. subst R. apply in_map_iff in Hin as [[k' t] [Heq Hin]].
    cbn in Heq. injection Heq as <- <-.
    unfold concatenate in Hin. apply in_map_iff in Hin as [[k'' col] [Heq Hin]].
    cbn in Heq. injection Heq as <- <-.
    pose proof (Huni k'' col Hin) as Hlen.
    pose proof (Z.div_pos L s ltac:(lia) Hs) as Hq.
    pose proof (Z.mul_div_le L s Hs) as Hle.
    unfold chunkify. rewrite chunk_count_full by lia. split.
    - eapply Forall_impl;
        [|apply (chunk_lengths_nat (Z.to_nat s) (Z.to_nat (L / s)) (concat col));
          nia].
      intros c Hcl. cbn in Hcl. lia.
    - rewrite length_map, length_seq. lia. }
  destruct (dict_get key_input_ids R) as [ids|] eqn:Hids; [|discriminate].
  injection Hrun as <-. intros k cs Hin.
  apply In_dict_set in Hin as [Heq|Hin]; [|exact (HR k cs Hin)].
  injection Heq as -> ->. apply (HR key_input_ids). now apply dict_get_In.
Qed.

Lemma concatenate_first ex k0 first rest L :
  uniform L ex -> concatenate ex = (k0, first) :: rest ->
  Z.of_nat (length first) = L.
Proof.
  intros Huni Hc. destruct ex as [|[k1 col1] ex']; [discriminate|].
  cbn in Hc. injection Hc as _ <- _. apply (Huni k1). now left.
Qed.

(** X2.  With a positive chunk length [s] and columns of [L] tokens, the
    chunks of a column other than [labels], put end to end, are the column
    cut after [(L // s) * s] tokens when [L > s] and the whole column
    otherwise; fewer than [s] tokens are dropped. *)
Theorem group_texts_round_trip (s L : Z) ex res k col :
  0 < s -> uniform L ex ->
  group_texts s ex = Done res ->
  dict_get k ex = Some col -> k <> key_labels ->
  let kept := if L >? s then (L / s) * s else L in
  exists cs,
    dict_get k res = Some cs
    /\ concat cs = firstn (Z.to_nat kept) (concat col)
    /\ 0 <= L - kept < s.
Proof.
  intros Hs Huni Hrun Hk Hne kept.
  destruct (concatenate ex) as [|[k0 first] rest] eqn:Hc.
  { unfold group_texts in Hrun. rewrite Hc in Hrun. discriminate. }
  pose proof (concatenate_first _ _ _ _ _ Huni Hc) as Hfirst.
  rewrite (group_texts_pos s ex k0 first rest Hs Hc) in Hrun.
  cbv zeta in Hrun. rewrite Hfirst in Hrun.
  set (R := map _ (concatenate ex)) in Hrun.
  destruct (dict_get key_input_ids R) as [ids|] eqn:Hids; [|discriminate].
  injection Hrun as <-.
  exists (chunkify L s (concat col)). split; [|split].
  - rewrite dict_get_set.
    destruct (String.eqb k key_labels) eqn:E;
      [apply String.eqb_eq in E; contradiction|].
    subst R. rewrite (dict_get_map (chunkify L s)), dict_get_concatenate, Hk.
    reflexivity.
  - apply concat_chunkify; [exact Hs|].
    apply (Huni k). now apply dict_get_In.
  - assert (HL : 0 <= L) by (rewrite <- Hfirst; lia).
    destruct (cut_length_pos L s Hs HL) as (total & _ & Htot & Hb1 & Hb2 & _).
    subst kept. rewrite <- Htot. lia.
Qed.

(** X3.  A batch whose columns are shorter than the chunk length is not
    dropped: every column other than [labels] comes back as one chunk, the
    whole column, shorter than [s]. *)
Theorem group_texts_short_batch_kept (s L : Z) ex res k col :
  0 < L < s -> uniform L ex ->
  group_texts s ex = Done res ->
  dict_get k ex = Some col -> k <> key_labels ->
  dict_get k res = Some [concat col]
  /\ Z.of_nat (length (concat col)) < s.
Proof.
  intros [HL Hs] Huni Hrun Hk Hne.
  destruct (concatenate ex) as [|[k0 first] rest] eqn:Hc.
  { unfold group_texts in Hrun. rewrite Hc in Hrun. discriminate. }
  pose proof (concatenate_first _ _ _ _ _ Huni Hc) as Hfirst.
  rewrite (group_texts_pos s ex k0 first rest ltac:(lia) Hc) in Hrun.
  cbv zeta in Hrun. rewrite Hfirst in Hrun.
  set (R := map _ (concatenate ex)) in Hrun.
  destruct (dict_get key_input_ids R) as [ids|] eqn:Hids; [|discriminate].
  injection Hrun as <-.
  pose proof (Huni k col (dict_get_In _ _ _ Hk)) as Hlen.
  split; [|lia].
  rewrite dict_get_set.
  destruct (String.eqb k key_labels) eqn:E;
    [apply String.eqb_eq in E; contradiction|].
  subst R. rewrite (dict_get_map (chunkify L s)), dict_get_concatenate, Hk.
  cbn [option_map]. unfold chunkify. rewrite chunk_count_short by lia.
  cbn [seq map]. rewrite Nat.mul_0_r. cbn [skipn].
  rewrite firstn_all2 by lia. reflexivity.
Qed.

Lemma cut_length_nonzero (L s : Z) :
  s <> 0 ->
  exists total,
    cut_length L s = Done total
    /\ total = (if L >? s then (L / s) * s else L).
Proof.
  intros Hs. unfold cut_length, py_floordiv.
  destruct (s =? 0) eqn:E; [apply Z.eqb_eq in E; contradiction|].
  destruct (L >? s); eexists; split; reflexivity.
Qed.

Lemma range_step_nonzero lo hi s :
  s <> 0 -> exists starts, range_step lo hi s = Done starts.
Proof.
  intros Hs. unfold range_step.
  destruct (s =? 0) eqn:E; [apply Z.eqb_eq in E; contradiction|].
  now eexists.
Qed.

(** X4.  When [group_texts] returns and when it raises.  It returns exactly
    when the batch has a column, the chunk length is not zero, and there is
    an [input_ids] column.  A batch with no column is an [IndexError]; a chunk
    length of zero is a division by zero when the first column is longer
    than zero and a zero [range] step otherwise; a missing [input_ids] is a
    [KeyError]. *)
Theorem group_texts_outcome (s : Z) ex :
  (ex = [] -> group_texts s ex = Fails IndexError)
  /\ (forall k col rest, ex = (k, col) :: rest -> s = 0 ->
        group_texts s ex
        = Fails (match concat col with
                 | [] => RangeStepZero
                 | _ :: _ => DivisionByZero
                 end))
  /\ (ex <> [] -> s <> 0 -> dict_get key_input_ids ex = None ->
      group_texts s ex = Fails KeyError)
  /\ (ex <> [] -> s <> 0 -> dict_get key_input_ids ex <> None ->
      exists res, group_texts s ex = Done res).
Proof.
  split; [|split; [|split]].
  - intros ->. reflexivity.
  - intros k col rest -> ->. unfold group_texts. cbn [concatenate map fst snd].
    unfold cut_length, py_floordiv, range_step.
    destruct (concat col) as [|x t]; cbn; [reflexivity|].
    destruct (Z.pos (Pos.of_succ_nat (length t)) >? 0) eqn:E; [reflexivity|].
    rewrite Z.gtb_ltb in E. apply Z.ltb_ge in E. lia.
  - intros Hex Hs Hids. unfold group_texts.
    destruct (concatenate ex) as [|[k0 first] rest] eqn:Hc.
    { destruct ex; [contradiction|discriminate]. }
    destruct (cut_length_nonzero (Z.of_nat (length first)) s Hs)
      as (total & -> & _).
    destruct (range_step_nonzero 0 total s Hs) as [starts ->].
    rewrite <- Hc.
    rewrite (dict_get_map (chunks s starts)), dict_get_concatenate, Hids.
    reflexivity.
  - intros Hex Hs Hids. unfold group_texts.
    destruct (concatenate ex) as [|[k0 first] rest] eqn:Hc.
    { destruct ex; [contradiction|discriminate]. }
    destruct (cut_length_nonzero (Z.of_nat (length first)) s Hs)
      as (total & -> & _).
    destruct (range_step_nonzero 0 total s Hs) as [starts ->].
    rewrite <- Hc.
    rewrite (dict_get_map (chunks s starts)), dict_get_concatenate.
    destruct (dict_get key_input_ids ex); [|contradiction].
    cbn. now eexists.
Qed.

Lemma keys_map_snd {V W} (f : V -> W) (d : dict V) :
  keys (map (fun kv => (fst kv, f (snd kv))) d) = keys d.
Proof. unfold keys. rewrite map_map. now apply map_ext. Qed.

(** X5.  In the result of [group_texts], [labels] holds the chunks of
    [input_ids]; the columns keep their order, and [labels] is added after
    them unless the batch already had a column of that name. *)
Theorem group_texts_labels (s : Z) ex res :
  group_texts s ex = Done res ->
  dict_get key_labels res = dict_get key_input_ids res
  /\ dict_get key_input_ids res <> None
  /\ keys res = (if existsb (String.eqb key_labels) (keys ex)
                 then keys ex else keys ex ++ [key_labels]).
Proof.
  unfold group_texts. intros Hrun.
  destruct (concatenate ex) as [|[k0 first] rest] eqn:Hc; [discriminate|].
  destruct (cut_length _ s) as [total|e]; [|discriminate].
  destruct (range_step 0 total s) as [starts|e]; [|discriminate].
  rewrite <- Hc in Hrun.
  destruct (dict_get key_input_ids _) as [ids|] eqn:Hids; [|discriminate].
  injection Hrun as <-. rewrite !dict_get_set, Hids.
  rewrite String.eqb_refl.
  replace (String.eqb key_input_ids key_labels) with false by reflexivity.
  split; [reflexivity|]. split; [discriminate|].
  rewrite keys_dict_set, (keys_map_snd (chunks s starts)), keys_concatenate.
  reflexivity.
Qed.

(** X6.  The sequence length chosen never exceeds the model's number of
    positions; a request that is not zero and fits is taken as it is; a
    request of zero counts as no request. *)
Theorem choose_seq_length_bound (arg : option Z) (mml mpe : Z) :
  choose_seq_length arg mml mpe <= mpe
  /\ (forall v, arg = Some v -> v <> 0 -> v <= mpe ->
        choose_seq_length arg mml mpe = v)
  /\ choose_seq_length (Some 0) mml mpe = choose_seq_length None mml mpe.
Proof.
  unfold choose_seq_length. split; [|split].
  - destruct arg as [v|]; [destruct (v =? 0)|];
      match goal with
      | |- (if ?c then _ else _) <= _ =>
          destruct c eqn:E; [lia|rewrite Z.gtb_ltb in E; apply Z.ltb_ge in E; lia]
      end.
  - intros v -> Hv Hle.
    destruct (v =? 0) eqn:E; [apply Z.eqb_eq in E; contradiction|].
    destruct (v >? mpe) eqn:E1; [apply Z.gtb_lt in E1; lia|reflexivity].
  - reflexivity.
Qed.

(** X7.  A negative [--seq-length] is not rejected.  The length chosen is
    the requested one when it is within the model's number of positions
    (and the smaller of 1024 and that number otherwise), so it is negative
    too; and on a batch with an [input_ids] column [group_texts] then
    returns, with every column, [labels] included, holding no chunk at
    all. *)
Theorem negative_seq_length_empties (v mml mpe : Z) ex :
  v < 0 ->
  let s := choose_seq_length (Some v) mml mpe in
  s = (if v >? mpe then Z.min 1024 mpe else v)
  /\ s < 0
  /\ (dict_get key_input_ids ex <> None ->
      exists res,
        group_texts s ex = Done res
        /\ dict_get key_labels res = Some []
        /\ dict_get key_input_ids res = Some []
        /\ forall k cs, In (k, cs) res -> cs = []).
Proof.
  intros Hv s.
  assert (Hsv : s = (if v >? mpe then Z.min 1024 mpe else v)).
  { subst s. unfold choose_seq_length.
    destruct (v =? 0) eqn:E; [apply Z.eqb_eq in E; lia|reflexivity]. }
  assert (Hs : s < 0).
  { rewrite Hsv. destruct (v >? mpe) eqn:E1; [apply Z.gtb_lt in E1; lia|lia]. }
  split; [exact Hsv|]. split; [exact Hs|].
  clearbody s. unfold group_texts. intros Hids.
  destruct (concatenate ex) as [|[k0 first] rest] eqn:Hc.
  { destruct ex; [now contradiction Hids|discriminate]. }
  destruct (cut_length_nonzero (Z.of_nat (length first)) s ltac:(lia))
    as (total & Hcut & Htot).
  rewrite Hcut.
  assert (Hnn : 0 <= total).
  { subst total. destruct (_ >? s); [|lia].
    pose proof (Z.div_mod (Z.of_nat (length first)) s ltac:(lia)).
    pose proof (Z.mod_neg_bound (Z.of_nat (length first)) s Hs). nia. }
  assert (Hstarts : range_step 0 total s = Done []).
  { unfold range_step.
    destruct (s =? 0) eqn:E; [apply Z.eqb_eq in E; lia|].
    destruct (0 <? s) eqn:E1; [apply Z.ltb_lt in E1; lia|].
    replace (Z.to_nat ((0 - total - s - 1) / - s)) with 0%nat; [reflexivity|].
    assert ((0 - total - s - 1) / - s <= 0); [|lia].
    apply Z.lt_succ_r. apply Z.div_lt_upper_bound; lia. }
  rewrite Hstarts, <- Hc.
  set (R := map _ (concatenate ex)).
  assert (HR : forall k cs, In (k, cs) R -> cs = []).
  { intros k cs Hin. subst R. apply in_map_iff in Hin as [[k' t] [Heq _]].
    cbn in Heq. now injection Heq as _ <-. }
  assert (HRids : dict_get key_input_ids R = Some []).
  { subst R.
    rewrite (dict_get_map (chunks s []) key_input_ids (concatenate ex)).
    rewrite dict_get_concatenate.
    destruct (dict_get key_input_ids ex); [reflexivity|now contradiction Hids]. }
  rewrite HRids. eexists. split; [reflexivity|].
  split; [now rewrite dict_get_set, String.eqb_refl|].
  split.
  - rewrite dict_get_set.
    change (String.eqb key_input_ids key_labels) with false. exact HRids.
  - intros k cs Hin.
    apply In_dict_set in Hin as [Heq|Hin]; [|exact (HR k cs Hin)].
    now injection Heq as _ ->.
Qed.

(** X8.  The text column chosen is always a column of the dataset: [text]
    when there is one, the first column otherwise; a dataset with no column
    is an [IndexError]. *)
Theorem text_column_name_member (column_names : list String.string) :
  (forall c, text_column_name column_names = Done c -> In c column_names)
  /\ (In key_text column_names -> text_column_name column_names = Done key_text)
  /\ (forall e, text_column_name column_names = Fails e ->
        column_names = [] /\ e = IndexError)
  /\ (forall c rest, column_names = c :: rest -> ~ In key_text column_names ->
        text_column_name column_names = Done c).
Proof.
  assert (Hspec : existsb (String.eqb key_text) column_names = true
                  <-> In key_text column_names).
  { rewrite existsb_exists. split.
    - intros [c [Hin Heq]]. apply String.eqb_eq in Heq. now subst c.
    - intros Hin. exists key_text. split; [exact Hin|apply String.eqb_refl]. }
  unfold text_column_name.
  destruct (existsb (String.eqb key_text) column_names) eqn:E.
  - assert (Hin : In key_text column_names) by now apply Hspec.
    split; [|split; [|split]].
    + intros c [= <-]. exact Hin.
    + reflexivity.
    + discriminate.
    + intros c rest _ Hnot. contradiction.
  - assert (Hnot : ~ In key_text column_names).
    { intros Hin. apply Hspec in Hin. discriminate. }
    split; [|split; [|split]].
    + intros c. destruct column_names as [|c0 rest]; [discriminate|].
      intros [= <-]. now left.
    + intros Hin. contradiction.
    + intros e. destruct column_names; [|discriminate].
      intros [= <-]. auto.
    + intros c rest -> _. reflexivity.
Qed.

Lemma sample_batch_uniform :
  uniform 7 [(key_input_ids, [[1; 2]; [3; 4; 5]; [6; 7]]);
             (key_text, [[1; 1]; [1; 1; 1]; [1; 1]])].
Proof.
  intros k col [H|[H|[]]]; injection H as <- <-; reflexivity.
Qed.

Lemma short_batch_uniform : uniform 2 [(key_input_ids, [[1]; [2]])].
Proof. intros k col [H|[]]. injection H as <- <-. reflexivity. Qed.

Lemma group_texts_chunk_sizes_witness :
  exists res,
    group_texts 3 [(key_input_ids, [[1; 2]; [3; 4; 5]; [6; 7]]);
                   (key_text, [[1; 1]; [1; 1; 1]; [1; 1]])] = Done res
    /\ forall k cs, In (k, cs) res ->
         Forall (fun c => Z.of_nat (length c) = 3) cs
         /\ Z.of_nat (length cs) = 7 / 3.
Proof.
  eexists. split; [vm_compute; reflexivity|].
  apply (group_texts_chunk_sizes 3 7
           [(key_input_ids, [[1; 2]; [3; 4; 5]; [6; 7]]);
            (key_text, [[1; 1]; [1; 1; 1]; [1; 1]])]).
  - lia.
  - exact sample_batch_uniform.
  - vm_compute. reflexivity.
Defined.

Lemma group_texts_round_trip_witness :
  exists res cs,
    group_texts 3 [(key_input_ids, [[1; 2]; [3; 4; 5]; [6; 7]]);
                   (key_text, [[1; 1]; [1; 1; 1]; [1; 1]])] = Done res
    /\ dict_get key_input_ids res = Some cs
    /\ concat cs = [1; 2; 3; 4; 5; 6].
Proof.
  eexists.
  assert (Hrun : group_texts 3 [(key_input_ids, [[1; 2]; [3; 4; 5]; [6; 7]]);
                                (key_text, [[1; 1]; [1; 1; 1]; [1; 1]])]
                 = Done _) by (vm_compute; reflexivity).
  destruct (group_texts_round_trip 3 7 _ _ key_input_ids
              [[1; 2]; [3; 4; 5]; [6; 7]] ltac:(lia) sample_batch_uniform Hrun
              eq_refl ltac:(discriminate)) as (cs & Hget & Hcat & _).
  exists cs. split; [exact Hrun|]. split; [exact Hget|]. exact Hcat.
Defined.

Lemma group_texts_short_batch_kept_witness :
  exists res,
    group_texts 5 [(key_input_ids, [[1]; [2]])] = Done res
    /\ dict_get key_input_ids res = Some [[1; 2]].
Proof.
  eexists.
  assert (Hrun : group_texts 5 [(key_input_ids, [[1]; [2]])] = Done _)
    by (vm_compute; reflexivity).
  split; [exact Hrun|].
  exact (proj1 (group_texts_short_batch_kept 5 2 _ _ key_input_ids [[1]; [2]]
                  ltac:(lia) short_batch_uniform Hrun eq_refl
                  ltac:(discriminate))).
Defined.

Lemma group_texts_outcome_witness :
  group_texts 0 [(key_input_ids, [[1]; [2]])] = Fails DivisionByZero
  /\ group_texts 4 [(key_text, [[1]; [2]])] = Fails KeyError.
Proof.
  split.
  - exact (proj1 (proj2 (group_texts_outcome 0 [(key_input_ids, [[1]; [2]])]))
             key_input_ids [[1]; [2]] [] eq_refl eq_refl).
  - exact (proj1 (proj2 (proj2 (group_texts_outcome 4 [(key_text, [[1]; [2]])])))
             ltac:(discriminate) ltac:(discriminate) eq_refl).
Defined.

Lemma group_texts_labels_witness :
  exists res,
    group_texts 1 [(key_input_ids, [[1]; [2]])] = Done res
    /\ dict_get key_labels res = dict_get key_input_ids res.
Proof.
  eexists.
  assert (Hrun : group_texts 1 [(key_input_ids, [[1]; [2]])] = Done _)
    by (vm_compute; reflexivity).
  split; [exact Hrun|].
  exact (proj1 (group_texts_labels 1 _ _ Hrun)).
Defined.

Lemma negative_seq_length_empties_witness :
  choose_seq_length (Some (-5)) 2048 4096 = -5
  /\ exists res,
       group_texts (choose_seq_length (Some (-5)) 2048 4096)
         [(key_input_ids, [[1; 2]; [3; 4; 5]; [6; 7]]);
          (key_text, [[1; 1]; [1; 1; 1]; [1; 1]])] = Done res
       /\ res = [(key_input_ids, []); (key_text, []); (key_labels, [])].
Proof.
  pose proof (negative_seq_length_empties (-5) 2048 4096
                [(key_input_ids, [[1; 2]; [3; 4; 5]; [6; 7]]);
                 (key_text, [[1; 1]; [1; 1; 1]; [1; 1]])]
                ltac:(lia)) as (Hs & _ & Hrun).
  split; [exact Hs|].
  destruct (Hrun ltac:(discriminate)) as (res & Hres & _).
  exists res. split; [exact Hres|].
  vm_compute in Hres. now injection Hres as <-.
Defined.

End DataPrepFacts.

(** ** rank0_first: progress *)

Module Rank0FirstRunFacts.
Import Rank0First Rank0FirstRun.

Lemma forallb_false_nth {A} (f : A -> bool) (c : list A) :
  forallb f c = false -> exists r p, nth_error c r = Some p /\ f p = false.
Proof.
  induction c as [|x c IH]; cbn; [discriminate|].
  destruct (f x) eqn:E; cbn.
  - intros H. destruct (IH H) as (r & p & Hp & Hf). now exists (S r), p.
  - intros _. now exists 0%nat, x.
Qed.

Lemma existsb_true_nth {A} (f : A -> bool) (c : list A) :
  existsb f c = true -> exists r p, nth_error c r = Some p /\ f p = true.
Proof.
  induction c as [|x c IH]; cbn; [discriminate|].
  destruct (f x) eqn:E; cbn.
  - intros _. now exists 0%nat, x.
  - intros H. destruct (IH H) as (r & p & Hp & Hf). now exists (S r), p.
Qed.

Lemma forallb_nth {A} (f : A -> bool) (c : list A) r p :
  forallb f c = true -> nth_error c r = Some p -> f p = true.
Proof.
  intros Hall Hp. rewrite forallb_forall in Hall.
  apply Hall. eapply nth_error_In; eauto.
Qed.

(** X9.  The block cannot deadlock.  In every configuration the group can
    reach in which no process has crashed and some process is not yet past
    the block, some process can move on its own or the barrier opens. *)
Theorem no_deadlock (world_size : nat) (c : config) :
  reachable world_size c ->
  forallb (fun p => negb (crashed p)) c = true ->
  existsb (fun p => negb (has_left p)) c = true ->
  exists a c', is_raise a = false /\ do_action a c = Some c'.
Proof.
  intros Hreach Hnc Hsome. apply Rank0FirstFacts.inv_reachable in Hreach.
  destruct (forallb blocked c) eqn:Hall.
  - exists BarrierOpens, (map release c). split; [reflexivity|].
    cbn. rewrite Hall. destruct c; [discriminate|reflexivity].
  - apply forallb_false_nth in Hall as (r & p & Hp & Hnb).
    pose proof (forallb_nth _ _ _ _ Hnc Hp) as Hpc. cbn in Hpc.
    assert (Hstep : exists p', local_step r p = Some p').
    { destruct Hreach as [H|[H|H]].
      - pose proof (H _ _ Hp) as Hph.
        destruct p as [[] []], r; cbn in *; try discriminate; eauto.
      - pose proof (H _ _ Hp) as Hph.
        destruct p as [[] []], r; cbn in *; try discriminate; eauto.
      - exfalso. apply existsb_true_nth in Hsome as (r' & q & Hq & Hl).
        pose proof (H _ _ Hq) as Hph.
        destruct q as [[] []]; cbn in *; discriminate. }
    destruct Hstep as [p' Hp'].
    exists (Local r), (update r p' c). split; [reflexivity|].
    cbn. now rewrite Hp, Hp'.
Qed.

Lemma no_deadlock_witness :
  let c := [mkProc AtBarrier1 true; mkProc AtBarrier1 false] in
  reachable 2 c
  /\ exists a c', is_raise a = false /\ do_action a c = Some c'.
Proof.
  intros c.
  assert (Hreach : reachable 2 c).
  { exists [Local 0; Local 1; Local 0]. reflexivity. }
  split; [exact Hreach|].
  exact (no_deadlock 2 c Hreach eq_refl eq_refl).
Defined.

Lemma sum_update (f : proc -> nat) r p p' c :
  nth_error c r = Some p ->
  (list_sum (map f (update r p' c)) + f p = list_sum (map f c) + f p')%nat.
Proof.
  unfold list_sum. revert r. induction c as [|x c IH]; intros r Hp.
  - destruct r; discriminate.
  - destruct r as [|r]; cbn in Hp |- *.
    + injection Hp as ->. lia.
    + specialize (IH r Hp). lia.
Qed.

Lemma sum_release c :
  forallb blocked c = true ->
  (list_sum (map moves_left (map release c)) + length c
   = list_sum (map moves_left c))%nat.
Proof.
  unfold list_sum. induction c as [|p c IH]; cbn; [reflexivity|].
  intros H. apply andb_prop in H as [Hb Hall]. specialize (IH Hall).
  destruct p as [[] w]; cbn in Hb |- *; try discriminate; lia.
Qed.

Lemma local_step_moves r p p' :
  local_step r p = Some p' -> (S (moves_left p') <= moves_left p)%nat.
Proof.
  destruct p as [[] w], r; cbn; intros H; try discriminate;
    injection H as <-; cbn; lia.
Qed.

Lemma do_action_moves a c c' :
  is_raise a = false -> do_action a c = Some c' ->
  (S (total_moves_left c') <= total_moves_left c)%nat.
Proof.
  unfold total_moves_left. intros Hnr Ha. destruct a as [r|r|r|]; cbn in *.
  - destruct (nth_error c r) as [p|] eqn:Hp; [|discriminate].
    destruct (local_step r p) as [p'|] eqn:Hs; [|discriminate].
    injection Ha as <-.
    pose proof (sum_update moves_left r p p' c Hp).
    pose proof (local_step_moves r p p' Hs). lia.
  - discriminate.
  - discriminate.
  - destruct c as [|p0 c0] eqn:Hc; [discriminate|]. rewrite <- Hc in *.
    destruct (forallb blocked c) eqn:Hall; [|discriminate].
    injection Ha as <-. pose proof (sum_release c Hall).
    assert (1 <= length c)%nat by (rewrite Hc; cbn; lia). lia.
Qed.

Lemma total_moves_start n : total_moves_left (start n) = (6 * n)%nat.
Proof.
  unfold total_moves_left, start, list_sum.
  induction n as [|n IH]; cbn in *; lia.
Qed.

Lemma run_moves schedule : forall c c',
  forallb (fun a => negb (is_raise a)) schedule = true ->
  run schedule c = Some c' ->
  (length schedule + total_moves_left c' <= total_moves_left c)%nat.
Proof.
  induction schedule as [|a rest IH]; intros c c' Hnr Hrun; cbn in *.
  - injection Hrun as <-. lia.
  - apply andb_prop in Hnr as [Ha Hrest].
    destruct (do_action a c) as [c1|] eqn:Hact; [|discriminate].
    specialize (IH c1 c' Hrest Hrun).
    pose proof (do_action_moves a c c1 ltac:(now destruct (is_raise a)) Hact).
    lia.
Qed.

(** X10.  An execution of the block in which no body raises is short: whatever
    the interleaving, a group of [world_size] processes makes at most
    [6 * world_size] moves. *)
Theorem execution_bounded (world_size : nat) (schedule : list action)
    (c : config) :
  forallb (fun a => negb (is_raise a)) schedule = true ->
  run schedule (start world_size) = Some c ->
  (length schedule + total_moves_left c <= 6 * world_size)%nat.
Proof.
  intros Hnr Hrun. rewrite <- total_moves_start.
  now apply run_moves.
Qed.

Lemma execution_bounded_witness :
  (length [Local 0; Local 1; Local 0; BarrierOpens; Local 1]
   + total_moves_left [mkProc AfterBarrier1 true; mkProc Yield2 false]
   <= 6 * 2)%nat.
Proof.
  exact (execution_bounded 2 [Local 0; Local 1; Local 0; BarrierOpens; Local 1]
           _ eq_refl eq_refl).
Defined.

(** X11.  When the body of the leader raises, no other process ever runs the
    body and no process gets past the block: the barrier cannot open any
    more, and every other rank is at the start, blocked in the first
    barrier, or has left that barrier with an exception. *)
Theorem leader_failure_blocks_all (world_size : nat) (c : config) (p0 : proc) :
  reachable world_size c ->
  nth_error c 0 = Some p0 -> at_pc p0 = Crashed ->
  do_action BarrierOpens c = None
  /\ forall r p, nth_error c r = Some p ->
       has_left p = false
       /\ ((0 < r)%nat ->
           began p = false
           /\ (at_pc p = AtStart \/ at_pc p = AtBarrier1
               \/ at_pc p = BarrierFailed)).
Proof.
  intros Hreach Hp0 Hcr. split.
  { destruct c as [|q c']; [discriminate|]. cbn in Hp0. injection Hp0 as ->.
    cbn. unfold blocked at 1. rewrite Hcr. reflexivity. }
  intros r p Hp.
  apply Rank0FirstFacts.inv_reachable in Hreach.
  destruct Hreach as [H|[H|H]];
    pose proof (H _ _ Hp0) as Hph0; pose proof (H _ _ Hp) as Hph;
    destruct p0 as [[] w0]; cbn in Hcr; try discriminate;
    destruct w0; cbn in Hph0; try discriminate.
  split.
  - destruct p as [[] []], r; cbn in *; try discriminate; reflexivity.
  - intros Hr. destruct r; [lia|].
    destruct p as [[] []]; cbn in *; try discriminate; auto.
Qed.

Lemma leader_failure_blocks_all_witness :
  let c := [mkProc Crashed false; mkProc BarrierFailed false;
            mkProc AtBarrier1 false] in
  reachable 3 c
  /\ do_action BarrierOpens c = None
  /\ began (mkProc BarrierFailed false) = false.
Proof.
  intros c.
  assert (Hreach : reachable 3 c).
  { exists [Local 0; Local 1; Local 2; BodyRaises 0; BarrierRaises 1].
    reflexivity. }
  split; [exact Hreach|].
  pose proof (leader_failure_blocks_all 3 c _ Hreach eq_refl eq_refl) as [Hb H].
  split; [exact Hb|].
  exact (proj1 (proj2 (H 1%nat _ eq_refl) (le_n 1))).
Defined.

End Rank0FirstRunFacts.

(** ** Invariants of a run *)

Section RunInvariants.

Variable cfg : Config.
Variable env : Env.

(** How an iteration of the inner loop ends: before the counters move, with
    [state] as it was, or through the update of the counters. *)
Lemma step_body_cases i w :
  let o := step_body cfg env i w in
  let st := state w in
  (state (world o) = st
   /\ (events o = [EvFetch st i]
       \/ (epoch_step st <= i /\ events o = [EvFetch st i; EvExec st i]
           /\ exists x, res o = Raise x))
   /\ (res o = Ok tt -> i < epoch_step st))
  \/ (epoch_step st <= i
      /\ exists loss w1,
           state w1 = st /\ all_sampled (timers w1)
           /\ o = prepend [EvFetch st i; EvExec st i]
                    (after_stages cfg i loss w1)).
Proof.
  cbv zeta.
  destruct (Z.ltb_spec i (epoch_step (state w))) as [Hlt|Hge].
  - left. rewrite (step_body_skipped cfg env i w Hlt), data_stage_run.
    destruct (fetch env (epoch (state w)) i); cbn [res world events];
      (split; [reflexivity|split; [now left|intros _; exact Hlt]]).
  - destruct (fetch env (epoch (state w)) i) as [x|] eqn:Hf.
    + left. rewrite (step_body_fetch_fails cfg env i w x Hf).
      cbn [res world events].
      split; [reflexivity|split; [now left|discriminate]].
    + destruct (stages_result env (epoch (state w)) i) as [loss|x] eqn:Hs.
      * right. split; [exact Hge|].
        destruct (step_body_stages_ok cfg env i w loss Hge Hf Hs)
          as (w1 & Hst & Hall & _ & _ & Heq).
        exists loss, w1. auto.
      * left.
        destruct (step_body_stage_fails cfg env i w x Hge Hf Hs)
          as (w1 & Hst & _ & Heq).
        rewrite Heq. cbn [res world events].
        split; [exact Hst|]. split; [|discriminate].
        unfold stage_events. destruct (barrier env (epoch (state w)) i 0).
        -- now left.
        -- right. split; [exact Hge|]. split; [reflexivity|]. now exists x.
Qed.

(** The events of the update of the counters, and how it ends. *)
Lemma after_stages_cases i loss w :
  all_sampled (timers w) ->
  let o := after_stages cfg i loss w in
  let st1 := advance loss (state w) in
  let lg := negb (log_freq cfg =? 0) && (global_step st1 mod log_freq cfg =? 0) in
  let ck := negb (log_freq cfg =? 0) && negb (ckpt_freq cfg =? 0)
            && (global_step st1 mod ckpt_freq cfg =? 0) in
  counters (state (world o)) = counters st1
  /\ res o = (if (log_freq cfg =? 0) || (ckpt_freq cfg =? 0)
              then Raise ZeroDivisionError else Ok tt)
  /\ exists st2,
       counters st2 = counters st1
       /\ events o
          = EvCounters st1
            :: (if lg then [EvLog st1 (report cfg i st1 (timers w))] else [])
            ++ (if ck then [EvCkpt st2 (Nat.eqb (rank cfg) 0)] else []).
Proof.
  intros Hall. cbv zeta. rewrite (after_stages_run cfg i loss w Hall). cbv zeta.
  set (st1 := advance loss (state w)).
  destruct (log_freq cfg =? 0) eqn:Hlf; cbn [negb andb orb].
  { cbn [prepend res world events app with_state state].
    split; [reflexivity|]. split; [reflexivity|]. now exists st1. }
  destruct (global_step st1 mod log_freq cfg =? 0) eqn:Hlg;
    destruct (ckpt_freq cfg =? 0) eqn:Hcf; cbn [negb andb orb];
    try destruct (global_step st1 mod ckpt_freq cfg =? 0) eqn:Hck;
    cbn [prepend res world events app with_state logged state];
    (split; [reflexivity|]); (split; [reflexivity|]);
    try (now exists st1);
    eexists; (split; [|reflexivity]); reflexivity.
Qed.

Lemma triple_ret {A} (P : World -> Prop) Ev (a : A) : triple P (ret a) Ev P.
Proof. intros w Hw. cbn. split; [constructor|auto]. Qed.

Lemma triple_bind {A B} P Q R Ev (c : M A) (k : A -> M B) :
  triple P c Ev Q -> (forall a, triple Q (k a) Ev R) ->
  triple P (bind c k) Ev R.
Proof.
  intros Hc Hk w Hw. destruct (Hc w Hw) as [Hev Hq].
  destruct (c w) as [[a|x] w1 evs] eqn:Hcw; cbn [res world events] in *.
  - rewrite (bind_out c k w a w1 evs Hcw). cbn [prepend res world events].
    destruct (Hk a w1 (Hq a eq_refl)) as [Hev2 Hr].
    split; [apply Forall_app; auto|exact Hr].
  - rewrite (bind_out_raise c k w x w1 evs Hcw). cbn [res world events].
    split; [exact Hev|discriminate].
Qed.

Lemma triple_range (I : Z -> World -> Prop) Ev (body : Z -> M unit) hi n :
  forall lo, lo + Z.of_nat n = hi ->
  (forall i, lo <= i < hi -> triple (I i) (body i) Ev (I (i + 1))) ->
  triple (I lo) (for_each (range lo hi) body) Ev (I hi).
Proof.
  induction n as [|n IH]; intros lo Hn Hbody.
  - rewrite range_nil by lia. replace hi with lo by lia. apply triple_ret.
  - rewrite range_cons by lia. cbn [for_each].
    eapply triple_bind.
    + apply Hbody. lia.
    + intros _. apply IH; [lia|]. intros i Hi. apply Hbody. lia.
Qed.

Lemma triple_weaken {A} (P P' Q Q' : World -> Prop) Ev (c : M A) :
  (forall w, P' w -> P w) -> (forall w, Q w -> Q' w) ->
  triple P c Ev Q -> triple P' c Ev Q'.
Proof.
  intros HP HQ Hc w Hw. destruct (Hc w (HP w Hw)) as [Hev Hq].
  split; [exact Hev|]. intros a Ha. apply HQ. eauto.
Qed.

Lemma step_body_triple i :
  0 <= i < Z.of_nat (len_dataloader cfg) ->
  triple (before_batch cfg i) (step_body cfg env i) (event_ok cfg)
         (before_batch cfg (i + 1)).
Proof.
  intros Hi w Hw. unfold before_batch in *.
  destruct (step_body_cases i w) as [(Hst & Hev & Hok)|(Hge & loss & w1 & Hst & Hall & Heq)].
  - split.
    + destruct Hev as [Hev|(Hge & Hev & _)]; rewrite Hev;
        repeat constructor; cbn; try lia.
    + intros [] Ha. rewrite Hst. specialize (Hok Ha). lia.
  - rewrite Heq. cbn [prepend res world events].
    destruct (after_stages_cases i loss w1 Hall) as (Hcnt & Hres & st2 & Hc2 & Hev).
    cbv zeta in Hcnt, Hres, Hev, Hc2.
    apply counters_inv in Hcnt as (_ & Hes & _).
    apply counters_inv in Hc2 as (_ & Hes2 & Hg2).
    rewrite Hst in *. cbn [advance epoch_step global_step epoch] in *.
    split.
    + rewrite Hev.
      constructor; [repeat split; cbn; lia|].
      constructor; [repeat split; cbn; lia|].
      constructor; [repeat split; cbn; lia|].
      apply Forall_app. split.
      * destruct (log_freq cfg =? 0) eqn:Hlf; cbn [negb andb];
          [constructor|].
        destruct ((global_step (state w) + 1) mod log_freq cfg =? 0) eqn:Hm;
          [|constructor].
        constructor; [|constructor].
        apply Z.eqb_neq in Hlf. apply Z.eqb_eq in Hm.
        repeat split; cbn; try lia.
      * destruct (log_freq cfg =? 0) eqn:Hlf; cbn [negb andb];
          [constructor|].
        destruct (ckpt_freq cfg =? 0) eqn:Hcf; cbn [negb andb];
          [constructor|].
        destruct ((global_step (state w) + 1) mod ckpt_freq cfg =? 0) eqn:Hm;
          [|constructor].
        constructor; [|constructor].
        apply Z.eqb_neq in Hlf. apply Z.eqb_neq in Hcf. apply Z.eqb_eq in Hm.
        repeat split; cbn; try lia. now rewrite Hg2.
    + intros _ _. rewrite Hes. lia.
Qed.

Lemma epoch_body_triple e :
  triple (before_batch cfg 0) (epoch_body cfg env e) (event_ok cfg)
         (before_batch cfg 0).
Proof.
  unfold epoch_body.
  intros w Hw. rewrite bind_get_state, bind_set_state, bind_emit_prepend.
  cbn [prepend res world events app].
  assert (H : triple (before_batch cfg 0)
                (bind (steps_from cfg env 0) (fun _ => end_epoch))
                (event_ok cfg) (before_batch cfg 0)).
  { eapply triple_bind.
    - unfold steps_from.
      apply (triple_range (before_batch cfg) (event_ok cfg) (step_body cfg env)
               (Z.of_nat (len_dataloader cfg)) (len_dataloader cfg) 0);
        [lia|]. intros i Hi. now apply step_body_triple.
    - intros _ w1 Hw1. rewrite end_epoch_run. cbv zeta.
      cbn [res world events with_state state epoch_step].
      split; [repeat constructor|].
      intros _ _. unfold before_batch in *. cbn. lia. }
  match goal with |- context [bind _ _ ?w0] => destruct (H w0) as [Hev Hq] end.
  { unfold before_batch in *. cbn. exact Hw. }
  split; [constructor; [repeat split|exact Hev]|exact Hq].
Qed.

Lemma triple_for_each {A} P Ev (xs : list A) (body : A -> M unit) :
  (forall x, triple P (body x) Ev P) -> triple P (for_each xs body) Ev P.
Proof.
  intros Hbody. induction xs as [|x xs IH]; cbn [for_each].
  - apply triple_ret.
  - eapply triple_bind; [apply Hbody|]. intros _. exact IH.
Qed.

(** Every event of a run that starts with [epoch_step] within the epoch
    satisfies [event_ok]. *)
Lemma train_events_ok st0 :
  0 <= epoch_step st0 <= Z.of_nat (len_dataloader cfg) ->
  Forall (event_ok cfg) (events (train cfg env (init_world st0))).
Proof.
  intros H0. unfold train. rewrite bind_get_state.
  apply (triple_for_each (before_batch cfg 0) (event_ok cfg)
           (range (epoch (state (init_world st0))) (num_epochs cfg))
           (epoch_body cfg env) epoch_body_triple).
  unfold before_batch, init_world. cbn. exact H0.
Qed.

End RunInvariants.

(** Find an event in a trace that is written out. *)
Ltac find_event := repeat first [left; reflexivity | right].

(** X12.  The batch handed to the model is always the one [epoch_step] points
    at.  In a run that starts with [epoch_step] within the epoch, whatever
    the external calls do, every batch index that reaches the model equals
    [epoch_step] at that moment, and every index fetched from the loader is
    at most [epoch_step]. *)
Theorem processed_batch_is_epoch_step (cfg : Config) (env : Env)
    (st0 : TrainingState) :
  0 <= epoch_step st0 <= Z.of_nat (len_dataloader cfg) ->
  let tr := events (train cfg env (init_world st0)) in
  (forall st i, In (EvExec st i) tr ->
     i = epoch_step st /\ 0 <= i < Z.of_nat (len_dataloader cfg))
  /\ (forall st i, In (EvFetch st i) tr ->
        i <= epoch_step st /\ 0 <= i < Z.of_nat (len_dataloader cfg)).
Proof.
  intros H0 tr.
  pose proof (train_events_ok cfg env st0 H0) as Hall.
  rewrite Forall_forall in Hall.
  split; intros st i Hin; destruct (Hall _ Hin) as (Hb & _); cbn in Hb; lia.
Qed.

Lemma processed_batch_is_epoch_step_witness :
  let cfg := mkConfig 1 1 1 2 0 in
  let env := mkEnv (fun n => inject_Z (Z.of_nat n)) (fun _ _ => None)
                   (fun _ _ _ => None) (fun _ _ => Ok 1%Q) (fun _ _ => None)
                   (fun _ _ => None) in
  let st := mkState 0 1 1 0 in
  In (EvExec st 1) (events (train cfg env (init_world st)))
  /\ 1 = epoch_step st.
Proof.
  intros cfg env st.
  assert (Hin : In (EvExec st 1) (events (train cfg env (init_world st)))).
  { vm_compute. find_event. }
  split; [exact Hin|].
  assert (H0 : 0 <= epoch_step st <= Z.of_nat (len_dataloader cfg))
    by (cbn; lia).
  exact (proj1 (proj1 (processed_batch_is_epoch_step cfg env st H0) st 1 Hin)).
Defined.

(** X13.  What a checkpoint records.  In a run that starts with [epoch_step]
    within the epoch, a checkpoint is saved only when both intervals are
    non-zero and [global_step] is a multiple of [ckpt_freq]; the recorded
    [epoch_step] lies between 1 and the number of batches, so it is never 0;
    and the rank writes [state.json] exactly when it is rank 0. *)
Theorem checkpoint_record (cfg : Config) (env : Env) (st0 : TrainingState) :
  0 <= epoch_step st0 <= Z.of_nat (len_dataloader cfg) ->
  forall st leader,
    In (EvCkpt st leader) (events (train cfg env (init_world st0))) ->
    ckpt_freq cfg <> 0 /\ log_freq cfg <> 0
    /\ global_step st mod ckpt_freq cfg = 0
    /\ 1 <= epoch_step st <= Z.of_nat (len_dataloader cfg)
    /\ leader = Nat.eqb (rank cfg) 0.
Proof.
  intros H0 st leader Hin.
  pose proof (train_events_ok cfg env st0 H0) as Hall.
  rewrite Forall_forall in Hall.
  destruct (Hall _ Hin) as (_ & _ & Hc). cbn in Hc. tauto.
Qed.

Lemma checkpoint_record_witness :
  let cfg := mkConfig 1 1 2 2 0 in
  let env := mkEnv (fun n => inject_Z (Z.of_nat n)) (fun _ _ => None)
                   (fun _ _ _ => None) (fun _ _ => Ok 1%Q) (fun _ _ => None)
                   (fun _ _ => None) in
  let st := mkState 0 2 2 0 in
  In (EvCkpt st true) (events (train cfg env (init_world zero_state)))
  /\ global_step st mod ckpt_freq cfg = 0.
Proof.
  intros cfg env st.
  assert (Hin : In (EvCkpt st true)
                   (events (train cfg env (init_world zero_state)))).
  { vm_compute. find_event. }
  split; [exact Hin|].
  assert (H0 : 0 <= epoch_step zero_state <= Z.of_nat (len_dataloader cfg))
    by (cbn; lia).
  exact (proj1 (proj2 (proj2 (checkpoint_record cfg env zero_state H0 st true Hin)))).
Defined.

(** X14.  What a log record shows.  In a run that starts with [epoch_step]
    within the epoch, a record is logged only when [log_freq] is non-zero
    and divides [global_step]; its [epoch] is the current one; and its
    [num_batches_remaining] is the number of batches minus [epoch_step]
    plus one, so it counts the batch just finished and is never 0. *)
Theorem log_record (cfg : Config) (env : Env) (st0 : TrainingState) :
  0 <= epoch_step st0 <= Z.of_nat (len_dataloader cfg) ->
  forall st info,
    In (EvLog st info) (events (train cfg env (init_world st0))) ->
    log_freq cfg <> 0
    /\ global_step st mod log_freq cfg = 0
    /\ info_epoch info = epoch st
    /\ info_num_batches_remaining info
       = Z.of_nat (len_dataloader cfg) - epoch_step st + 1
    /\ 1 <= info_num_batches_remaining info <= Z.of_nat (len_dataloader cfg).
Proof.
  intros H0 st info Hin.
  pose proof (train_events_ok cfg env st0 H0) as Hall.
  rewrite Forall_forall in Hall.
  destruct (Hall _ Hin) as (_ & Hl & _). cbn in Hl.
  destruct Hl as (H1 & H2 & H3 & H4 & H5). rewrite H5.
  repeat split; auto; lia.
Qed.

Lemma log_record_witness :
  let cfg := mkConfig 1 2 1 2 0 in
  let env := mkEnv (fun n => inject_Z (Z.of_nat n)) (fun _ _ => None)
                   (fun _ _ _ => None) (fun _ _ => Ok 1%Q) (fun _ _ => None)
                   (fun _ _ => None) in
  exists st info,
    In (EvLog st info) (events (train cfg env (init_world zero_state)))
    /\ epoch_step st = 2
    /\ info_num_batches_remaining info = 1.
Proof.
  intros cfg env.
  assert (H0 : 0 <= epoch_step zero_state <= Z.of_nat (len_dataloader cfg))
    by (cbn; lia).
  pose proof (log_record cfg env zero_state H0) as H.
  eexists _, _. split; [|split].
  - vm_compute. find_event.
  - reflexivity.
  - match goal with
    | |- info_num_batches_remaining ?i = _ =>
        rewrite (proj1 (proj2 (proj2 (proj2 (H (mkState 0 2 2 2) i
                   ltac:(vm_compute; find_event))))))
    end. reflexivity.
Defined.

(** ** [global_step] and the optimizer updates *)

Section CountsUpdates.

Variable cfg : Config.
Variable env : Env.

Lemma updates_app t1 t2 : updates (t1 ++ t2) = updates t1 + updates t2.
Proof. unfold updates. rewrite trajectory_app, length_app. lia. Qed.

Lemma counted_app t1 : forall g t2,
  counted g t1 -> counted (g + updates t1) t2 -> counted g (t1 ++ t2).
Proof.
  induction t1 as [|ev t1 IH]; intros g t2 H1 H2.
  - cbn in *. now replace (g + 0) with g in H2 by lia.
  - destruct ev; cbn [app counted] in *; destruct H1 as [Hg H1];
      (split; [exact Hg|]); apply IH; auto;
      unfold updates in *; cbn [trajectory length] in H2;
      try exact H2.
    replace (g + 1 + Z.of_nat (length (trajectory t1)))
      with (g + Z.of_nat (S (length (trajectory t1)))) by lia.
    exact H2.
Qed.

Lemma counted_at pre : forall g ev post,
  counted g (pre ++ ev :: post) ->
  global_step (ev_state ev) = g + updates (pre ++ [ev]).
Proof.
  induction pre as [|a pre IH]; intros g ev post H.
  - destruct ev; cbn in H |- *; lia.
  - destruct a; cbn [app counted] in H; destruct H as [_ H];
      rewrite (IH _ _ _ H); unfold updates; cbn [app trajectory length]; lia.
Qed.

Lemma counts_ret {A} (a : A) : counts_updates (ret a).
Proof. intros w. cbn. unfold updates. cbn. split; [exact I|lia]. Qed.

Lemma counts_bind {A B} (c : M A) (k : A -> M B) :
  counts_updates c -> (forall a, counts_updates (k a)) ->
  counts_updates (bind c k).
Proof.
  intros Hc Hk w. destruct (Hc w) as [H1 H2].
  destruct (c w) as [[a|x] w1 evs] eqn:Hcw; cbn [res world events] in *.
  - rewrite (bind_out c k w a w1 evs Hcw). cbn [prepend res world events].
    destruct (Hk a w1) as [H3 H4]. rewrite H2 in H3.
    split; [now apply counted_app|]. rewrite updates_app. lia.
  - rewrite (bind_out_raise c k w x w1 evs Hcw). cbn [res world events]. auto.
Qed.

Lemma counts_for_each {A} (xs : list A) (body : A -> M unit) :
  (forall x, counts_updates (body x)) -> counts_updates (for_each xs body).
Proof.
  intros Hbody. induction xs as [|x xs IH]; cbn [for_each].
  - apply counts_ret.
  - apply counts_bind; [apply Hbody|]. intros _. exact IH.
Qed.

Lemma counts_step i : counts_updates (step_body cfg env i).
Proof.
  intros w.
  destruct (step_body_cases cfg env i w)
    as [(Hst & Hev & _)|(Hge & loss & w1 & Hst & Hall & Heq)].
  - rewrite Hst.
    destruct Hev as [Hev|(_ & Hev & _)]; rewrite Hev; unfold updates; cbn;
      repeat split; lia.
  - rewrite Heq. cbn [prepend res world events].
    destruct (after_stages_cases cfg i loss w1 Hall)
      as (Hcnt & _ & st2 & Hc2 & Hev).
    cbv zeta in Hcnt, Hev, Hc2.
    apply counters_inv in Hcnt as (_ & _ & Hg).
    apply counters_inv in Hc2 as (_ & _ & Hg2).
    rewrite Hst in *. cbn [advance global_step] in *.
    rewrite Hev, Hg.
    match goal with
    | |- context [if ?b then [EvLog ?s ?r] else []] => destruct b
    end;
    match goal with
    | |- context [if ?b then [EvCkpt ?s ?r] else []] => destruct b
    end; unfold updates; cbn; repeat split; lia.
Qed.

Lemma counts_end_epoch : counts_updates end_epoch.
Proof. intros w. rewrite end_epoch_run. unfold updates. cbn. repeat split; lia. Qed.

Lemma counts_epoch e : counts_updates (epoch_body cfg env e).
Proof.
  intros w. rewrite epoch_body_unfold.
  set (w0 := with_state _ w).
  assert (H : counts_updates (bind (steps_from cfg env 0) (fun _ => end_epoch))).
  { apply counts_bind; [|intros _; apply counts_end_epoch].
    apply counts_for_each. apply counts_step. }
  destruct (H w0) as [H1 H2]. subst w0.
  cbn [prepend res world events with_state state global_step] in *.
  unfold updates in *. cbn [app trajectory counted ev_state global_step].
  repeat split; auto.
Qed.

Lemma counts_train : counts_updates (train cfg env).
Proof.
  intros w. unfold train. rewrite bind_get_state.
  apply counts_for_each. apply counts_epoch.
Qed.

End CountsUpdates.

(** ** [global_step] and the optimizer *)

Section Lag.

Variable cfg : Config.
Variable env : Env.

Lemma optimizer_updates_app t1 t2 :
  optimizer_updates env (t1 ++ t2)
  = (optimizer_updates env t1 + optimizer_updates env t2)%nat.
Proof.
  unfold optimizer_updates. now rewrite processed_app, filter_app, length_app.
Qed.

Lemma stages_ok_update_done e i loss :
  stages_result env e i = Ok loss -> update_done env (e, i) = true.
Proof.
  unfold stages_result, update_done. cbn [fst snd].
  destruct (barrier env e i 0); [discriminate|].
  destruct (forward env e i); [|discriminate].
  destruct (barrier env e i 1); [discriminate|].
  destruct (backward env e i); [discriminate|].
  destruct (barrier env e i 2); [discriminate|].
  destruct (update env e i); [discriminate|]. reflexivity.
Qed.

Lemma stages_fail_after_update e i x :
  stages_result env e i = Raise x -> barrier env e i 0 = None ->
  update_done env (e, i) = true -> barrier env e i 3 = Some x.
Proof.
  unfold stages_result, update_done. cbn [fst snd]. intros Hs H0.
  rewrite H0 in Hs.
  destruct (forward env e i); [|discriminate].
  destruct (barrier env e i 1); [discriminate|].
  destruct (backward env e i); [discriminate|].
  destruct (barrier env e i 2); [discriminate|].
  destruct (update env e i); [discriminate|].
  destruct (barrier env e i 3); [|discriminate].
  intros _. congruence.
Qed.

Lemma lags_ret {A} (a : A) : lags_by_one env (ret a).
Proof.
  intros w. cbn. split; [now left|]. split; [reflexivity|discriminate].
Qed.

Lemma lags_bind {A B} (c : M A) (k : A -> M B) :
  lags_by_one env c -> (forall a, lags_by_one env (k a)) ->
  lags_by_one env (bind c k).
Proof.
  intros Hc Hk w. specialize (Hc w). cbv zeta in Hc |- *.
  destruct (c w) as [[a|x] w1 evs] eqn:Hcw; cbn [res world events] in *.
  - rewrite (bind_out c k w a w1 evs Hcw). cbn [prepend res world events].
    destruct Hc as (_ & Hok & _). specialize (Hok a eq_refl).
    specialize (Hk a w1). cbv zeta in Hk. destruct Hk as (K1 & K2 & K3).
    rewrite optimizer_updates_app, trajectory_app, length_app, processed_app.
    split; [lia|]. split.
    + intros b Hb. specialize (K2 b Hb). lia.
    + intros Hn. destruct K3 as (e & i & y & Hin & Hd & Hb & Hr); [lia|].
      exists e, i, y. split; [apply in_or_app; now right|auto].
  - rewrite (bind_out_raise c k w x w1 evs Hcw). cbn [res world events].
    destruct Hc as (H1 & _ & H3). split; [exact H1|]. split; [discriminate|].
    intros Hn. destruct (H3 Hn) as (e & i & y & Hin & Hd & Hb & Hr).
    exists e, i, y. repeat split; auto. congruence.
Qed.

Lemma lags_for_each {A} (xs : list A) (body : A -> M unit) :
  (forall x, lags_by_one env (body x)) -> lags_by_one env (for_each xs body).
Proof.
  intros Hbody. induction xs as [|x xs IH]; cbn [for_each].
  - apply lags_ret.
  - apply lags_bind; [apply Hbody|]. intros _. exact IH.
Qed.

Lemma lags_step i : lags_by_one env (step_body cfg env i).
Proof.
  intros w. cbv zeta.
  destruct (Z.ltb_spec i (epoch_step (state w))) as [Hlt|Hge].
  { rewrite (step_body_skipped cfg env i w Hlt), data_stage_run.
    destruct (fetch env (epoch (state w)) i); cbn;
      (split; [now left|]); (split; [reflexivity|discriminate]). }
  destruct (fetch env (epoch (state w)) i) as [x|] eqn:Hf.
  { rewrite (step_body_fetch_fails cfg env i w x Hf). cbn.
    split; [now left|]. split; [reflexivity|discriminate]. }
  destruct (stages_result env (epoch (state w)) i) as [loss|x] eqn:Hs.
  - destruct (step_body_stages_ok cfg env i w loss Hge Hf Hs)
      as (w1 & Hst & Hall & _ & _ & Heq).
    rewrite Heq. cbn [prepend res world events].
    destruct (after_stages_cases cfg i loss w1 Hall) as (_ & _ & st2 & _ & Hev).
    cbv zeta in Hev. rewrite Hev.
    unfold optimizer_updates.
    match goal with
    | |- context [if ?b then [EvLog ?s ?r] else []] => destruct b
    end;
    match goal with
    | |- context [if ?b then [EvCkpt ?s ?r] else []] => destruct b
    end; cbn [app processed trajectory filter];
      rewrite (stages_ok_update_done _ _ _ Hs); cbn [length];
      (split; [now left|]); (split; [reflexivity|intros H; lia]).
  - destruct (step_body_stage_fails cfg env i w x Hge Hf Hs)
      as (w1 & Hst & _ & Heq).
    rewrite Heq. cbn [res world events]. unfold stage_events, optimizer_updates.
    destruct (barrier env (epoch (state w)) i 0) as [y|] eqn:H0.
    + cbn. split; [now left|]. split; [reflexivity|discriminate].
    + cbn [processed trajectory filter length].
      destruct (update_done env (epoch (state w), i)) eqn:Hd;
        cbn [length].
      * split; [now right|]. split; [discriminate|]. intros _.
        exists (epoch (state w)), i, x.
        split; [now left|]. split; [exact Hd|]. split; [|reflexivity].
        exact (stages_fail_after_update _ _ _ Hs H0 Hd).
      * split; [now left|]. split; [reflexivity|discriminate].
Qed.

Lemma lags_end_epoch : lags_by_one env end_epoch.
Proof.
  intros w. rewrite end_epoch_run. cbn.
  split; [now left|]. split; [reflexivity|discriminate].
Qed.

Lemma lags_epoch e : lags_by_one env (epoch_body cfg env e).
Proof.
  intros w. cbv zeta. rewrite epoch_body_unfold.
  set (w0 := with_state _ w).
  assert (H : lags_by_one env
                (bind (steps_from cfg env 0) (fun _ => end_epoch))).
  { apply lags_bind; [|intros _; apply lags_end_epoch].
    apply lags_for_each. apply lags_step. }
  specialize (H w0). cbv zeta in H.
  cbn [prepend res world events app].
  unfold optimizer_updates in *. cbn [processed trajectory]. exact H.
Qed.

Lemma lags_train : lags_by_one env (train cfg env).
Proof.
  intros w. cbv zeta. unfold train. rewrite bind_get_state.
  apply (lags_for_each _ _ (lags_epoch)).
Qed.

End Lag.

(** X15.  [global_step] counts the update stages that ran to their end, or
    one less.  Whatever the external calls do and wherever the run starts,
    at the end of a run [global_step] has grown by the number of completed
    update stages (lines 268-271) when the run returns, and by that number
    or one less when it raises; it is one less only when the run has died in
    the barrier that follows an update (line 276), so that the optimizer
    has made an update the counters do not show. *)
Theorem global_step_lags_updates (cfg : Config) (env : Env)
    (st0 : TrainingState) :
  let o := train cfg env (init_world st0) in
  let n := Z.of_nat (optimizer_updates env (events o)) in
  let g := global_step (state (world o)) - global_step st0 in
  (g = n \/ g + 1 = n)
  /\ (res o = Ok tt -> g = n)
  /\ (g + 1 = n ->
      exists e i x,
        In (e, i) (processed (events o))
        /\ update_done env (e, i) = true
        /\ barrier env e i 3 = Some x /\ res o = Raise x).
Proof.
  intros o n g.
  destruct (counts_train cfg env (init_world st0)) as [_ Hg].
  fold o in Hg. cbn [init_world state] in Hg. unfold updates in Hg.
  pose proof (lags_train cfg env (init_world st0)) as Hl.
  cbv zeta in Hl. fold o in Hl. destruct Hl as (H1 & H2 & H3).
  subst n g. split; [lia|]. split.
  - intros Hok. specialize (H2 tt Hok). lia.
  - intros Hn. apply H3. lia.
Qed.

Lemma global_step_lags_updates_witness :
  let cfg := mkConfig 1 1 1 2 0 in
  let env := mkEnv (fun n => inject_Z (Z.of_nat n)) (fun _ _ => None)
                   (fun _ _ k => if Nat.eqb k 3 then Some (ExternalError 1)
                                 else None)
                   (fun _ _ => Ok 1%Q) (fun _ _ => None) (fun _ _ => None) in
  let o := train cfg env (init_world zero_state) in
  optimizer_updates env (events o) = 1%nat
  /\ global_step (state (world o)) = 0
  /\ exists e i x, barrier env e i 3 = Some x /\ res o = Raise x.
Proof.
  intros cfg env o.
  assert (Hn : optimizer_updates env (events o) = 1%nat)
    by (vm_compute; reflexivity).
  assert (Hg : global_step (state (world o)) = 0) by (vm_compute; reflexivity).
  split; [exact Hn|]. split; [exact Hg|].
  destruct (proj2 (proj2 (global_step_lags_updates cfg env zero_state)))
    as (e & i & x & _ & _ & Hb & Hr).
  { fold o. rewrite Hn, Hg. reflexivity. }
  exists e, i, x. split; [exact Hb|exact Hr].
Defined.

(** ** A zero interval *)

Section ZeroInterval.

Variable cfg : Config.
Variable env : Env.
Hypothesis zero : log_freq cfg = 0 \/ ckpt_freq cfg = 0.

Lemma stops_ret {A} (a : A) : stops_at_update cfg (ret a).
Proof. intros w. cbn. repeat split; auto. congruence. Qed.

Lemma stops_bind {A B} (c : M A) (k : A -> M B) :
  stops_at_update cfg c -> (forall a, stops_at_update cfg (k a)) ->
  stops_at_update cfg (bind c k).
Proof.
  intros Hc Hk w. destruct (Hc w) as (H1 & H2 & H3 & H4).
  destruct (c w) as [[a|x] w1 evs] eqn:Hcw; cbn [res world events] in *.
  - rewrite (bind_out c k w a w1 evs Hcw). cbn [prepend res world events].
    destruct (Hk a w1) as (K1 & K2 & K3 & K4).
    assert (Ht : trajectory evs = []).
    { destruct (trajectory evs) as [|t ts] eqn:E; [reflexivity|].
      assert (Hne : t :: ts <> []) by discriminate.
      specialize (H4 Hne). discriminate. }
    rewrite trajectory_app, ckpts_app, Ht, H2. cbn [app].
    split; [exact K1|]. split; [exact K2|]. split; [|exact K4].
    intros Hz. rewrite first_log_app, (H3 Hz). exact (K3 Hz).
  - rewrite (bind_out_raise c k w x w1 evs Hcw). cbn [res world events].
    split; [exact H1|]. split; [exact H2|]. split; [exact H3|].
    intros Hne. specialize (H4 Hne). now injection H4 as ->.
Qed.

Lemma stops_for_each {A} (xs : list A) (body : A -> M unit) :
  (forall x, stops_at_update cfg (body x)) ->
  stops_at_update cfg (for_each xs body).
Proof.
  intros Hbody. induction xs as [|x xs IH]; cbn [for_each].
  - apply stops_ret.
  - apply stops_bind; [apply Hbody|]. intros _. exact IH.
Qed.

Lemma stops_step i : stops_at_update cfg (step_body cfg env i).
Proof.
  intros w.
  destruct (step_body_cases cfg env i w)
    as [(Hst & Hev & _)|(Hge & loss & w1 & Hst & Hall & Heq)].
  - destruct Hev as [Hev|(_ & Hev & _)]; rewrite Hev; cbn;
      repeat split; auto; congruence.
  - rewrite Heq. cbn [prepend res world events].
    destruct (after_stages_cases cfg i loss w1 Hall)
      as (_ & Hres & st2 & _ & Hev).
    cbv zeta in Hres, Hev. rewrite Hev, Hres.
    destruct (log_freq cfg =? 0) eqn:Hlf; cbn [negb andb orb app].
    + cbn. repeat split; auto.
    + destruct (ckpt_freq cfg =? 0) eqn:Hcf; cbn [negb andb orb app].
      * apply Z.eqb_neq in Hlf.
        match goal with
        | |- context [if ?b then [EvLog ?s ?r] else []] => destruct b
        end; cbn; repeat split; auto; intros; lia.
      * apply Z.eqb_neq in Hlf. apply Z.eqb_neq in Hcf. lia.
Qed.

Lemma stops_end_epoch : stops_at_update cfg end_epoch.
Proof.
  intros w. rewrite end_epoch_run. cbn. repeat split; auto. congruence.
Qed.

Lemma stops_epoch e : stops_at_update cfg (epoch_body cfg env e).
Proof.
  intros w. rewrite epoch_body_unfold.
  set (w0 := with_state _ w).
  assert (H : stops_at_update cfg
                (bind (steps_from cfg env 0) (fun _ => end_epoch))).
  { apply stops_bind; [|intros _; apply stops_end_epoch].
    apply stops_for_each. apply stops_step. }
  destruct (H w0) as (H1 & H2 & H3 & H4).
  cbn [prepend res world events app trajectory ckpts first_log].
  auto.
Qed.

Lemma stops_train : stops_at_update cfg (train cfg env).
Proof.
  intros w. unfold train. rewrite bind_get_state.
  apply stops_for_each. apply stops_epoch.
Qed.

End ZeroInterval.

(** X16.  A log or checkpoint interval of 0 stops the run at its first
    optimizer update.  The modulo by the interval raises
    [ZeroDivisionError] after the counters have moved: the run shows at most
    one update and ends in that error when it shows one, it saves no
    checkpoint, and with a log interval of 0 it logs nothing. *)
Theorem zero_interval_stops_run (cfg : Config) (env : Env)
    (st0 : TrainingState) :
  log_freq cfg = 0 \/ ckpt_freq cfg = 0 ->
  let o := train cfg env (init_world st0) in
  (length (trajectory (events o)) <= 1)%nat
  /\ ckpts (events o) = []
  /\ (log_freq cfg = 0 -> first_log (events o) = None)
  /\ (trajectory (events o) <> [] ->
      res o = Raise ZeroDivisionError
      /\ global_step (state (world o)) = global_step st0 + 1).
Proof.
  intros Hz o.
  destruct (stops_train cfg env Hz (init_world st0)) as (H1 & H2 & H3 & H4).
  fold o in H1, H2, H3, H4.
  split; [exact H1|]. split; [exact H2|]. split; [exact H3|].
  intros Hne. split; [auto|].
  destruct (counts_train cfg env (init_world st0)) as [_ Hg].
  fold o in Hg. cbn [init_world state] in Hg. rewrite Hg. unfold updates.
  destruct (trajectory (events o)) as [|a [|b l]]; cbn in *;
    [congruence|lia|lia].
Qed.

Lemma zero_interval_stops_run_witness :
  let cfg := mkConfig 3 1 0 4 0 in
  let env := mkEnv (fun n => inject_Z (Z.of_nat n)) (fun _ _ => None)
                   (fun _ _ _ => None) (fun _ _ => Ok 1%Q) (fun _ _ => None)
                   (fun _ _ => None) in
  let o := train cfg env (init_world zero_state) in
  res o = Raise ZeroDivisionError /\ global_step (state (world o)) = 1.
Proof.
  intros cfg env o.
  assert (Hz : log_freq cfg = 0 \/ ckpt_freq cfg = 0) by (right; reflexivity).
  assert (Hne : trajectory (events o) <> []) by (vm_compute; discriminate).
  exact (proj2 (proj2 (proj2 (zero_interval_stops_run cfg env zero_state Hz))) Hne).
Defined.

(** ** A run that returns *)

Section Completed.

Variable cfg : Config.
Variable env : Env.

Lemma range_length lo hi : length (range lo hi) = Z.to_nat (hi - lo).
Proof. unfold range. now rewrite length_map, length_seq. Qed.

Lemma whole_epochs_cons e hi :
  e < hi ->
  whole_epochs cfg e hi
  = map (pair e) (range 0 (Z.of_nat (len_dataloader cfg)))
    ++ whole_epochs cfg (e + 1) hi.
Proof. intros H. unfold whole_epochs. now rewrite (range_cons e hi H). Qed.

Lemma whole_epochs_length m : forall lo hi,
  Z.to_nat (hi - lo) = m ->
  Z.of_nat (length (whole_epochs cfg lo hi))
  = Z.max 0 (hi - lo) * Z.of_nat (len_dataloader cfg).
Proof.
  induction m as [|m IH]; intros lo hi Hm.
  - unfold whole_epochs. rewrite (range_nil lo hi) by lia.
    rewrite Z.max_l by lia. reflexivity.
  - rewrite whole_epochs_cons by lia.
    rewrite length_app, length_map, range_length, Nat2Z.inj_add.
    rewrite (IH (lo + 1) hi) by lia.
    rewrite (Z.max_r 0 (hi - lo)), (Z.max_r 0 (hi - (lo + 1))) by lia.
    rewrite Z2Nat.id by lia. ring.
Qed.

Lemma step_completed i w :
  before_batch cfg i w ->
  let o := step_body cfg env i w in
  res o = Ok tt ->
  epoch (state (world o)) = epoch (state w)
  /\ epoch_step (state (world o)) = Z.max (epoch_step (state w)) (i + 1)
  /\ processed (events o)
     = (if i <? epoch_step (state w) then [] else [(epoch (state w), i)])
  /\ updates (events o) = Z.of_nat (length (processed (events o))).
Proof.
  intros Hw o Hres. subst o. unfold before_batch in Hw.
  destruct (step_body_cases cfg env i w)
    as [(Hst & Hev & Hok)|(Hge & loss & w1 & Hst & Hall & Heq)].
  - specialize (Hok Hres). rewrite Hst.
    destruct Hev as [Hev|(Hge & _)]; [|lia]. rewrite Hev.
    destruct (Z.ltb_spec i (epoch_step (state w))); [|lia].
    unfold updates. cbn. repeat split; lia.
  - rewrite Heq in Hres |- *. cbn [prepend res world events] in *.
    destruct (after_stages_cases cfg i loss w1 Hall)
      as (Hcnt & _ & st2 & _ & Hev).
    cbv zeta in Hcnt, Hev.
    apply counters_inv in Hcnt as (He & Hes & _).
    rewrite Hst in *. cbn [advance epoch epoch_step] in *.
    rewrite Hev, He, Hes.
    destruct (Z.ltb_spec i (epoch_step (state w))); [lia|].
    match goal with
    | |- context [if ?b then [EvLog ?s ?r] else []] => destruct b
    end;
    match goal with
    | |- context [if ?b then [EvCkpt ?s ?r] else []] => destruct b
    end; unfold updates; cbn; repeat split; lia.
Qed.

Lemma steps_completed n : forall lo w,
  lo + Z.of_nat n = Z.of_nat (len_dataloader cfg) ->
  before_batch cfg lo w ->
  let o := for_each (range lo (Z.of_nat (len_dataloader cfg)))
             (step_body cfg env) w in
  res o = Ok tt ->
  epoch (state (world o)) = epoch (state w)
  /\ epoch_step (state (world o)) = Z.of_nat (len_dataloader cfg)
  /\ processed (events o)
     = map (pair (epoch (state w)))
           (range (epoch_step (state w)) (Z.of_nat (len_dataloader cfg)))
  /\ updates (events o) = Z.of_nat (length (processed (events o))).
Proof.
  induction n as [|n IH]; intros lo w Hn Hw; cbv zeta.
  - unfold before_batch in Hw. rewrite !range_nil by lia.
    unfold updates. cbn. intros _. repeat split; lia.
  - rewrite (range_cons lo) by lia. cbn [for_each].
    pose proof (step_completed lo w Hw) as Hstep. cbv zeta in Hstep.
    destruct (step_body cfg env lo w) as [[[]|x] w1 evs] eqn:Hs.
    2:{ rewrite (bind_out_raise _ _ w x w1 evs Hs). discriminate. }
    rewrite (bind_out _ _ w tt w1 evs Hs).
    cbn [prepend res world events] in *.
    destruct (Hstep eq_refl) as (He & Hes & Hp & Hu).
    intros Hres.
    assert (Hw1 : before_batch cfg (lo + 1) w1).
    { unfold before_batch in *. lia. }
    destruct (IH (lo + 1) w1 ltac:(lia) Hw1 Hres) as (He2 & Hes2 & Hp2 & Hu2).
    rewrite processed_app, updates_app.
    split; [now rewrite He2|]. split; [exact Hes2|]. split.
    + rewrite Hp, Hp2, He, Hes. unfold before_batch in Hw.
      destruct (Z.ltb_spec lo (epoch_step (state w))).
      * rewrite Z.max_l by lia. reflexivity.
      * replace (epoch_step (state w)) with lo by lia.
        rewrite Z.max_r by lia.
        now rewrite (range_cons lo (Z.of_nat (len_dataloader cfg))) by lia.
    + rewrite length_app, Nat2Z.inj_add. lia.
Qed.

Lemma epoch_completed e w :
  before_batch cfg 0 w ->
  let o := epoch_body cfg env e w in
  res o = Ok tt ->
  epoch (state (world o)) = e
  /\ epoch_step (state (world o)) = 0
  /\ processed (events o)
     = map (pair e)
           (range (epoch_step (state w)) (Z.of_nat (len_dataloader cfg)))
  /\ updates (events o) = Z.of_nat (length (processed (events o))).
Proof.
  intros Hw. cbv zeta. rewrite epoch_body_unfold.
  set (w0 := with_state _ w).
  assert (Hw0 : before_batch cfg 0 w0) by exact Hw.
  pose proof (steps_completed (len_dataloader cfg) 0 w0 ltac:(lia) Hw0) as Hsteps.
  cbv zeta in Hsteps. unfold steps_from.
  destruct (for_each _ _ w0) as [[[]|x] w1 evs] eqn:Hs.
  2:{ rewrite (bind_out_raise _ _ w0 x w1 evs Hs). discriminate. }
  rewrite (bind_out _ _ w0 tt w1 evs Hs), end_epoch_run.
  cbn [prepend res world events with_state state epoch epoch_step app] in *.
  destruct (Hsteps eq_refl) as (He & Hes & Hp & Hu). intros _.
  unfold updates in *. cbn [processed trajectory].
  rewrite processed_app, trajectory_app. cbn [processed trajectory].
  rewrite !app_nil_r.
  subst w0. cbn [with_state state epoch epoch_step] in *.
  split; [exact He|]. split; [reflexivity|]. split; [exact Hp|exact Hu].
Qed.

Lemma epochs_completed m : forall e w,
  Z.to_nat (num_epochs cfg - (e + 1)) = m ->
  e < num_epochs cfg ->
  before_batch cfg 0 w ->
  let o := for_each (range e (num_epochs cfg)) (epoch_body cfg env) w in
  res o = Ok tt ->
  epoch (state (world o)) = num_epochs cfg - 1
  /\ epoch_step (state (world o)) = 0
  /\ processed (events o)
     = map (pair e)
           (range (epoch_step (state w)) (Z.of_nat (len_dataloader cfg)))
       ++ whole_epochs cfg (e + 1) (num_epochs cfg)
  /\ updates (events o) = Z.of_nat (length (processed (events o))).
Proof.
  induction m as [|m IH]; intros e w Hm He Hw; cbv zeta;
    rewrite (range_cons e) by lia; cbn [for_each];
    pose proof (epoch_completed e w Hw) as Hep; cbv zeta in Hep;
    (destruct (epoch_body cfg env e w) as [[[]|x] w1 evs] eqn:Hs;
     [|rewrite (bind_out_raise _ _ w x w1 evs Hs); discriminate]);
    rewrite (bind_out _ _ w tt w1 evs Hs);
    cbn [prepend res world events] in *;
    destruct (Hep eq_refl) as (He1 & Hes1 & Hp1 & Hu1).
  - rewrite range_nil by lia. cbn [for_each ret res world events].
    intros _. unfold whole_epochs.
    rewrite (range_nil (e + 1) (num_epochs cfg)) by lia.
    cbn [map concat]. rewrite !app_nil_r.
    repeat split; auto; lia.
  - intros Hres.
    assert (Hw1 : before_batch cfg 0 w1).
    { unfold before_batch. rewrite Hes1. lia. }
    destruct (IH (e + 1) w1 ltac:(lia) ltac:(lia) Hw1 Hres)
      as (He2 & Hes2 & Hp2 & Hu2).
    rewrite processed_app, updates_app.
    split; [exact He2|]. split; [exact Hes2|]. split.
    + rewrite Hp1, Hp2, Hes1. now rewrite <- whole_epochs_cons by lia.
    + rewrite length_app, Nat2Z.inj_add. lia.
Qed.

End Completed.

(** X17.  A run that returns has done all the work that was left.  Started at
    epoch [e0] with [epoch_step] [s0] within the epoch, a run that ends
    without an exception, whatever the external calls did, has handed to
    the model the batches [s0 ..] of epoch [e0] and then every batch of every
    later epoch, each once and in order; it has made one optimizer update
    per batch; and it ends at the last epoch with [epoch_step] 0. *)
Theorem completed_run (cfg : Config) (env : Env) (st0 : TrainingState) :
  0 <= epoch_step st0 <= Z.of_nat (len_dataloader cfg) ->
  epoch st0 < num_epochs cfg ->
  let o := train cfg env (init_world st0) in
  res o = Ok tt ->
  processed (events o)
  = map (pair (epoch st0))
        (range (epoch_step st0) (Z.of_nat (len_dataloader cfg)))
    ++ whole_epochs cfg (epoch st0 + 1) (num_epochs cfg)
  /\ counters (state (world o))
     = (num_epochs cfg - 1, 0,
        global_step st0
        + (Z.of_nat (len_dataloader cfg) - epoch_step st0)
        + (num_epochs cfg - 1 - epoch st0) * Z.of_nat (len_dataloader cfg)).
Proof.
  intros Hs He o Hres.
  destruct (counts_train cfg env (init_world st0)) as [_ Hg].
  fold o in Hg. cbn [init_world state] in Hg.
  subst o. unfold train in *. rewrite bind_get_state in *.
  cbn [init_world state] in *.
  destruct (epochs_completed cfg env _ (epoch st0) (init_world st0) eq_refl He Hs Hres)
    as (He2 & Hes2 & Hp & Hu).
  cbn [init_world state] in *.
  split; [exact Hp|].
  unfold counters. rewrite He2, Hes2, Hg, Hu, Hp.
  rewrite length_app, length_map, range_length, Nat2Z.inj_add.
  rewrite (whole_epochs_length cfg _ (epoch st0 + 1) (num_epochs cfg) eq_refl).
  rewrite Z.max_r by lia. rewrite Z2Nat.id by lia.
  f_equal. ring.
Qed.

Lemma completed_run_witness :
  let cfg := mkConfig 2 1 2 2 0 in
  let env := mkEnv (fun n => inject_Z (Z.of_nat n)) (fun _ _ => None)
                   (fun _ _ _ => None) (fun _ _ => Ok 1%Q) (fun _ _ => None)
                   (fun _ _ => None) in
  let o := train cfg env (init_world (mkState 0 1 1 0)) in
  processed (events o) = [(0, 1); (1, 0); (1, 1)]
  /\ counters (state (world o)) = (1, 0, 4).
Proof.
  intros cfg env o.
  assert (Hs : 0 <= epoch_step (mkState 0 1 1 0) <= Z.of_nat (len_dataloader cfg))
    by (cbn; lia).
  assert (He : epoch (mkState 0 1 1 0) < num_epochs cfg) by (cbn; lia).
  assert (Hres : res o = Ok tt) by (vm_compute; reflexivity).
  exact (completed_run cfg env (mkState 0 1 1 0) Hs He Hres).
Defined.

(** X18.  A step whose data or compute stage fails leaves [state] alone.
    When the fetch of the batch raises, or the step is not skipped and one
    of the calls of lines 245-276 raises (a barrier, the forward or the
    backward pass, the update), the iteration ends with that exception and
    with the [state] dict as it found it; it shows no update of the
    counters, no log record and no checkpoint, and no timer has lost a
    sample. *)
Theorem failed_stage_keeps_state (cfg : Config) (env : Env) (i : Z)
    (w : World) (x : exn) :
  fetch env (epoch (state w)) i = Some x
  \/ (epoch_step (state w) <= i
      /\ fetch env (epoch (state w)) i = None
      /\ stages_result env (epoch (state w)) i = Raise x) ->
  let o := step_body cfg env i w in
  res o = Raise x
  /\ state (world o) = state w
  /\ trajectory (events o) = []
  /\ first_log (events o) = None
  /\ ckpts (events o) = []
  /\ grows w (world o).
Proof.
  intros [Hf|(Hge & Hf & Hs)] o; subst o.
  - rewrite (step_body_fetch_fails cfg env i w x Hf).
    cbn [res world events trajectory first_log ckpts].
    repeat split. apply grows_aborted.
  - destruct (step_body_stage_fails cfg env i w x Hge Hf Hs)
      as (w1 & Hst & Hgr & Heq).
    rewrite Heq. cbn [res world events].
    split; [reflexivity|]. split; [exact Hst|].
    unfold stage_events.
    destruct (barrier env (epoch (state w)) i 0); cbn; auto.
Qed.

Lemma failed_stage_keeps_state_witness :
  let cfg := mkConfig 1 1 1 2 0 in
  let env := mkEnv (fun n => inject_Z (Z.of_nat n)) (fun _ _ => None)
                   (fun _ _ _ => None) (fun _ _ => Ok 1%Q)
                   (fun _ _ => Some (ExternalError 1)) (fun _ _ => None) in
  let o := step_body cfg env 0 (init_world zero_state) in
  res o = Raise (ExternalError 1) /\ state (world o) = zero_state.
Proof.
  intros cfg env o.
  assert (H : fetch env (epoch (state (init_world zero_state))) 0
              = Some (ExternalError 1)
              \/ (epoch_step (state (init_world zero_state)) <= 0
                  /\ fetch env (epoch (state (init_world zero_state))) 0 = None
                  /\ stages_result env (epoch (state (init_world zero_state))) 0
                     = Raise (ExternalError 1))).
  { right. split; [cbn; lia|]. split; reflexivity. }
  pose proof (failed_stage_keeps_state cfg env 0 (init_world zero_state)
                (ExternalError 1) H) as (Hres & Hst & _).
  split; [exact Hres|exact Hst].
Defined.

(** ** The timers of a step *)

Section StageSamples.

Variable env : Env.

Lemma timed_length k k' w :
  length (LocalTimer.measurements (get_timer k' (timers (timed env k w))))
  = (length (LocalTimer.measurements (get_timer k' (timers w)))
     + (if stage_eq_dec k k' then 1 else 0))%nat.
Proof.
  destruct (stage_eq_dec k k') as [<-|Hne].
  - rewrite timed_same, length_app. reflexivity.
  - rewrite (timed_other env k k' w Hne). lia.
Qed.

Lemma timed_clock k w : clock (timed env k w) = S (S (clock w)).
Proof. reflexivity. Qed.

(** The compute stages of a step whose external calls all return. *)
Lemma run_stages_ok i w loss :
  stages_result env (epoch (state w)) i = Ok loss ->
  run_stages env i w
  = mkOut (Ok loss)
      (timed env Waiting (timed env Update (timed env Waiting
        (timed env Backward (timed env Waiting (timed env Forward
          (timed env Waiting w)))))))
      [EvExec (state w) i].
Proof.
  unfold stages_result, run_stages. rewrite bind_get_state. cbv zeta.
  set (e := epoch (state w)).
  destruct (barrier env e i 0) eqn:H0; [discriminate|].
  destruct (forward env e i) as [l|] eqn:Hf; [|discriminate].
  destruct (barrier env e i 1) eqn:H1; [discriminate|].
  destruct (backward env e i) eqn:Hb; [discriminate|].
  destruct (barrier env e i 2) eqn:H2; [discriminate|].
  destruct (update env e i) eqn:Hu; [discriminate|].
  destruct (barrier env e i 3) eqn:H3; [discriminate|].
  intros [= ->].
  rewrite (bind_out _ _ w tt (timed env Waiting w) [])
    by (rewrite with_timer_ext; reflexivity).
  rewrite prepend_nil. set (w1 := timed env Waiting w).
  rewrite (bind_out _ _ w1 loss (timed env Forward w1) [EvExec (state w) i])
    by (rewrite with_timer_emit_lift; reflexivity).
  set (w2 := timed env Forward w1).
  rewrite (bind_out _ _ w2 tt (timed env Waiting w2) [])
    by (rewrite with_timer_ext; reflexivity).
  rewrite prepend_nil. set (w3 := timed env Waiting w2).
  rewrite (bind_out _ _ w3 tt (timed env Backward w3) [])
    by (rewrite with_timer_ext; reflexivity).
  rewrite prepend_nil. set (w4 := timed env Backward w3).
  rewrite (bind_out _ _ w4 tt (timed env Waiting w4) [])
    by (rewrite with_timer_ext; reflexivity).
  rewrite prepend_nil. set (w5 := timed env Waiting w4).
  rewrite (bind_out _ _ w5 tt (timed env Update w5) [])
    by (rewrite with_timer_ext; reflexivity).
  rewrite prepend_nil. set (w6 := timed env Update w5).
  rewrite (bind_out _ _ w6 tt (timed env Waiting w6) [])
    by (rewrite with_timer_ext; reflexivity).
  rewrite prepend_nil. reflexivity.
Qed.

End StageSamples.

(** X19.  The samples a step adds to the timers.  When the compute stages of a
    step all return, the forward, backward and update timers have gained
    one sample each, the waiting timer four (one for each barrier), the data
    timer none, and the clock has been read fourteen times. *)
Theorem stages_sample_counts (env : Env) (i : Z) (w : World) (loss : Q) :
  let o := run_stages env i w in
  res o = Ok loss ->
  (forall k,
     length (LocalTimer.measurements (get_timer k (timers (world o))))
     = (length (LocalTimer.measurements (get_timer k (timers w)))
        + samples_per_step k)%nat)
  /\ clock (world o) = (clock w + 14)%nat.
Proof.
  intros o Hres. subst o.
  destruct (run_stages_summary env i w) as (Hr & _). cbv zeta in Hr.
  rewrite Hr in Hres. rewrite (run_stages_ok env i w loss Hres).
  cbn [world]. split.
  - intros k. rewrite !timed_length.
    destruct k; cbn [samples_per_step];
      repeat match goal with
      | |- context [stage_eq_dec ?a ?b] =>
          destruct (stage_eq_dec a b); try congruence
      end; lia.
  - rewrite !timed_clock. lia.
Qed.

Lemma stages_sample_counts_witness :
  let env := mkEnv (fun n => inject_Z (Z.of_nat n)) (fun _ _ => None)
                   (fun _ _ _ => None) (fun _ _ => Ok 1%Q) (fun _ _ => None)
                   (fun _ _ => None) in
  let o := run_stages env 0 (init_world zero_state) in
  length (LocalTimer.measurements (get_timer Waiting (timers (world o))))
  = 4%nat.
Proof.
  intros env o.
  assert (Hres : res o = Ok 1%Q) by (vm_compute; reflexivity).
  exact (proj1 (stages_sample_counts env 0 (init_world zero_state) 1%Q Hres)
           Waiting).
Defined.

(** X20.  A timer cannot be entered twice.  When a [with] block of a timer
    runs inside a [with] block of the same timer and its body returns
    leaving the timers alone, the inner block records its sample and clears
    the start time, so the exit of the outer block raises [TypeError]: the
    timer ends with that one new sample and no start time. *)
Theorem nested_timer_raises {A} (env : Env) (k : stage) (body : M A)
    (w : World) (a : A) :
  (forall w', timers (world (body w')) = timers w') ->
  let ob := body (entered env k (entered env k w)) in
  let o := with_timer env k (with_timer env k body) w in
  res ob = Ok a ->
  res o = Raise TypeError
  /\ events o = events ob
  /\ get_timer k (timers (world o))
     = LocalTimer.mk
         (LocalTimer.measurements (get_timer k (timers w))
          ++ [(time_at env (clock (world ob)) - time_at env (S (clock w)))%Q])
         None.
Proof.
  intros Hframe ob o Hres. subst o.
  rewrite (with_timer_unfold env k (with_timer env k body) w). cbv zeta.
  rewrite (with_timer_unfold env k body (entered env k w)). cbv zeta.
  fold ob. rewrite Hres. cbn [res world events].
  assert (Hs : LocalTimer.start_time (get_timer k (timers (world ob)))
               = Some (time_at env (S (clock w)))).
  { unfold ob. rewrite Hframe. apply entered_start_time. }
  assert (Hm : LocalTimer.measurements (get_timer k (timers (world ob)))
               = LocalTimer.measurements (get_timer k (timers w))).
  { unfold ob. rewrite Hframe. now rewrite !entered_measurements. }
  rewrite (timer_exit_normal env k (world ob) _ Hs).
  cbn [res world events].
  unfold timer_exit, LocalTimer.exit. cbn [timers clock state].
  rewrite get_set_timer_same. cbn [LocalTimer.start_time res world events timers].
  split; [reflexivity|]. split; [reflexivity|].
  rewrite get_set_timer_same, Hm. reflexivity.
Qed.

Lemma nested_timer_raises_witness :
  let env := mkEnv (fun n => inject_Z (Z.of_nat n)) (fun _ _ => None)
                   (fun _ _ _ => None) (fun _ _ => Ok 1%Q) (fun _ _ => None)
                   (fun _ _ => None) in
  res (with_timer env Data (with_timer env Data (ret tt))
         (init_world zero_state))
  = Raise TypeError.
Proof.
  intros env.
  exact (proj1 (nested_timer_raises env Data (ret tt) (init_world zero_state) tt
                  (fun _ => eq_refl) eq_refl)).
Defined.

(** ** Saving and resuming *)

Section SaveResume.










End SaveResume.





(** ** The epoch boundaries *)

Section Boundaries.

Variable cfg : Config.
Variable env : Env.















End Boundaries.


